(** * Rankings of the pickleball league tracker

    A shallow embedding of the ranking core of the service:

    - the PostgreSQL data layer ([PickleballDatabasePostgreSQL]): the
      [players] and [matches] tables, the four [getPlayerStats...] queries
      and the five [getPlayerForm...] queries, with SQL's three-valued
      logic, LEFT JOIN, GROUP BY, COUNT, ORDER BY and LIMIT written out
      over lists of rows;
    - the ranking router ([createRankingRouter]): the three GET handlers
      over an injected [db] and an injected [rankingsCache], in a small
      state-and-exception monad.

    Conventions.  SQL INTEGER, BIGINT, DATE and TIMESTAMP values are [Z]
    (a date is a day number, a timestamp a tick count); a nullable column
    is an [option]; NUMERIC values are exact rationals [Q].  BIGINT
    overflow (an error in PostgreSQL, beyond 4.6e14 rows here) and the
    finite scale of NUMERIC division (at least 16 significant digits) are
    not modelled.  The collation that orders player names is a parameter
    of the development, as is the text-to-date input conversion.  A table
    is the list of its rows; the order of the list is the order in which
    the executor happens to read the table, and no property depends on
    it unless it says so. *)

From Stdlib Require Import ZArith QArith Qround Lia Lqa.
From stdpp Require Import base tactics option list strings gmap sorting pretty.

Local Open Scope Z_scope.

(** ** Results of fallible calls

    A JavaScript call either returns or throws; an awaited promise either
    fulfils or rejects. *)

Inductive Result (A : Type) :=
| Ok (a : A)
| Throw (e : string).
Arguments Ok {A} a.
Arguments Throw {A} e.

#[global] Instance Result_ret : MRet Result := @Ok.
#[global] Instance Result_bind : MBind Result := λ A B f r,
  match r with
  | Ok a => f a
  | Throw e => Throw e
  end.
#[global] Instance Result_fmap : FMap Result := λ A B f r,
  match r with
  | Ok a => Ok (f a)
  | Throw e => Throw e
  end.

(** ** SQL values and three-valued logic *)

Module Sql.

(** A nullable integer column: [None] is NULL. *)
Definition value := option Z.

(** A truth value: [None] is UNKNOWN. *)
Definition truth := option bool.

Definition eq (a b : value) : truth :=
  match a, b with
  | Some x, Some y => Some (bool_decide (x = y))
  | _, _ => None
  end.

Definition le (a b : value) : truth :=
  match a, b with
  | Some x, Some y => Some (bool_decide (x <= y))
  | _, _ => None
  end.

Definition and (a b : truth) : truth :=
  match a, b with
  | Some false, _ | _, Some false => Some false
  | Some true, Some true => Some true
  | _, _ => None
  end.

Definition or (a b : truth) : truth :=
  match a, b with
  | Some true, _ | _, Some true => Some true
  | Some false, Some false => Some false
  | _, _ => None
  end.

Definition is_not_null (a : value) : truth := Some (bool_decide (a ≠ None)).

(** WHERE, ON and CASE WHEN keep a row only when the condition is TRUE. *)
Definition holds (t : truth) : bool :=
  match t with Some true => true | _ => false end.

(** [COUNT(CASE WHEN c THEN 1 END)]: the CASE has no ELSE, so it is NULL
    unless [c] is TRUE, and COUNT skips NULLs. *)
Definition count_case {A} (c : A → truth) (rows : list A) : Z :=
  Z.of_nat (length (filter (λ r, holds (c r) = true) rows)).

(** [a LEFT JOIN b ON c]: every row of [a] with each matching row of [b],
    or once with an all-NULL [b] when nothing matches. *)
Definition left_join {A B} (on : A → B → truth) (a : list A) (b : list B)
  : list (A * option B) :=
  a ≫= λ x,
    match filter (λ y, holds (on x y) = true) b with
    | [] => [(x, None)]
    | ys => (λ y, (x, Some y)) <$> ys
    end.

(** [GROUP BY key]: one group per distinct key. *)
Definition group_by {A K} `{EqDecision K} (key : A → K) (rows : list A)
  : list (K * list A) :=
  (λ k, (k, filter (λ r, key r = k) rows)) <$> remove_dups (key <$> rows).

(** A row is put before the first row that it does not sort after. *)
Fixpoint insert_row {A} (R : relation A) `{!RelDecision R} (x : A) (rows : list A)
  : list A :=
  match rows with
  | [] => [x]
  | y :: rows' => if decide (R x y) then x :: rows else y :: insert_row R x rows'
  end.

(** [ORDER BY]: the rows sorted by the clause's comparison.  PostgreSQL
    leaves the order of rows that compare equal to the executor, which may
    choose differently each time a query runs.  Here such rows keep the
    order of the input, so that the order in which a table is listed
    stands for that choice: every sorted arrangement of the rows is the
    result for some listing of them ([order_by_sorted] below).  A property
    of one execution is therefore stated for every listing of the table,
    and a property that compares two executions lets each read its own
    listing of the same rows. *)
Definition order_by {A} (R : relation A) `{!RelDecision R} (rows : list A)
  : list A :=
  foldr (insert_row R) [] rows.

(** [LIMIT n]: the first [n] rows; PostgreSQL rejects a negative [n]. *)
Definition limit {A} (n : Z) (rows : list A) : Result (list A) :=
  if decide (n < 0) then Throw "LIMIT must not be negative"
  else Ok (take (Z.to_nat n) rows).

(** [ROUND(x, d)] on NUMERIC: [d] decimal places, halves away from zero. *)
Definition round (x : Q) (d : nat) : Q :=
  let s := Z.to_pos (10 ^ Z.of_nat d) in
  if Qle_bool 0 x
  then Qfloor (x * inject_Z (Z.pos s) + (1 # 2)) # s
  else - (Qfloor (- x * inject_Z (Z.pos s) + (1 # 2)) # s).

End Sql.

Declare Scope sql_scope.
Delimit Scope sql_scope with sql.
Infix "=ₛ" := Sql.eq (at level 70, no associativity) : sql_scope.
Infix "<=ₛ" := Sql.le (at level 70, no associativity) : sql_scope.
Infix "AND" := Sql.and (at level 80, right associativity) : sql_scope.
Infix "OR" := Sql.or (at level 85, right associativity) : sql_scope.

(** ** Schema ([createTables]) *)

(** [players (id SERIAL PRIMARY KEY, name VARCHAR UNIQUE NOT NULL,
    created_at TIMESTAMP)]. *)
Record Player := {
  p_id : Z;
  p_name : string;
  p_created_at : Z;
}.

(** [matches]: [player2_id] and [player4_id] are nullable (solo matches),
    [match_type] is nullable too ([VARCHAR(10) DEFAULT 'duo' CHECK (...)]
    without NOT NULL), [winning_team] is [INTEGER NOT NULL] with no CHECK
    constraint. *)
Record Match := {
  m_id : Z;
  season_id : Z;
  play_date : Z;
  match_type : option string;
  player1_id : Z;
  player2_id : option Z;
  player3_id : Z;
  player4_id : option Z;
  team1_score : Z;
  team2_score : Z;
  winning_team : Z;
  created_at : Z;
}.

Record Database := {
  players : list Player;
  matches : list Match;
}.

(** A column of the [m] side of a LEFT JOIN row: NULL on the padded row. *)
Definition col (f : Match → Sql.value) (m : option Match) : Sql.value := m ≫= f.

Definition not_null (f : Match → Z) : Match → Sql.value := λ m, Some (f m).

(** ** Result rows *)

(** A row of the [player_stats] common table expression. *)
Record PlayerStatsRow := {
  ps_id : Z;
  ps_name : string;
  ps_wins : Z;
  ps_losses : Z;
  ps_total_matches : Z;
}.

(** A row of the statistics queries: [SELECT *, points, win_percentage,
    money_lost FROM player_stats]. *)
Record PlayerStat := {
  id : Z;
  name : string;
  wins : Z;
  losses : Z;
  total_matches : Z;
  points : Z;
  win_percentage : Q;
  money_lost : Z;
}.

Inductive FormResult := win | loss.

(** A row of the form queries. *)
Record FormEntry := {
  result : FormResult;
  fe_play_date : Z;
}.

(** A ranking entry: [{ ...player, form }]. *)
Record RankingEntry := {
  re_id : Z;
  re_name : string;
  re_wins : Z;
  re_losses : Z;
  re_total_matches : Z;
  re_points : Z;
  re_win_percentage : Q;
  re_money_lost : Z;
  form : list FormEntry;
}.

#[global] Instance FormResult_eq_dec : EqDecision FormResult.
Proof. solve_decision. Defined.

(** ** The conditions shared by the queries *)

Section Conditions.
Local Open Scope sql_scope.

(** [(m.winning_team = 1 AND (m.player1_id = p OR m.player2_id = p)) OR
     (m.winning_team = 2 AND (m.player3_id = p OR m.player4_id = p))] *)
Definition win_case (p : Z) (m : option Match) : Sql.truth :=
  (col (not_null winning_team) m =ₛ Some 1
     AND (col (not_null player1_id) m =ₛ Some p OR col player2_id m =ₛ Some p))
  OR
  (col (not_null winning_team) m =ₛ Some 2
     AND (col (not_null player3_id) m =ₛ Some p OR col player4_id m =ₛ Some p)).

(** [(m.winning_team = 2 AND (m.player1_id = p OR m.player2_id = p)) OR
     (m.winning_team = 1 AND (m.player3_id = p OR m.player4_id = p))] *)
Definition loss_case (p : Z) (m : option Match) : Sql.truth :=
  (col (not_null winning_team) m =ₛ Some 2
     AND (col (not_null player1_id) m =ₛ Some p OR col player2_id m =ₛ Some p))
  OR
  (col (not_null winning_team) m =ₛ Some 1
     AND (col (not_null player3_id) m =ₛ Some p OR col player4_id m =ₛ Some p)).

(** [m.player1_id = p OR m.player2_id = p OR m.player3_id = p OR
     m.player4_id = p] *)
Definition plays_in (p : Z) (m : option Match) : Sql.truth :=
  col (not_null player1_id) m =ₛ Some p
  OR col player2_id m =ₛ Some p
  OR col (not_null player3_id) m =ₛ Some p
  OR col player4_id m =ₛ Some p.

(** The four variants of each query differ in one conjunct only. *)
Inductive Scope :=
| Lifetime
| Season (seasonId : Z)
| UpToDate (playDate : Z)
| SpecificDate (playDate : Z).

(** The ON clause of the statistics queries and the WHERE clause of the
    form queries:
    - lifetime: [plays_in];
    - season: [plays_in AND m.season_id = $s];
    - up to a date: [plays_in AND DATE(m.play_date) <= $d];
    - on a date: [plays_in AND DATE(m.play_date) = $d]. *)
Definition involves (sc : Scope) (p : Z) (m : option Match) : Sql.truth :=
  match sc with
  | Lifetime => plays_in p m
  | Season seasonId =>
      plays_in p m AND col (not_null season_id) m =ₛ Some seasonId
  | UpToDate playDate =>
      plays_in p m AND col (not_null play_date) m <=ₛ Some playDate
  | SpecificDate playDate =>
      plays_in p m AND col (not_null play_date) m =ₛ Some playDate
  end.
End Conditions.

(** A parameter that is compared with an INTEGER column is read as an
    INTEGER: outside the range of the type the server rejects the query
    (SQLSTATE 22003). *)
Definition int4 (n : Z) : Prop := -2147483648 <= n <= 2147483647.

#[global] Instance int4_dec n : Decision (int4 n).
Proof. unfold int4. apply _. Defined.

(** ** Statistics queries *)

(** The aggregates of one group of the join:
    [COUNT(CASE WHEN <win_case> THEN 1 END) as wins,
     COUNT(CASE WHEN <loss_case> THEN 1 END) as losses,
     COUNT(CASE WHEN m.id IS NOT NULL THEN 1 END) as total_matches]. *)
Definition aggregate (g : (Z * string) * list (Player * option Match))
  : PlayerStatsRow :=
  {| ps_id := g.1.1;
     ps_name := g.1.2;
     ps_wins := Sql.count_case (λ r, win_case (p_id r.1) r.2) g.2;
     ps_losses := Sql.count_case (λ r, loss_case (p_id r.1) r.2) g.2;
     ps_total_matches :=
       Sql.count_case (λ r, Sql.is_not_null (col (not_null m_id) r.2)) g.2 |}.

(** [FROM players p LEFT JOIN matches m ON <involves>]. *)
Definition joined (sc : Scope) (db : Database) : list (Player * option Match) :=
  Sql.left_join (λ p m, involves sc (p_id p) (Some m)) (players db) (matches db).

(** The [player_stats] common table expression: the join grouped
    [BY p.id, p.name] and aggregated. *)
Definition player_stats (sc : Scope) (db : Database) : list PlayerStatsRow :=
  aggregate <$> Sql.group_by (λ r, (p_id r.1, p_name r.1)) (joined sc db).

(** [SELECT *, (wins * 4 + losses * 1) as points,
      CASE WHEN (wins + losses) > 0
           THEN ROUND((wins * 100.0) / (wins + losses), 1) ELSE 0 END
        as win_percentage,
      losses * 20000 as money_lost]. *)
Definition select_stats (r : PlayerStatsRow) : PlayerStat :=
  {| id := ps_id r;
     name := ps_name r;
     wins := ps_wins r;
     losses := ps_losses r;
     total_matches := ps_total_matches r;
     points := ps_wins r * 4 + ps_losses r * 1;
     win_percentage :=
       if decide (ps_wins r + ps_losses r > 0)
       then Sql.round (inject_Z (ps_wins r) * 100 / inject_Z (ps_wins r + ps_losses r)) 1
       else 0%Q;
     money_lost := ps_losses r * 20000 |}.

Section Queries.
(** The collation of the database decides [ORDER BY name]. *)
Context (name_le : relation string) `{!RelDecision name_le}.

(** [ORDER BY points DESC, win_percentage DESC, name ASC]: does row [a]
    sort no later than row [b]? *)
Definition rank_leb (a b : PlayerStat) : bool :=
  if decide (points b < points a) then true
  else if decide (points a = points b) then
    match (win_percentage a ?= win_percentage b)%Q with
    | Gt => true
    | Lt => false
    | Eq => bool_decide (name_le (name a) (name b))
    end
  else false.

Definition rank_le : relation PlayerStat := λ a b, rank_leb a b = true.

#[global] Instance rank_le_dec : RelDecision rank_le.
Proof. intros a b. unfold rank_le. apply _. Defined.

(** The rows of a statistics query that the server accepts. *)
Definition getPlayerStats (sc : Scope) (db : Database) : list PlayerStat :=
  Sql.order_by rank_le (select_stats <$> player_stats sc db).

Definition getPlayerStatsLifetime (db : Database) : list PlayerStat :=
  getPlayerStats Lifetime db.

(** [seasonId] is the parameter of [m.season_id = $1]. *)
Definition getPlayerStatsBySeason (db : Database) (seasonId : Z)
  : Result (list PlayerStat) :=
  if decide (int4 seasonId) then Ok (getPlayerStats (Season seasonId) db)
  else Throw "value out of range for type integer".

Definition getPlayerStatsByPlayDate (db : Database) (playDate : Z) : list PlayerStat :=
  getPlayerStats (UpToDate playDate) db.

Definition getPlayerStatsBySpecificDate (db : Database) (playDate : Z) : list PlayerStat :=
  getPlayerStats (SpecificDate playDate) db.
End Queries.

(** ** Form queries

    The form queries are written as the server runs them once it has
    accepted their parameters; that it rejects a season id outside INTEGER
    is written where the router calls them ([postgres] below). *)

(** [SELECT CASE WHEN <win_case> THEN 'win' ELSE 'loss' END as result,
            TO_CHAR(m.play_date, 'YYYY-MM-DD') as play_date]
    (the play date is kept as a date; TO_CHAR only renders it). *)
Definition form_row (playerId : Z) (m : Match) : FormEntry :=
  {| result := if Sql.holds (win_case playerId (Some m)) then win else loss;
     fe_play_date := play_date m |}.

(** [ORDER BY m.play_date DESC, m.created_at DESC]. *)
Definition form_order : relation Match := λ a b,
  play_date b < play_date a ∨
  (play_date a = play_date b ∧ created_at b <= created_at a).

(** [ORDER BY m.created_at DESC]. *)
Definition created_order : relation Match := λ a b,
  created_at b <= created_at a.

#[global] Instance form_order_dec : RelDecision form_order.
Proof. intros a b. unfold form_order. apply _. Defined.

#[global] Instance created_order_dec : RelDecision created_order.
Proof. intros a b. unfold created_order. apply _. Defined.

(** [FROM matches m WHERE <involves>]: the matches of a player in a scope,
    in table order. *)
Definition matches_of (sc : Scope) (db : Database) (playerId : Z) : list Match :=
  filter (λ m, Sql.holds (involves sc playerId (Some m)) = true) (matches db).

(** The matches a form query selects, in the order of its ORDER BY, before
    LIMIT and projection. *)
Definition form_matches (sc : Scope) (R : relation Match) `{!RelDecision R}
    (db : Database) (playerId : Z) : list Match :=
  Sql.order_by R (matches_of sc db playerId).

Definition form_query (sc : Scope) (R : relation Match) `{!RelDecision R}
    (db : Database) (playerId : Z) (limit : Z) : Result (list FormEntry) :=
  fmap (M := Result) (fmap (form_row playerId))
    (Sql.limit limit (form_matches sc R db playerId)).

(** [limit = 5]: the default of the last parameter. *)
Definition or_default (limit : option Z) : Z := default 5 limit.

Definition getPlayerForm (db : Database) (playerId : Z) (limit : option Z)
  : Result (list FormEntry) :=
  form_query Lifetime form_order db playerId (or_default limit).

Definition getPlayerFormBySeason (db : Database) (playerId seasonId : Z)
    (limit : option Z) : Result (list FormEntry) :=
  form_query (Season seasonId) form_order db playerId (or_default limit).

Definition getPlayerFormByDate (db : Database) (playerId date : Z)
    (limit : option Z) : Result (list FormEntry) :=
  form_query (UpToDate date) form_order db playerId (or_default limit).

Definition getPlayerFormOnSpecificDate (db : Database) (playerId date : Z)
    (limit : option Z) : Result (list FormEntry) :=
  form_query (SpecificDate date) created_order db playerId (or_default limit).

Definition getPlayerFormBySpecificDate (db : Database) (playerId date : Z)
    (limit : option Z) : Result (list FormEntry) :=
  form_query (SpecificDate date) form_order db playerId (or_default limit).

(** ** The ranking router ([createRankingRouter]) *)

(** The injected [db]: the methods the router calls.  Each returns a
    promise, modelled by the [Result] it settles to.  The route parameter
    [date] is passed on as the string it is.  When the router waits for
    several promises at once, the order in which they settle lies with
    [db]: of the form queries of a request that reject,
    [db_rejects_first] is the position of the one that rejects first in
    time, counted among them in the order of the calls and taken modulo
    their number. *)
Record DbApi := {
  db_getPlayerStatsLifetime : Result (list PlayerStat);
  db_getPlayerStatsBySeason : Z → Result (list PlayerStat);
  db_getPlayerStatsBySpecificDate : string → Result (list PlayerStat);
  db_getPlayerForm : Z → Z → Result (list FormEntry);
  db_getPlayerFormBySeason : Z → Z → Z → Result (list FormEntry);
  db_getPlayerFormBySpecificDate : Z → string → Z → Result (list FormEntry);
  db_rejects_first : nat;
}.

(** The injected [rankingsCache], over its own state [C]: [get] returns the
    cached array or nothing, [set] takes a key, a value and a time to live
    in milliseconds.  Either may change the cache and either may throw. *)
Record CacheApi (C : Type) := {
  cache_get : string → C → Result (option (list RankingEntry)) * C;
  cache_set : string → list RankingEntry → Z → C → Result () * C;
}.
Arguments cache_get {C} _ _ _.
Arguments cache_set {C} _ _ _ _ _.

(** A handler runs against the cache and either returns or throws. *)
Definition Handler (C A : Type) : Type := C → Result A * C.

#[global] Instance Handler_ret {C} : MRet (Handler C) := λ A a c, (Ok a, c).
#[global] Instance Handler_bind {C} : MBind (Handler C) := λ A B f m c,
  match m c with
  | (Ok a, c') => f a c'
  | (Throw e, c') => (Throw e, c')
  end.

(** [await] of a promise of the data layer. *)
Definition await {C A} (r : Result A) : Handler C A := λ c, (r, c).

Inductive Body :=
| Rankings (rankings : list RankingEntry)
| ValidationFailed (details : list string).

Record Response := {
  status : Z;
  headers : list (string * string);
  body : Body;
}.

(** [{ ...player, form }] *)
Definition attach (player : PlayerStat) (form : list FormEntry) : RankingEntry :=
  {| re_id := id player;
     re_name := name player;
     re_wins := wins player;
     re_losses := losses player;
     re_total_matches := total_matches player;
     re_points := points player;
     re_win_percentage := win_percentage player;
     re_money_lost := money_lost player;
     form := form |}.

(** The statistics fields of a ranking entry. *)
Definition stat_of (e : RankingEntry) : PlayerStat :=
  {| id := re_id e;
     name := re_name e;
     wins := re_wins e;
     losses := re_losses e;
     total_matches := re_total_matches e;
     points := re_points e;
     win_percentage := re_win_percentage e;
     money_lost := re_money_lost e |}.

(** The reasons of the promises that reject, in the order of the array. *)
Definition rejections {A} (promises : list (Result A)) : list string :=
  omap (λ r, match r with Throw e => Some e | Ok _ => None end) promises.

(** [Promise.all(promises)]: the values in the order of the array when
    every promise fulfils; otherwise a rejection with the reason of the
    promise that rejects first in time, which is the one at position
    [first] among those that reject, modulo their number. *)
Definition promise_all {A} (first : nat) (promises : list (Result A))
  : Result (list A) :=
  match rejections promises with
  | [] => mapM (λ r, r) promises
  | e :: es => Throw (default e ((e :: es) !! (first `mod` S (length es))%nat))
  end.

(** [Promise.all(rankings.map(async (player) => { const form = await ...;
    return { ...player, form } }))]: every form query is started, in the
    order of [rankings]; the entries come in that order, or the call
    rejects with the reason of the form query that rejects first. *)
Definition with_form (first : nat) (getForm : Z → Result (list FormEntry))
    (rankings : list PlayerStat) : Result (list RankingEntry) :=
  promise_all first
    ((λ player, form ← getForm (id player); mret (attach player form))
       <$> rankings).

(** [res.set('X-Cache', cacheHit ? 'HIT' : 'MISS');
     res.set('X-Cache-Key', cacheKey); res.json(rankings)] *)
Definition send (cacheHit : bool) (cacheKey : string)
    (rankings : list RankingEntry) : Response :=
  {| status := 200;
     headers := [("X-Cache", if cacheHit then "HIT" else "MISS");
                 ("X-Cache-Key", cacheKey)];
     body := Rankings rankings |}.

Section Router.
Context {C : Type} (db : DbApi) (rankingsCache : CacheApi C).

(** [GET /lifetime] *)
Definition get_lifetime : Handler C Response :=
  let cacheKey := "rankings:lifetime" in
  rankings ← cache_get rankingsCache cacheKey;
  '(rankings, cacheHit) ←
    match rankings with
    | Some rankings => mret (rankings, true)
    | None =>
        rankings ← await (db_getPlayerStatsLifetime db);
        rankings ← await (with_form (db_rejects_first db)
                            (λ player_id, db_getPlayerForm db player_id 5) rankings);
        _ ← cache_set rankingsCache cacheKey rankings (10 * 60 * 1000);
        mret (rankings, false)
    end;
  mret (send cacheHit cacheKey rankings).

(** [GET /season/:seasonId], after [parseInt(req.params.seasonId)]. *)
Definition get_season (seasonId : Z) : Handler C Response :=
  let cacheKey := "rankings:season:" +:+ pretty seasonId in
  rankings ← cache_get rankingsCache cacheKey;
  '(rankings, cacheHit) ←
    match rankings with
    | Some rankings => mret (rankings, true)
    | None =>
        rankings ← await (db_getPlayerStatsBySeason db seasonId);
        rankings ← await (with_form (db_rejects_first db)
                            (λ player_id, db_getPlayerFormBySeason db player_id seasonId 5)
                            rankings);
        _ ← cache_set rankingsCache cacheKey rankings (3 * 60 * 1000);
        mret (rankings, false)
    end;
  mret (send cacheHit cacheKey rankings).

(** [GET /date/:date] *)
Definition get_date (date : string) : Handler C Response :=
  let cacheKey := "rankings:date:" +:+ date in
  rankings ← cache_get rankingsCache cacheKey;
  '(rankings, cacheHit) ←
    match rankings with
    | Some rankings => mret (rankings, true)
    | None =>
        rankings ← await (db_getPlayerStatsBySpecificDate db date);
        rankings ← await (with_form (db_rejects_first db)
                            (λ player_id, db_getPlayerFormBySpecificDate db player_id date 5)
                            rankings);
        _ ← cache_set rankingsCache cacheKey rankings (15 * 60 * 1000);
        mret (rankings, false)
    end;
  mret (send cacheHit cacheKey rankings).

End Router.

(** ** The PostgreSQL data layer behind the router *)

(** [PickleballDatabasePostgreSQL] as the router's [db], over one snapshot
    of the tables.  [date_in] is the server's conversion of a text
    parameter to a DATE; the query fails when it does, as it fails on a
    season id outside INTEGER.  Connection failures are not modelled, so
    the form queries of one request fulfil or reject together, with the
    same reason, and which of them rejects first makes no difference
    ([postgres_rejections_agree] below). *)
Definition postgres (name_le : relation string) `{!RelDecision name_le}
    (date_in : string → option Z) (data : Database) : DbApi :=
  {| db_getPlayerStatsLifetime := Ok (getPlayerStatsLifetime name_le data);
     db_getPlayerStatsBySeason seasonId :=
       getPlayerStatsBySeason name_le data seasonId;
     db_getPlayerStatsBySpecificDate playDate :=
       match date_in playDate with
       | Some d => Ok (getPlayerStatsBySpecificDate name_le data d)
       | None => Throw "invalid input syntax for type date"
       end;
     db_getPlayerForm playerId limit := getPlayerForm data playerId (Some limit);
     db_getPlayerFormBySeason playerId seasonId limit :=
       if decide (int4 seasonId)
       then getPlayerFormBySeason data playerId seasonId (Some limit)
       else Throw "value out of range for type integer";
     db_getPlayerFormBySpecificDate playerId date limit :=
       match date_in date with
       | Some d => getPlayerFormBySpecificDate data playerId d (Some limit)
       | None => Throw "invalid input syntax for type date"
       end;
     db_rejects_first := 0 |}.

(** ** Two caches to run the router against *)

(** Modelled from the spec: the implementation of [rankingsCache] is not
    among the sources.  A map from key to value and expiry time; [get]
    answers only while the entry has not expired, [set] stores the value
    with expiry [now + ttl] and overwrites. *)
Record TtlCache := {
  now : Z;
  entries : gmap string (list RankingEntry * Z);
}.

(** Modelled from the spec: [get] of the missing cache; an expired entry
    reads as absent and is left in place. *)
Definition ttl_get (key : string) (c : TtlCache)
  : Result (option (list RankingEntry)) * TtlCache :=
  match entries c !! key with
  | Some (v, expiry) => (Ok (if decide (now c <= expiry) then Some v else None), c)
  | None => (Ok None, c)
  end.

(** Modelled from the spec: [set] of the missing cache; it never fails. *)
Definition ttl_set (key : string) (v : list RankingEntry) (ttl : Z) (c : TtlCache)
  : Result () * TtlCache :=
  (Ok (), {| now := now c; entries := <[key := (v, now c + ttl)]> (entries c) |}).

Definition ttl_cache : CacheApi TtlCache :=
  {| cache_get := ttl_get; cache_set := ttl_set |}.

(** A cache that holds nothing and whose [set] throws. *)
Definition broken_cache : CacheApi () :=
  {| cache_get := λ _ c, (Ok None, c);
     cache_set := λ _ _ _ c, (Throw "cache storage failed", c) |}.

(** ** Sample data

    The examples order names byte-wise ([String.le], the "C" collation). *)

(** Dates of the sample data: day [n] of January 2024 is [n]. *)
Definition sample_date_in (s : string) : option Z :=
  if decide (s = "2024-01-15") then Some 15
  else if decide (s = "2024-01-16") then Some 16
  else None.

Definition mk_player (i : Z) (n : string) : Player :=
  {| p_id := i; p_name := n; p_created_at := 0 |}.

Definition mk_match (i s d p1 : Z) (p2 : option Z) (p3 : Z) (p4 : option Z)
    (s1 s2 w t : Z) : Match :=
  {| m_id := i; season_id := s; play_date := d;
     match_type := Some (if p2 is None then "solo" else "duo");
     player1_id := p1; player2_id := p2; player3_id := p3; player4_id := p4;
     team1_score := s1; team2_score := s2; winning_team := w; created_at := t |}.

(** A solo match of season 1 on day 15: player 1 beats player 3. *)
Definition solo_match : Match := mk_match 1 1 15 1 None 3 None 11 5 1 100.

(** A match that lists player 1 on both teams; team 1 wins. *)
Definition both_teams_match : Match :=
  mk_match 1 1 15 1 None 1 (Some 2) 11 5 1 100.

(** Three players; A beats C; B plays nothing. *)
Definition sample_db : Database :=
  {| players := [mk_player 1 "A"; mk_player 2 "B"; mk_player 3 "C"];
     matches := [solo_match] |}.

Definition both_teams_db : Database :=
  {| players := [mk_player 1 "A"; mk_player 2 "B"];
     matches := [both_teams_match] |}.

(** The rows of A and C over [sample_db]. *)
Definition stat_A : PlayerStat :=
  {| id := 1; name := "A"; wins := 1; losses := 0; total_matches := 1;
     points := 4; win_percentage := 1000 # 10; money_lost := 0 |}.

Definition stat_C : PlayerStat :=
  {| id := 3; name := "C"; wins := 0; losses := 1; total_matches := 1;
     points := 1; win_percentage := 0 # 10; money_lost := 20000 |}.

Definition sample_pg : DbApi := postgres String.le sample_date_in sample_db.

Definition empty_cache : TtlCache := {| now := 1000; entries := ∅ |}.

(** ** Request validation ([handleValidationErrors]) *)

(** [const errors = validationResult(req); if (!errors.isEmpty()) return
    res.status(400).json({ error: 'Validation failed', details }); next()] *)
Definition handleValidationErrors {C} (errors : list string)
    (next : Handler C Response) : Handler C Response :=
  if decide (errors ≠ [])
  then mret {| status := 400; headers := []; body := ValidationFailed errors |}
  else next.

(** [param(field).<check>().withMessage(msg)]: the message is recorded when
    the check of the validator library rejects the parameter. *)
Definition validate (check : string → bool) (msg : string) (value : string)
  : list string :=
  if check value then [] else [msg].

(** The [/date/:date] route: [checkAuth], the validation chain, the
    handler.  [checkAuth] is injected; it either answers the request itself
    or calls [next()].  [isISO8601] is the check of the validator library,
    which is not part of the sources. *)
Definition route_date {C} (checkAuth : option Response)
    (isISO8601 : string → bool) (db : DbApi) (rankingsCache : CacheApi C)
    (date : string) : Handler C Response :=
  match checkAuth with
  | Some denied => mret denied
  | None =>
      handleValidationErrors
        (validate isISO8601 "Invalid date format. Use YYYY-MM-DD" date)
        (get_date db rankingsCache date)
  end.

(** ** Vocabulary of the properties *)

(** The player holds a slot of team 1 (slots 1 and 2). *)
Definition on_team1 (p : Z) (m : Match) : Prop :=
  player1_id m = p ∨ player2_id m = Some p.

(** The player holds a slot of team 2 (slots 3 and 4). *)
Definition on_team2 (p : Z) (m : Match) : Prop :=
  player3_id m = p ∨ player4_id m = Some p.

Definition appears (p : Z) (m : Match) : Prop := on_team1 p m ∨ on_team2 p m.

(** The match belongs to the scope. *)
Definition within (sc : Scope) (m : Match) : Prop :=
  match sc with
  | Lifetime => True
  | Season seasonId => season_id m = seasonId
  | UpToDate playDate => play_date m <= playDate
  | SpecificDate playDate => play_date m = playDate
  end.

(** The player has no match in the scope. *)
Definition no_matches (sc : Scope) (db : Database) (p : Z) : Prop :=
  ∀ m, m ∈ matches db → appears p m → ¬ within sc m.

(** The winning team is 1 or 2. *)
Definition decided (m : Match) : Prop := winning_team m = 1 ∨ winning_team m = 2.

(** Nobody is listed on both teams of the match. *)
Definition teams_disjoint (m : Match) : Prop :=
  ∀ p, ¬ (on_team1 p m ∧ on_team2 p m).

(** Rounding to [d] decimal places, halves up: [floor(x * 10^d + 1/2) / 10^d]. *)
Definition round_half_up (x : Q) (d : nat) : Q :=
  Qfloor (x * inject_Z (10 ^ Z.of_nat d) + (1 # 2)) # Z.to_pos (10 ^ Z.of_nat d).

(** Points descending, then win percentage descending, then name ascending. *)
Definition ranking_order (name_le : relation string) : relation PlayerStat :=
  λ a b,
    points b < points a ∨
    (points a = points b ∧
     ((win_percentage b < win_percentage a)%Q ∨
      ((win_percentage a == win_percentage b)%Q ∧ name_le (name a) (name b)))).

(** The five form queries of the data layer. *)
Inductive FormQuery :=
| Form
| FormBySeason (seasonId : Z)
| FormByDate (date : Z)
| FormOnSpecificDate (date : Z)
| FormBySpecificDate (date : Z).

Definition run_form (q : FormQuery) (db : Database) (playerId : Z)
    (limit : option Z) : Result (list FormEntry) :=
  match q with
  | Form => getPlayerForm db playerId limit
  | FormBySeason seasonId => getPlayerFormBySeason db playerId seasonId limit
  | FormByDate date => getPlayerFormByDate db playerId date limit
  | FormOnSpecificDate date => getPlayerFormOnSpecificDate db playerId date limit
  | FormBySpecificDate date => getPlayerFormBySpecificDate db playerId date limit
  end.

Definition form_scope (q : FormQuery) : Scope :=
  match q with
  | Form => Lifetime
  | FormBySeason seasonId => Season seasonId
  | FormByDate date => UpToDate date
  | FormOnSpecificDate date | FormBySpecificDate date => SpecificDate date
  end.

(** Minutes in milliseconds. *)
Definition minutes (n : Z) : Z := n * 60 * 1000.

(** The three routes of the router, with their parameter. *)
Inductive Route :=
| RLifetime
| RSeason (seasonId : Z)
| RDate (date : string).

Definition handle {C} (db : DbApi) (rankingsCache : CacheApi C) (r : Route)
  : Handler C Response :=
  match r with
  | RLifetime => get_lifetime db rankingsCache
  | RSeason seasonId => get_season db rankingsCache seasonId
  | RDate date => get_date db rankingsCache date
  end.

Definition route_key (r : Route) : string :=
  match r with
  | RLifetime => "rankings:lifetime"
  | RSeason seasonId => "rankings:season:" +:+ pretty seasonId
  | RDate date => "rankings:date:" +:+ date
  end.

Definition route_ttl (r : Route) : Z :=
  match r with
  | RLifetime => minutes 10
  | RSeason _ => minutes 3
  | RDate _ => minutes 15
  end.

(** The statistics query and the form query of a route. *)
Definition route_stats (db : DbApi) (r : Route) : Result (list PlayerStat) :=
  match r with
  | RLifetime => db_getPlayerStatsLifetime db
  | RSeason seasonId => db_getPlayerStatsBySeason db seasonId
  | RDate date => db_getPlayerStatsBySpecificDate db date
  end.

Definition route_form (db : DbApi) (r : Route) (playerId : Z)
  : Result (list FormEntry) :=
  match r with
  | RLifetime => db_getPlayerForm db playerId 5
  | RSeason seasonId => db_getPlayerFormBySeason db playerId seasonId 5
  | RDate date => db_getPlayerFormBySpecificDate db playerId date 5
  end.

(** What a route computes on a cache miss: the statistics of its scope,
    each row with the form of its player over the same scope. *)
Definition route_fresh (db : DbApi) (r : Route) : Result (list RankingEntry) :=
  match r with
  | RLifetime =>
      db_getPlayerStatsLifetime db
        ≫= with_form (db_rejects_first db) (λ p, db_getPlayerForm db p 5)
  | RSeason seasonId =>
      db_getPlayerStatsBySeason db seasonId
        ≫= with_form (db_rejects_first db)
             (λ p, db_getPlayerFormBySeason db p seasonId 5)
  | RDate date =>
      db_getPlayerStatsBySpecificDate db date
        ≫= with_form (db_rejects_first db)
             (λ p, db_getPlayerFormBySpecificDate db p date 5)
  end.

(** The scope is one whose query the server accepts: a season id has to
    fit the INTEGER column it is compared with. *)
Definition accepted (sc : Scope) : Prop :=
  match sc with
  | Season seasonId => -2147483648 <= seasonId <= 2147483647
  | _ => True
  end.

#[global] Instance accepted_dec sc : Decision (accepted sc).
Proof. destruct sc; simpl; apply _. Defined.

(** The parameters of a form query are ones the server accepts: the
    scope is, the player id fits INTEGER and the limit fits BIGINT. *)
Definition form_accepted (q : FormQuery) (playerId limit : Z) : Prop :=
  accepted (form_scope q) ∧
  -2147483648 <= playerId <= 2147483647 ∧
  limit <= 9223372036854775807.

(** The statistics query of a scope. *)
Definition run_stats (name_le : relation string) `{!RelDecision name_le}
    (sc : Scope) (db : Database) : Result (list PlayerStat) :=
  match sc with
  | Lifetime => Ok (getPlayerStatsLifetime name_le db)
  | Season seasonId => getPlayerStatsBySeason name_le db seasonId
  | UpToDate playDate => Ok (getPlayerStatsByPlayDate name_le db playDate)
  | SpecificDate playDate => Ok (getPlayerStatsBySpecificDate name_le db playDate)
  end.

(** The scope a route asks the PostgreSQL data layer for, when the season
    id fits INTEGER and the date parameter converts. *)
Definition route_scope (date_in : string → option Z) (r : Route) : option Scope :=
  match r with
  | RLifetime => Some Lifetime
  | RSeason seasonId =>
      if decide (int4 seasonId) then Some (Season seasonId) else None
  | RDate date => SpecificDate <$> date_in date
  end.

(** How a request ends once [set] has been called on a miss. *)
Definition after_set {C} (key : string) (rankings : list RankingEntry)
    (r : Result () * C) : Result Response * C :=
  match r with
  | (Ok _, c) => (Ok (send false key rankings), c)
  | (Throw e, c) => (Throw e, c)
  end.

(** ** Vocabulary of the further properties *)

(** The rows one player contributes to the join of a statistics query. *)
Definition player_rows (sc : Scope) (db : Database) (p : Player)
  : list (Player * option Match) :=
  match matches_of sc db (p_id p) with
  | [] => [(p, None)]
  | ms => (λ m, (p, Some m)) <$> ms
  end.

(** Every match of the first scope belongs to the second. *)
Definition narrower (sc sc' : Scope) : Prop := ∀ m, within sc m → within sc' m.

(** A match of season 1 on day 16 recorded with winning team 0. *)
Definition undecided_sample : Match := mk_match 2 1 16 1 None 3 None 5 5 0 200.

(** The sample cache after one lifetime request. *)
Definition warm_cache : TtlCache :=
  (handle sample_pg ttl_cache RLifetime empty_cache).2.

(** The sample roster with two matches, and the same table read in the
    other order. *)
Definition listed_db : Database :=
  {| players := players sample_db; matches := [solo_match; undecided_sample] |}.

Definition relisted_db : Database :=
  {| players := players sample_db; matches := [undecided_sample; solo_match] |}.

(** A data layer whose form queries all reject, each with a reason of its
    own, the second of them first. *)
Definition racing_db : DbApi :=
  {| db_getPlayerStatsLifetime := Ok [stat_A; stat_C];
     db_getPlayerStatsBySeason _ := Ok [];
     db_getPlayerStatsBySpecificDate _ := Ok [];
     db_getPlayerForm playerId _ := Throw ("no form for " +:+ pretty playerId);
     db_getPlayerFormBySeason _ _ _ := Ok [];
     db_getPlayerFormBySpecificDate _ _ _ := Ok [];
     db_rejects_first := 1 |}.

(** ** The other tables of the schema ([createTables]) *)

(** [seasons]: only [id], [name] and [start_date] are NOT NULL. *)
Record SeasonRow := {
  s_id : Z;
  s_name : string;
  start_date : Z;
  end_date : option Z;
  is_active : option bool;
  auto_end : option bool;
  description : option string;
  s_created_at : option Z;
  ended_at : option Z;
  ended_by : option string;
}.

(** [season_players (season_id REFERENCES seasons ON DELETE CASCADE,
    player_id REFERENCES players ON DELETE CASCADE, joined_at,
    UNIQUE(season_id, player_id))].  The surrogate key [id], which nothing
    reads, is left out: keys drawn from a sequence are taken to be fresh. *)
Record SeasonPlayer := {
  sp_season_id : Z;
  sp_player_id : Z;
  joined_at : option Z;
}.

(** The tables the operations below read and write.  An operation returns
    its result together with the store it leaves, and a statement or
    transaction that fails leaves the store as it was.  Integer arguments
    are taken to fit the INTEGER columns they meet and the connection to
    be up, so that a statement fails on a constraint only. *)
Record Store := {
  st_data : Database;
  st_seasons : list SeasonRow;
  st_season_players : list SeasonPlayer;
}.

#[global] Instance Season_eq_dec : EqDecision SeasonRow.
Proof. solve_decision. Defined.

#[global] Instance SeasonPlayer_eq_dec : EqDecision SeasonPlayer.
Proof. solve_decision. Defined.

(** [DELETE FROM t WHERE c]: the rows for which [c] is TRUE go. *)
Definition sql_delete {A} (c : A → Sql.truth) (rows : list A) : list A :=
  filter (λ r, Sql.holds (c r) ≠ true) rows.

(** [UPDATE t SET ... WHERE c]: the rows for which [c] is TRUE change. *)
Definition sql_update {A} (c : A → Sql.truth) (set : A → A) (rows : list A)
  : list A :=
  (λ r, if Sql.holds (c r) then set r else r) <$> rows.

(** [b = true] on a nullable BOOLEAN. *)
Definition sql_is_true (b : option bool) : Sql.truth := b.

(** [a < b] on nullable integers and dates. *)
Definition sql_lt (a b : Sql.value) : Sql.truth :=
  match a, b with
  | Some x, Some y => Some (bool_decide (x < y))
  | _, _ => None
  end.

#[global] Instance appears_dec p m : Decision (appears p m).
Proof. unfold appears, on_team1, on_team2. apply _. Defined.

(** ** Players and matches: the deleting operations *)

(** [removePlayer]: in one transaction,
    [DELETE FROM matches WHERE player1_id = $1 OR player2_id = $1 OR
       player3_id = $1 OR player4_id = $1] and then
    [DELETE FROM players WHERE id = $1].  Deleting the player fails, and
    the transaction is rolled back, while a match still refers to the
    player in one of its four slots ([appears]); the rows of
    [season_players] go with the player. *)
Definition removePlayer (playerId : Z) (st : Store) : Result () * Store :=
  let matches' :=
    sql_delete (λ m, plays_in playerId (Some m)) (matches (st_data st)) in
  if decide (playerId ∈ p_id <$> players (st_data st) ∧
             Exists (appears playerId) matches')
  then (Throw "violates foreign key constraint", st)
  else
    (Ok (),
     {| st_data :=
          {| players :=
               sql_delete (λ p, Sql.eq (Some (p_id p)) (Some playerId))
                 (players (st_data st));
             matches := matches' |};
        st_seasons := st_seasons st;
        st_season_players :=
          filter (λ sp, sp_player_id sp ≠ playerId) (st_season_players st) |}).

(** [deleteMatch]: [DELETE FROM matches WHERE id = $1]. *)
Definition deleteMatch (matchId : Z) (st : Store) : Store :=
  {| st_data :=
       {| players := players (st_data st);
          matches :=
            sql_delete (λ m, Sql.eq (Some (m_id m)) (Some matchId))
              (matches (st_data st)) |};
     st_seasons := st_seasons st;
     st_season_players := st_season_players st |}.

(** [deleteSeason]: in one transaction,
    [DELETE FROM matches WHERE season_id = $1] and then
    [DELETE FROM seasons WHERE id = $1], which fails while a match still
    refers to the season; the rows of [season_players] go with it. *)
Definition deleteSeason (seasonId : Z) (st : Store) : Result () * Store :=
  let matches' :=
    sql_delete (λ m, Sql.eq (Some (season_id m)) (Some seasonId))
      (matches (st_data st)) in
  if decide (seasonId ∈ s_id <$> st_seasons st ∧
             Exists (λ m, season_id m = seasonId) matches')
  then (Throw "violates foreign key constraint", st)
  else
    (Ok (),
     {| st_data := {| players := players (st_data st); matches := matches' |};
        st_seasons :=
          sql_delete (λ s, Sql.eq (Some (s_id s)) (Some seasonId)) (st_seasons st);
        st_season_players :=
          filter (λ sp, sp_season_id sp ≠ seasonId) (st_season_players st) |}).

(** ** Seasons *)

(** A row of the season queries: the columns of [seasons] with
    [TO_CHAR(start_date, 'YYYY-MM-DD') as start_date] and
    [CASE WHEN end_date IS NOT NULL THEN TO_CHAR(end_date, 'YYYY-MM-DD')
     ELSE NULL END as end_date]. *)
Record SeasonInfo := {
  si_id : Z;
  si_name : string;
  si_start_date : string;
  si_end_date : option string;
  si_is_active : option bool;
  si_auto_end : option bool;
  si_description : option string;
  si_created_at : option Z;
  si_ended_at : option Z;
  si_ended_by : option string;
}.

Section SeasonQueries.
(** [to_char] is [TO_CHAR(_, 'YYYY-MM-DD')] on dates and [text_le] the
    order of the database's collation on text. *)
Context (text_le : relation string) `{!RelDecision text_le}.
Context (to_char : Z → string).

Definition season_info (s : SeasonRow) : SeasonInfo :=
  {| si_id := s_id s; si_name := s_name s;
     si_start_date := to_char (start_date s);
     si_end_date := to_char <$> end_date s;
     si_is_active := is_active s; si_auto_end := auto_end s;
     si_description := description s; si_created_at := s_created_at s;
     si_ended_at := ended_at s; si_ended_by := ended_by s |}.

(** [ORDER BY start_date DESC]: the name is that of the output column, so
    the rows are ordered by the text of the start date. *)
Definition latest_first : relation SeasonInfo := λ a b,
  text_le (si_start_date b) (si_start_date a).

#[global] Instance latest_first_dec : RelDecision latest_first.
Proof. intros a b. unfold latest_first. apply _. Defined.

(** [getActiveSeasons]: [SELECT ... FROM seasons WHERE is_active = true
    ORDER BY start_date DESC]. *)
Definition getActiveSeasons (st : Store) : list SeasonInfo :=
  Sql.order_by latest_first
    (season_info <$>
       filter (λ s, Sql.holds (sql_is_true (is_active s)) = true) (st_seasons st)).

(** [getActiveSeason]: the same query with [LIMIT 1], then
    [result.rows[0] || null]. *)
Definition getActiveSeason (st : Store) : option SeasonInfo :=
  head (take 1 (getActiveSeasons st)).

(** [getSeasonById]: the same columns [WHERE id = $1], then
    [result.rows[0] || null]. *)
Definition getSeasonById (seasonId : Z) (st : Store) : option SeasonInfo :=
  head (season_info <$>
          filter (λ s, Sql.holds (Sql.eq (Some (s_id s)) (Some seasonId)) = true)
            (st_seasons st)).
End SeasonQueries.

(** [reactivateSeason]: [UPDATE seasons SET is_active = true,
    ended_at = NULL, ended_by = NULL WHERE id = $1]. *)
Definition reactivateSeason (seasonId : Z) (st : Store) : Store :=
  {| st_data := st_data st;
     st_seasons :=
       sql_update (λ s, Sql.eq (Some (s_id s)) (Some seasonId))
         (λ s, {| s_id := s_id s; s_name := s_name s;
                  start_date := start_date s; end_date := end_date s;
                  is_active := Some true; auto_end := auto_end s;
                  description := description s;
                  s_created_at := s_created_at s;
                  ended_at := None; ended_by := None |})
         (st_seasons st);
     st_season_players := st_season_players st |}.

(** The WHERE clause of [checkAndEndExpiredSeasons]:
    [is_active = true AND auto_end = true AND end_date IS NOT NULL
     AND end_date < CURRENT_DATE]. *)
Definition expired (today : Z) (s : SeasonRow) : Sql.truth :=
  Sql.and (sql_is_true (is_active s))
    (Sql.and (sql_is_true (auto_end s))
       (Sql.and (Sql.is_not_null (end_date s))
          (sql_lt (end_date s) (Some today)))).

(** [SET is_active = false, ended_at = CURRENT_TIMESTAMP,
    ended_by = 'system']. *)
Definition end_by_system (now : Z) (s : SeasonRow) : SeasonRow :=
  {| s_id := s_id s; s_name := s_name s;
     start_date := start_date s; end_date := end_date s;
     is_active := Some false; auto_end := auto_end s;
     description := description s; s_created_at := s_created_at s;
     ended_at := Some now; ended_by := Some "system" |}.

(** [checkAndEndExpiredSeasons]: the UPDATE above with
    [RETURNING id, name]; [now] and [today] are CURRENT_TIMESTAMP and
    CURRENT_DATE of the call. *)
Definition checkAndEndExpiredSeasons (now today : Z) (st : Store)
  : list (Z * string) * Store :=
  ((λ s, (s_id s, s_name s))
     <$> filter (λ s, Sql.holds (expired today s) = true) (st_seasons st),
   {| st_data := st_data st;
      st_seasons := sql_update (expired today) (end_by_system now) (st_seasons st);
      st_season_players := st_season_players st |}).

(** ** Players of a season *)

(** A row of [getSeasonPlayers]: [p.id, p.name, sp.joined_at]. *)
Record SeasonPlayerRow := {
  spr_id : Z;
  spr_name : string;
  spr_joined_at : option Z;
}.

(** Do the foreign keys of a [season_players] row hold? *)
Definition sp_references_ok (st : Store) (seasonId playerId : Z) : Prop :=
  seasonId ∈ s_id <$> st_seasons st ∧
  playerId ∈ p_id <$> players (st_data st).

(** Is the pair already in [season_players]? *)
Definition sp_member (rows : list SeasonPlayer) (seasonId playerId : Z) : Prop :=
  Exists (λ sp, sp_season_id sp = seasonId ∧ sp_player_id sp = playerId) rows.

(** [addPlayerToSeason]: [INSERT INTO season_players (season_id, player_id)
    VALUES ($1, $2) ON CONFLICT (season_id, player_id) DO NOTHING] inside
    [try { ...; return true } catch { return false }]. *)
Definition addPlayerToSeason (now : Z) (seasonId playerId : Z) (st : Store)
  : bool * Store :=
  if decide (sp_member (st_season_players st) seasonId playerId) then (true, st)
  else if decide (sp_references_ok st seasonId playerId) then
    (true,
     {| st_data := st_data st;
        st_seasons := st_seasons st;
        st_season_players :=
          st_season_players st ++
          [{| sp_season_id := seasonId; sp_player_id := playerId;
              joined_at := Some now |}] |})
  else (false, st).

(** [removePlayerFromSeason]: [DELETE FROM season_players WHERE
    season_id = $1 AND player_id = $2]. *)
Definition removePlayerFromSeason (seasonId playerId : Z) (st : Store) : Store :=
  {| st_data := st_data st;
     st_seasons := st_seasons st;
     st_season_players :=
       sql_delete
         (λ sp, Sql.and (Sql.eq (Some (sp_season_id sp)) (Some seasonId))
                        (Sql.eq (Some (sp_player_id sp)) (Some playerId)))
         (st_season_players st) |}.

(** The loop of [setSeasonPlayers]: one plain INSERT per id, failing on the
    UNIQUE constraint or on a foreign key. *)
Fixpoint insert_season_players (now : Z) (seasonId : Z) (playerIds : list Z)
    (st : Store) : Result Store :=
  match playerIds with
  | [] => Ok st
  | playerId :: rest =>
      if decide (sp_member (st_season_players st) seasonId playerId)
      then Throw "duplicate key value violates unique constraint"
      else if decide (sp_references_ok st seasonId playerId) then
        insert_season_players now seasonId rest
          {| st_data := st_data st;
             st_seasons := st_seasons st;
             st_season_players :=
               st_season_players st ++
               [{| sp_season_id := seasonId; sp_player_id := playerId;
                   joined_at := Some now |}] |}
      else Throw "violates foreign key constraint"
  end.

(** [setSeasonPlayers]: BEGIN; [DELETE FROM season_players WHERE
    season_id = $1]; the loop; COMMIT; on any error ROLLBACK and rethrow. *)
Definition setSeasonPlayers (now : Z) (seasonId : Z) (playerIds : list Z)
    (st : Store) : Result () * Store :=
  let cleared :=
    {| st_data := st_data st;
       st_seasons := st_seasons st;
       st_season_players :=
         sql_delete (λ sp, Sql.eq (Some (sp_season_id sp)) (Some seasonId))
           (st_season_players st) |} in
  match insert_season_players now seasonId playerIds cleared with
  | Ok st' => (Ok (), st')
  | Throw e => (Throw e, st)
  end.

Section SeasonPlayers.
Context (name_le : relation string) `{!RelDecision name_le}.

(** [ORDER BY p.name]. *)
Definition by_name : relation SeasonPlayerRow := λ a b,
  name_le (spr_name a) (spr_name b).

#[global] Instance by_name_dec : RelDecision by_name.
Proof. intros a b. unfold by_name. apply _. Defined.

(** [getSeasonPlayers]: [SELECT p.id, p.name, sp.joined_at
    FROM season_players sp JOIN players p ON sp.player_id = p.id
    WHERE sp.season_id = $1 ORDER BY p.name]. *)
Definition getSeasonPlayers (seasonId : Z) (st : Store) : list SeasonPlayerRow :=
  Sql.order_by by_name
    (filter (λ sp, Sql.holds (Sql.eq (Some (sp_season_id sp)) (Some seasonId)) = true)
       (st_season_players st)
     ≫= λ sp,
       (λ p, {| spr_id := p_id p; spr_name := p_name p;
                spr_joined_at := joined_at sp |})
       <$> filter (λ p, Sql.holds (Sql.eq (Some (sp_player_id sp)) (Some (p_id p))) = true)
             (players (st_data st))).
End SeasonPlayers.

(** ** Vocabulary of the properties of the store *)

(** Every player a match lists is on the roster (the foreign keys of
    [matches] to [players]). *)
Definition matches_reference_players (db : Database) : Prop :=
  ∀ m p, m ∈ matches db → appears p m → p ∈ p_id <$> players db.

(** The season is active, ends automatically and its end date has passed. *)
Definition is_expired (today : Z) (s : SeasonRow) : Prop :=
  is_active s = Some true ∧ auto_end s = Some true ∧
  match end_date s with Some d => d < today | None => False end.

#[global] Instance is_expired_dec today s : Decision (is_expired today s).
Proof. unfold is_expired. destruct (end_date s); apply _. Defined.

(** The rows of [season_players] of one season. *)
Definition members_of (seasonId : Z) (st : Store) : list SeasonPlayer :=
  filter (λ sp, sp_season_id sp = seasonId) (st_season_players st).

(** The conditions under which every INSERT of [setSeasonPlayers] passes. *)
Definition season_players_acceptable (seasonId : Z) (playerIds : list Z)
    (st : Store) : Prop :=
  NoDup playerIds ∧
  ∀ p, p ∈ playerIds →
    seasonId ∈ s_id <$> st_seasons st ∧ p ∈ p_id <$> players (st_data st).

(** ** Sample store *)

(** Dates of the sample data as text: day [n] of January 2024 is [n]. *)
Definition sample_to_char (d : Z) : string :=
  if decide (d < 10) then "2024-01-0" +:+ pretty d else "2024-01-" +:+ pretty d.


Definition mk_season (i : Z) (n : string) (start : Z) (e : option Z)
    (active auto : bool) : SeasonRow :=
  {| s_id := i; s_name := n; start_date := start; end_date := e;
     is_active := Some active; auto_end := Some auto; description := None;
     s_created_at := Some 0; ended_at := None; ended_by := None |}.

(** SeasonRow 1 ran until day 10 and is still marked active; season 2 is
    open-ended. *)
Definition sample_store : Store :=
  {| st_data := sample_db;
     st_seasons := [mk_season 1 "Spring" 1 (Some 10) true true;
                    mk_season 2 "Summer" 11 None true true];
     st_season_players := [{| sp_season_id := 1; sp_player_id := 1;
                              joined_at := Some 0 |}] |}.

(** ** Recording a match *)

(** [x || null] on a player id: an absent id and the id 0 are both falsy. *)
Definition or_null (x : option Z) : option Z :=
  match x with
  | Some 0 | None => None
  | Some n => Some n
  end.

(** A nullable column [REFERENCES players(id)]: a NULL refers to nothing. *)
Definition player_exists (st : Store) (q : option Z) : Prop :=
  match q with
  | Some p => p ∈ p_id <$> players (st_data st)
  | None => True
  end.

#[global] Instance player_exists_dec st q : Decision (player_exists st q).
Proof. destruct q; simpl; apply _. Defined.

(** [match_type IN ('solo', 'duo')]: UNKNOWN on NULL. *)
Definition match_type_in (t : option string) : Sql.truth :=
  (λ s, bool_decide (s = "solo" ∨ s = "duo")) <$> t.

(** The CHECK constraint and the foreign keys of a [matches] row:
    [CHECK (match_type IN ('solo', 'duo'))], which like every CHECK
    rejects a row only when its condition is FALSE,
    [season_id REFERENCES seasons(id)] and the four player columns
    [REFERENCES players(id)]. *)
Definition match_constraints_ok (st : Store) (m : Match) : Prop :=
  match_type_in (match_type m) ≠ Some false ∧
  season_id m ∈ s_id <$> st_seasons st ∧
  player_exists st (Some (player1_id m)) ∧
  player_exists st (player2_id m) ∧
  player_exists st (Some (player3_id m)) ∧
  player_exists st (player4_id m).

#[global] Instance match_constraints_ok_dec st m :
  Decision (match_constraints_ok st m).
Proof. unfold match_constraints_ok. apply _. Defined.

(** The last parameter of [addMatch] and [updateMatch], [matchType = 'duo']:
    the default applies to an omitted argument ([None]) only; [null]
    ([Some None]) is passed on and stored as NULL. *)
Definition or_duo (matchType : option (option string)) : option string :=
  default (Some "duo") matchType.

(** [addMatch]: [INSERT INTO matches (season_id, play_date, match_type,
    player1_id, player2_id, player3_id, player4_id, team1_score,
    team2_score, winning_team) VALUES (...) RETURNING id] with
    [player2Id || null], [player4Id || null] and [matchType = 'duo'] by
    default.  [newId] is the value the sequence of [matches.id] hands out
    and [now] is CURRENT_TIMESTAMP; the insert fails on the primary key,
    on the CHECK constraint and on the foreign keys. *)
Definition addMatch (newId now : Z) (seasonId playDate player1Id : Z)
    (player2Id : option Z) (player3Id : Z) (player4Id : option Z)
    (team1Score team2Score winningTeam : Z)
    (matchType : option (option string))
    (st : Store) : Result Z * Store :=
  let m :=
    {| m_id := newId; season_id := seasonId; play_date := playDate;
       match_type := or_duo matchType;
       player1_id := player1Id; player2_id := or_null player2Id;
       player3_id := player3Id; player4_id := or_null player4Id;
       team1_score := team1Score; team2_score := team2Score;
       winning_team := winningTeam; created_at := now |} in
  if decide (newId ∈ m_id <$> matches (st_data st))
  then (Throw "duplicate key value violates unique constraint", st)
  else if decide (match_constraints_ok st m) then
    (Ok newId,
     {| st_data :=
          {| players := players (st_data st);
             matches := matches (st_data st) ++ [m] |};
        st_seasons := st_seasons st;
        st_season_players := st_season_players st |})
  else (Throw "violates check or foreign key constraint", st).

(** The row of a player in a ranking, from the player's matches in the
    scope. *)
Definition row_for (sc : Scope) (db : Database) (p : Player) : PlayerStat :=
  select_stats
    {| ps_id := p_id p;
       ps_name := p_name p;
       ps_wins :=
         Z.of_nat (length (filter (λ m, Sql.holds (win_case (p_id p) (Some m)) = true)
                             (matches_of sc db (p_id p))));
       ps_losses :=
         Z.of_nat (length (filter (λ m, Sql.holds (loss_case (p_id p) (Some m)) = true)
                             (matches_of sc db (p_id p))));
       ps_total_matches := Z.of_nat (length (matches_of sc db (p_id p))) |}.

(** One more when the condition holds. *)
Definition bump (P : Prop) `{!Decision P} (n : Z) : Z :=
  if decide P then n + 1 else n.

#[global] Instance within_dec sc m : Decision (within sc m).
Proof. destruct sc; simpl; apply _. Defined.

(** The database with one more match at the end of [matches]. *)
Definition with_match (db : Database) (m : Match) : Database :=
  {| players := players db; matches := matches db ++ [m] |}.

(** [updateMatch]: [UPDATE matches SET season_id = $1, play_date = $2,
    match_type = $3, player1_id = $4, player2_id = $5, player3_id = $6,
    player4_id = $7, team1_score = $8, team2_score = $9, winning_team = $10
    WHERE id = $11] with [player2Id || null], [player4Id || null] and
    [matchType = 'duo'] by default.  The id and [created_at] of a row stay;
    the update fails when a row it changes violates the CHECK constraint or
    a foreign key, and changes nothing when no row has the id. *)
Definition updateMatch (matchId seasonId playDate player1Id : Z)
    (player2Id : option Z) (player3Id : Z) (player4Id : option Z)
    (team1Score team2Score winningTeam : Z)
    (matchType : option (option string))
    (st : Store) : Result () * Store :=
  let set m :=
    {| m_id := m_id m; season_id := seasonId; play_date := playDate;
       match_type := or_duo matchType;
       player1_id := player1Id; player2_id := or_null player2Id;
       player3_id := player3Id; player4_id := or_null player4Id;
       team1_score := team1Score; team2_score := team2Score;
       winning_team := winningTeam; created_at := created_at m |} in
  if decide (Exists (λ m, m_id m = matchId ∧ ¬ match_constraints_ok st (set m))
               (matches (st_data st)))
  then (Throw "violates check or foreign key constraint", st)
  else
    (Ok (),
     {| st_data :=
          {| players := players (st_data st);
             matches :=
               sql_update (λ m, Sql.eq (Some (m_id m)) (Some matchId)) set
                 (matches (st_data st)) |};
        st_seasons := st_seasons st;
        st_season_players := st_season_players st |}).

(** * User accounts (src/routes/users.js over the users table) *)

(** A row of [users]. *)
Record User := {
  u_id : Z;
  username : string;
  password_hash : string;
  email : option string;
  role : string;
  u_is_active : option bool;
  u_created_at : option Z;
  created_by : option string;
  last_login : option Z;
}.

#[global] Instance User_eq_dec : EqDecision User.
Proof. solve_decision. Defined.

(** A row of [getUsers]: the columns of [users] without [password_hash]. *)
Record UserInfo := {
  ui_id : Z;
  ui_username : string;
  ui_email : option string;
  ui_role : string;
  ui_is_active : option bool;
  ui_created_at : option Z;
  ui_created_by : option string;
  ui_last_login : option Z;
}.

Definition user_info (u : User) : UserInfo :=
  {| ui_id := u_id u; ui_username := username u; ui_email := email u;
     ui_role := role u; ui_is_active := u_is_active u;
     ui_created_at := u_created_at u; ui_created_by := created_by u;
     ui_last_login := last_login u |}.

(** [ORDER BY created_at DESC]: NULLs come first in descending order. *)
Definition newest_first : relation User := λ a b,
  match u_created_at a, u_created_at b with
  | None, _ => True
  | Some _, None => False
  | Some x, Some y => y <= x
  end.

#[global] Instance newest_first_dec : RelDecision newest_first.
Proof.
  intros a b. unfold newest_first.
  destruct (u_created_at a), (u_created_at b); apply _.
Defined.

(** [getUsers]: [SELECT id, username, email, role, is_active, created_at,
    created_by, last_login FROM users ORDER BY created_at DESC]. *)
Definition getUsers (users : list User) : list UserInfo :=
  user_info <$> Sql.order_by newest_first users.

(** [deleteUser]: [DELETE FROM users WHERE id = $1]. *)
Definition deleteUser (userId : Z) (users : list User) : list User :=
  sql_delete (λ u, Sql.eq (Some (u_id u)) (Some userId)) users.

(** What a handler of the user router sends: [res.status(s).json({ error })]
    or [res.json({ success: true, message })]. *)
Inductive UserBody :=
| UserError (error : string)
| UserSuccess (message : string).

Record UserResponse := {
  ur_status : Z;
  ur_body : UserBody;
}.

(** The handler of [DELETE /:id], after the injected middleware.
    [requester] is [req.user.username] and [userId] is
    [parseInt(req.params.id)]; [users.find(u => u.id === userId)] takes
    the first row with the id. *)
Definition delete_user_by_id (requester : string) (userId : Z)
    (users : list User) : UserResponse * list User :=
  match find (λ u, bool_decide (ui_id u = userId)) (getUsers users) with
  | None =>
      ({| ur_status := 404; ur_body := UserError "User not found" |}, users)
  | Some userToDelete =>
      if decide (ui_username userToDelete = requester)
      then ({| ur_status := 400;
               ur_body := UserError "Cannot delete your own account" |}, users)
      else ({| ur_status := 200;
               ur_body := UserSuccess "User deleted successfully" |},
            deleteUser userId users)
  end.

(** Sample accounts. *)
Definition mk_user (i : Z) (n r : string) (t : Z) : User :=
  {| u_id := i; username := n; password_hash := "$2a$10$"; email := None;
     role := r; u_is_active := Some true; u_created_at := Some t;
     created_by := None; last_login := None |}.

Definition sample_users : list User :=
  [mk_user 1 "root" "admin" 0; mk_user 2 "ed" "editor" 5].

(** B's row in the lifetime ranking once B has beaten C in a second match. *)
Definition stat_B_after : PlayerStat :=
  {| id := 2; name := "B"; wins := 1; losses := 0; total_matches := 1;
     points := 4; win_percentage := 1000 # 10; money_lost := 0 |}.

(** * Properties *)

(** ** Three-valued logic *)

Lemma holds_or a b :
  Sql.holds (Sql.or a b) = true ↔ Sql.holds a = true ∨ Sql.holds b = true.
Proof. destruct a as [[]|], b as [[]|]; simpl; intuition discriminate. Qed.

Lemma holds_and a b :
  Sql.holds (Sql.and a b) = true ↔ Sql.holds a = true ∧ Sql.holds b = true.
Proof. destruct a as [[]|], b as [[]|]; simpl; intuition discriminate. Qed.

Lemma holds_eq a y : Sql.holds (Sql.eq a (Some y)) = true ↔ a = Some y.
Proof.
  destruct a as [x|]; simpl; [|intuition discriminate].
  case_bool_decide; intuition congruence.
Qed.

Lemma holds_le x y : Sql.holds (Sql.le (Some x) (Some y)) = true ↔ x <= y.
Proof. simpl. case_bool_decide; intuition discriminate. Qed.

(** ** What the conditions of the queries mean *)

Lemma win_case_spec p m :
  Sql.holds (win_case p (Some m)) = true ↔
  (winning_team m = 1 ∧ on_team1 p m) ∨ (winning_team m = 2 ∧ on_team2 p m).
Proof.
  unfold win_case, on_team1, on_team2.
  rewrite holds_or, !holds_and, !holds_or, !holds_eq.
  unfold col, not_null; simpl. intuition congruence.
Qed.

Lemma loss_case_spec p m :
  Sql.holds (loss_case p (Some m)) = true ↔
  (winning_team m = 2 ∧ on_team1 p m) ∨ (winning_team m = 1 ∧ on_team2 p m).
Proof.
  unfold loss_case, on_team1, on_team2.
  rewrite holds_or, !holds_and, !holds_or, !holds_eq.
  unfold col, not_null; simpl. intuition congruence.
Qed.

Lemma plays_in_spec p m : Sql.holds (plays_in p (Some m)) = true ↔ appears p m.
Proof.
  unfold plays_in, appears, on_team1, on_team2.
  rewrite !holds_or, !holds_eq.
  unfold col, not_null; simpl. intuition congruence.
Qed.

Lemma involves_spec sc p m :
  Sql.holds (involves sc p (Some m)) = true ↔ appears p m ∧ within sc m.
Proof.
  destruct sc; unfold involves, within;
    rewrite ?holds_and, plays_in_spec, ?holds_eq; unfold col, not_null;
    cbn [mbind option_bind]; rewrite ?holds_le; intuition congruence.
Qed.

(** On the padded row of the LEFT JOIN every condition fails to hold. *)
Lemma padded_row p :
  Sql.holds (win_case p None) = false ∧ Sql.holds (loss_case p None) = false ∧
  Sql.holds (Sql.is_not_null (col (not_null m_id) None)) = false.
Proof. done. Qed.

(** ** The relational operators *)

Lemma elem_of_left_join {A B} (on : A → B → Sql.truth) a b x y :
  (x, y) ∈ Sql.left_join on a b ↔
  x ∈ a ∧
  match y with
  | Some y' => y' ∈ b ∧ Sql.holds (on x y') = true
  | None => ∀ y', y' ∈ b → Sql.holds (on x y') ≠ true
  end.
Proof.
  unfold Sql.left_join. rewrite list_elem_of_bind. split.
  - intros (x' & Hin & Hx').
    destruct (filter _ b) as [|y0 ys] eqn:Hf.
    + apply list_elem_of_singleton in Hin as [= <- ->]. split; [done|].
      intros y' Hy' Hon.
      assert (y' ∈ filter (λ y, Sql.holds (on x y) = true) b) as Hy
        by (apply list_elem_of_filter; done).
      rewrite Hf in Hy. by apply not_elem_of_nil in Hy.
    + apply list_elem_of_fmap in Hin as (y' & [= <- ->] & Hy').
      split; [done|]. rewrite <- Hf in Hy'.
      apply list_elem_of_filter in Hy'. tauto.
  - intros [Hx Hy]. exists x. split; [|done].
    destruct y as [y'|].
    + destruct Hy as [Hy' Hon].
      assert (y' ∈ filter (λ y, Sql.holds (on x y) = true) b) as Hin
        by (apply list_elem_of_filter; done).
      destruct (filter _ b) as [|y0 ys]; [by apply not_elem_of_nil in Hin|].
      apply list_elem_of_fmap. by exists y'.
    + destruct (filter _ b) as [|y0 ys] eqn:Hf; [apply list_elem_of_here|].
      assert (y0 ∈ filter (λ y, Sql.holds (on x y) = true) b) as Hin
        by (rewrite Hf; apply list_elem_of_here).
      apply list_elem_of_filter in Hin as [Hon Hin]. by destruct (Hy y0).
Qed.

Lemma left_join_covers {A B} (on : A → B → Sql.truth) a b x :
  x ∈ a → ∃ y, (x, y) ∈ Sql.left_join on a b.
Proof.
  intros Hx.
  destruct (filter (λ y, Sql.holds (on x y) = true) b) as [|y0 ys] eqn:Hf.
  - exists None. apply elem_of_left_join. split; [done|].
    intros y' Hy' Hon.
    assert (y' ∈ filter (λ y, Sql.holds (on x y) = true) b) as Hy
      by (apply list_elem_of_filter; done).
    rewrite Hf in Hy. by apply not_elem_of_nil in Hy.
  - exists (Some y0). apply elem_of_left_join. split; [done|].
    assert (y0 ∈ filter (λ y, Sql.holds (on x y) = true) b) as Hin
      by (rewrite Hf; apply list_elem_of_here).
    apply list_elem_of_filter in Hin. tauto.
Qed.

Lemma elem_of_group_by {A K} `{EqDecision K} (key : A → K) rows g :
  g ∈ Sql.group_by key rows ↔
  (∃ r, r ∈ rows ∧ key r = g.1) ∧ g.2 = filter (λ r, key r = g.1) rows.
Proof.
  unfold Sql.group_by. rewrite list_elem_of_fmap. split.
  - intros (k & -> & Hk). simpl. split; [|done].
    apply elem_of_remove_dups, list_elem_of_fmap in Hk as (r & -> & Hr).
    by exists r.
  - intros [(r & Hr & Hk) Hg]. exists g.1. split.
    + destruct g; simpl in *; congruence.
    + apply elem_of_remove_dups, list_elem_of_fmap. by exists r.
Qed.

Lemma insert_row_Permutation {A} (R : relation A) `{!RelDecision R} x rows :
  Sql.insert_row R x rows ≡ₚ x :: rows.
Proof.
  induction rows as [|y rows IH]; simpl; [done|].
  case_decide; [done|]. by rewrite IH, Permutation_swap.
Qed.

Lemma order_by_Permutation {A} (R : relation A) `{!RelDecision R} rows :
  Sql.order_by R rows ≡ₚ rows.
Proof.
  unfold Sql.order_by. induction rows as [|x rows IH]; simpl; [done|].
  by rewrite insert_row_Permutation, IH.
Qed.

Lemma insert_row_sorted {A} (R : relation A)
    `{!RelDecision R, !Total R, !Transitive R} x rows :
  StronglySorted R rows → StronglySorted R (Sql.insert_row R x rows).
Proof.
  induction 1 as [|y rows Hrows IH Hy]; simpl; [repeat constructor|].
  case_decide as Hxy.
  - constructor; [by constructor|]. constructor; [done|].
    eapply Forall_impl; [done|]. intros z Hz. by trans y.
  - constructor; [done|]. rewrite insert_row_Permutation.
    constructor; [|done]. by destruct (total R x y).
Qed.

Lemma StronglySorted_order_by {A} (R : relation A)
    `{!RelDecision R, !Total R, !Transitive R} rows :
  StronglySorted R (Sql.order_by R rows).
Proof.
  unfold Sql.order_by. induction rows as [|x rows IH]; simpl; [constructor|].
  by apply insert_row_sorted.
Qed.

(** Rows that are listed in a sorted order come out as they are listed:
    whatever order the executor gives to rows that compare equal, it is the
    result for the listing of the rows in that order. *)
Lemma order_by_sorted {A} (R : relation A) `{!RelDecision R} rows :
  StronglySorted R rows → Sql.order_by R rows = rows.
Proof.
  unfold Sql.order_by. induction 1 as [|x rows Hrows IH Hx]; simpl; [done|].
  rewrite IH. destruct rows as [|y rows]; simpl; [done|].
  apply Forall_cons in Hx as [Hxy _]. by rewrite decide_True.
Qed.

Lemma elem_of_order_by {A} (R : relation A) `{!RelDecision R} rows x :
  x ∈ Sql.order_by R rows ↔ x ∈ rows.
Proof. by rewrite order_by_Permutation. Qed.

Lemma count_case_nonneg {A} (c : A → Sql.truth) rows : 0 <= Sql.count_case c rows.
Proof. unfold Sql.count_case. lia. Qed.

Lemma count_case_none {A} (c : A → Sql.truth) rows :
  (∀ r, r ∈ rows → Sql.holds (c r) = false) → Sql.count_case c rows = 0.
Proof.
  intros Hc. unfold Sql.count_case.
  induction rows as [|r rows IH]; [done|].
  rewrite filter_cons. destruct (decide _) as [Hr|Hr].
  - rewrite Hc in Hr by apply list_elem_of_here. done.
  - apply IH. intros r' Hr'. apply Hc. by apply list_elem_of_further.
Qed.

(** Counting two exclusive cases that together cover a third. *)
Lemma count_case_split {A} (c1 c2 c3 : A → Sql.truth) rows :
  (∀ r, r ∈ rows →
     Sql.holds (c3 r) = xorb (Sql.holds (c1 r)) (Sql.holds (c2 r)) ∧
     andb (Sql.holds (c1 r)) (Sql.holds (c2 r)) = false) →
  Sql.count_case c1 rows + Sql.count_case c2 rows = Sql.count_case c3 rows.
Proof.
  unfold Sql.count_case. induction rows as [|r rows IH]; intros Hc; [done|].
  destruct (Hc r) as [H3 H12]; [apply list_elem_of_here|].
  assert (Z.of_nat (length (filter (λ r, Sql.holds (c1 r) = true) rows)) +
          Z.of_nat (length (filter (λ r, Sql.holds (c2 r) = true) rows)) =
          Z.of_nat (length (filter (λ r, Sql.holds (c3 r) = true) rows))) as IH'.
  { apply IH. intros r' Hr'. apply Hc. by apply list_elem_of_further. }
  rewrite !filter_cons.
  destruct (Sql.holds (c1 r)), (Sql.holds (c2 r)), (Sql.holds (c3 r));
    simpl in *; try discriminate; repeat case_decide; simpl; try congruence; lia.
Qed.

(** ** Rounding *)

Lemma round_half_up_proper x y d : (x == y)%Q → round_half_up x d = round_half_up y d.
Proof. intros Hxy. unfold round_half_up. by rewrite Hxy. Qed.

Lemma sql_round_nonneg x d : (0 <= x)%Q → Sql.round x d = round_half_up x d.
Proof.
  intros Hx. unfold Sql.round, round_half_up.
  apply Qle_bool_iff in Hx. rewrite Hx.
  rewrite Z2Pos.id by (apply Z.pow_pos_nonneg; lia). done.
Qed.

Lemma round_half_up_tenths x :
  round_half_up x 1 = Qfloor (x * 10 + (1 # 2)) # 10.
Proof. done. Qed.

Lemma round_half_up_nearest x :
  (x - (1 # 20) < round_half_up x 1 <= x + (1 # 20))%Q.
Proof.
  rewrite round_half_up_tenths.
  pose proof (Qfloor_le (x * 10 + (1 # 2))) as Hlo.
  pose proof (Qlt_floor (x * 10 + (1 # 2))) as Hhi.
  set (t := Qfloor (x * 10 + (1 # 2))) in *.
  assert (t # 10 == inject_Z t / 10)%Q as -> by (unfold Qeq; simpl; lia).
  rewrite inject_Z_plus in Hhi. change (inject_Z 1) with 1%Q in Hhi.
  split.
  - apply Qlt_shift_div_l; [done|]. lra.
  - apply Qle_shift_div_r; [done|]. lra.
Qed.

Lemma round_half_up_percent x :
  (0 <= x <= 100)%Q → (0 <= round_half_up x 1 <= 100)%Q.
Proof.
  intros [Hlo Hhi]. rewrite round_half_up_tenths.
  assert (0 <= Qfloor (x * 10 + (1 # 2)) <= 1000) as Ht.
  { split.
    - apply (Qfloor_resp_le 0%Q). lra.
    - apply (Qfloor_resp_le _ (100 * 10 + (1 # 2))%Q). lra. }
  unfold Qle; cbn [Qnum Qden]. lia.
Qed.

Lemma percentage_range w l :
  0 <= w → 0 <= l → w + l > 0 →
  (0 <= inject_Z w * 100 / inject_Z (w + l) <= 100)%Q.
Proof.
  intros Hw Hl Hn.
  assert (0 < inject_Z (w + l))%Q as Hpos
    by (unfold Qlt; cbn [Qnum Qden inject_Z]; lia).
  assert (0 <= inject_Z w)%Q as Hw'
    by (unfold Qle; cbn [Qnum Qden inject_Z]; lia).
  assert (inject_Z w <= inject_Z (w + l))%Q as Hle
    by (unfold Qle; cbn [Qnum Qden inject_Z]; lia).
  split.
  - apply Qle_shift_div_l; [done|]. lra.
  - apply Qle_shift_div_r; [done|]. lra.
Qed.

Lemma percentage_reorder w n :
  n ≠ 0 → (inject_Z w * 100 / inject_Z n == inject_Z w / inject_Z n * 100)%Q.
Proof.
  intros Hn. field. intros H0. apply Hn.
  apply (inject_Z_injective n 0). exact H0.
Qed.

(** ** Rows of the statistics queries *)

Section Stats.
Context (name_le : relation string) `{!RelDecision name_le}.

(** Every row of a statistics query is the SELECT over the aggregates of
    one group of the join. *)
Lemma stats_row_inv sc db s :
  s ∈ getPlayerStats name_le sc db →
  ∃ g, s = select_stats (aggregate g) ∧
       g ∈ Sql.group_by (λ r, (p_id r.1, p_name r.1)) (joined sc db).
Proof.
  unfold getPlayerStats. rewrite elem_of_order_by.
  intros (r & -> & Hr)%list_elem_of_fmap.
  unfold player_stats in Hr. apply list_elem_of_fmap in Hr as (g & -> & Hg).
  by exists g.
Qed.

Lemma stats_row_intro sc db g :
  g ∈ Sql.group_by (λ r, (p_id r.1, p_name r.1)) (joined sc db) →
  select_stats (aggregate g) ∈ getPlayerStats name_le sc db.
Proof.
  intros Hg. unfold getPlayerStats. rewrite elem_of_order_by.
  apply list_elem_of_fmap_2. unfold player_stats. by apply list_elem_of_fmap_2.
Qed.

Lemma stats_counts_nonneg sc db s :
  s ∈ getPlayerStats name_le sc db →
  0 <= wins s ∧ 0 <= losses s ∧ 0 <= total_matches s.
Proof.
  intros (g & -> & _)%stats_row_inv. simpl.
  auto using count_case_nonneg.
Qed.

(** C3. In the output of every statistics query, each player's points are
    wins times 4 plus losses times 1, and the money lost is losses times
    20000. *)
Theorem points_and_money_lost sc db s :
  s ∈ getPlayerStats name_le sc db →
  points s = wins s * 4 + losses s * 1 ∧ money_lost s = losses s * 20000.
Proof. by intros (g & -> & _)%stats_row_inv. Qed.

(** C4. In the output of every statistics query the win percentage is 0
    when wins + losses is 0, and otherwise wins / (wins + losses) * 100
    rounded half-up to one decimal place; it is a whole number of tenths
    and lies between 0 and 100. *)
Theorem win_percentage_rounded sc db s :
  s ∈ getPlayerStats name_le sc db →
  (wins s + losses s = 0 → win_percentage s = 0%Q) ∧
  (wins s + losses s ≠ 0 →
     win_percentage s =
       round_half_up (inject_Z (wins s) / inject_Z (wins s + losses s) * 100) 1) ∧
  (∃ tenths : Z, win_percentage s == tenths # 10)%Q ∧
  (0 <= win_percentage s <= 100)%Q.
Proof.
  intros (g & -> & _)%stats_row_inv.
  assert (0 <= ps_wins (aggregate g)) as Hw by apply count_case_nonneg.
  assert (0 <= ps_losses (aggregate g)) as Hl by apply count_case_nonneg.
  unfold select_stats; cbn [wins losses win_percentage].
  set (w := ps_wins (aggregate g)) in *. set (l := ps_losses (aggregate g)) in *.
  destruct (decide (w + l > 0)) as [Hn|Hn].
  - pose proof (percentage_range w l Hw Hl Hn) as Hr.
    rewrite sql_round_nonneg by apply Hr.
    split; [lia|]. split; [|split].
    + intros _. apply round_half_up_proper, percentage_reorder. lia.
    + rewrite round_half_up_tenths. by eexists.
    + by apply round_half_up_percent.
  - split; [done|]. split; [lia|]. split; [by exists 0|done].
Qed.

(** The rows of the join are the players paired with their matches in the
    scope, or padded with NULLs. *)
Lemma joined_row_inv sc db r :
  r ∈ joined sc db →
  r.1 ∈ players db ∧
  match r.2 with
  | Some m => m ∈ matches db ∧ appears (p_id r.1) m ∧ within sc m
  | None => no_matches sc db (p_id r.1)
  end.
Proof.
  destruct r as [q y]. unfold joined. rewrite elem_of_left_join.
  intros [Hq Hy]. split; [done|]. simpl. destruct y as [m|].
  - destruct Hy as [Hm Hon]. by apply involves_spec in Hon.
  - intros m Hm Happ Hin. apply (Hy m Hm). by apply involves_spec.
Qed.

Lemma group_row_inv sc db g r :
  g ∈ Sql.group_by (λ r, (p_id r.1, p_name r.1)) (joined sc db) →
  r ∈ g.2 → r ∈ joined sc db ∧ p_id r.1 = g.1.1 ∧ p_name r.1 = g.1.2.
Proof.
  intros [_ Hg]%elem_of_group_by Hr. rewrite Hg in Hr.
  apply list_elem_of_filter in Hr as [Hk Hr]. by rewrite <- Hk.
Qed.

(** The LEFT JOIN keeps every player of the roster. *)
Lemma roster_row_exists sc db p :
  p ∈ players db →
  ∃ s, s ∈ getPlayerStats name_le sc db ∧ id s = p_id p ∧ name s = p_name p.
Proof.
  intros Hp.
  destruct (left_join_covers (λ p m, involves sc (p_id p) (Some m))
              (players db) (matches db) p Hp) as [y Hy].
  set (k := (p_id p, p_name p)).
  exists (select_stats (aggregate
    (k, filter (λ r : Player * option Match, (p_id r.1, p_name r.1) = k)
          (joined sc db)))).
  split; [|done]. apply stats_row_intro, elem_of_group_by.
  split; [|done]. by exists (p, y).
Qed.

(** The row of a player without a match in the scope holds zeros. *)
Lemma roster_row_zero sc db s :
  s ∈ getPlayerStats name_le sc db →
  no_matches sc db (id s) →
  wins s = 0 ∧ losses s = 0 ∧ total_matches s = 0 ∧
  points s = 0 ∧ win_percentage s = 0%Q ∧ money_lost s = 0.
Proof.
  intros (g & -> & Hg)%stats_row_inv Hnone. simpl in Hnone.
  assert (∀ r, r ∈ g.2 → r.2 = None) as Hpad.
  { intros r Hr. destruct (group_row_inv _ _ _ _ Hg Hr) as (Hj & Hr1 & _).
    apply joined_row_inv in Hj as [_ Hm].
    destruct (r.2) as [m|]; [|done].
    destruct Hm as (Hm & Happ & Hin). rewrite Hr1 in Happ.
    by destruct (Hnone m). }
  assert (ps_wins (aggregate g) = 0) as Hw.
  { apply count_case_none. intros r Hr. by rewrite (Hpad r Hr). }
  assert (ps_losses (aggregate g) = 0) as Hl.
  { apply count_case_none. intros r Hr. by rewrite (Hpad r Hr). }
  assert (ps_total_matches (aggregate g) = 0) as Ht.
  { apply count_case_none. intros r Hr. by rewrite (Hpad r Hr). }
  unfold select_stats; cbn [wins losses total_matches points win_percentage money_lost].
  rewrite Hw, Hl, Ht. done.
Qed.

(** A statistics query returns its rows exactly when the server accepts
    its scope. *)
Lemma run_stats_accepted sc db :
  accepted sc → run_stats name_le sc db = Ok (getPlayerStats name_le sc db).
Proof.
  destruct sc as [|seasonId|d|d]; try done.
  intros Hok. simpl. unfold getPlayerStatsBySeason. by rewrite decide_True.
Qed.

Lemma run_stats_rejected sc db :
  ¬ accepted sc → ∃ e, run_stats name_le sc db = Throw e.
Proof.
  destruct sc as [|seasonId|d|d]; try (by intros []).
  intros Hno. simpl. unfold getPlayerStatsBySeason. rewrite decide_False by done.
  by eexists.
Qed.

(** C5, as the code has it. The statistics query of a scope returns its
    rows exactly when the server accepts the scope, which it does for the
    lifetime scope, for every date and for every season id that fits
    INTEGER; for any other season id the query is rejected and there is no
    output.  The rows returned include a row for every player of the
    roster; and a row of a player who has no match in the scope (for a
    season scope: whose matches all belong to other seasons) shows 0 wins,
    losses, matches and points, a win percentage of 0 and no money lost. *)
Theorem roster_player_listed sc db p :
  p ∈ players db →
  (accepted sc →
   ∃ rows, run_stats name_le sc db = Ok rows ∧
     (∃ s, s ∈ rows ∧ id s = p_id p ∧ name s = p_name p) ∧
     (no_matches sc db (p_id p) →
      ∀ s, s ∈ rows → id s = p_id p →
        wins s = 0 ∧ losses s = 0 ∧ total_matches s = 0 ∧
        points s = 0 ∧ win_percentage s = 0%Q ∧ money_lost s = 0)) ∧
  (¬ accepted sc → ∃ e, run_stats name_le sc db = Throw e).
Proof.
  intros Hp. split; [|apply run_stats_rejected].
  intros Hok. eexists. split; [by apply run_stats_accepted|].
  split; [by apply roster_row_exists|].
  intros Hnone s Hs Hid. apply (roster_row_zero sc db); [done|]. by rewrite Hid.
Qed.

(** C7, as the code has it. When every stored match has its winning team
    set to 1 or 2 and lists nobody on both teams, wins + losses equals
    total_matches for every player in the output of every statistics
    query. *)
Theorem wins_plus_losses_total sc db s :
  (∀ m, m ∈ matches db → decided m ∧ teams_disjoint m) →
  s ∈ getPlayerStats name_le sc db →
  wins s + losses s = total_matches s.
Proof.
  intros Hdb (g & -> & Hg)%stats_row_inv. simpl.
  apply count_case_split. intros r Hr.
  destruct (group_row_inv _ _ _ _ Hg Hr) as (Hj & _ & _).
  apply joined_row_inv in Hj as [_ Hm].
  destruct r as [q [m|]]; simpl in *; [|done].
  destruct Hm as (Hm & Happ & _).
  destruct (Hdb m Hm) as [Hdec Hdis]. specialize (Hdis (p_id q)).
  pose proof (win_case_spec (p_id q) m) as Hw.
  pose proof (loss_case_spec (p_id q) m) as Hl.
  unfold decided in Hdec. unfold appears in Happ.
  destruct (Sql.holds (win_case (p_id q) (Some m))),
           (Sql.holds (loss_case (p_id q) (Some m))); simpl; split; try done.
  - exfalso. destruct Hw as [Hw _], Hl as [Hl _]. intuition lia.
  - exfalso. destruct Hw as [Hw _], Hl as [Hl _]. intuition lia.
  - exfalso. destruct Hw as [_ Hw], Hl as [_ Hl].
    assert (¬ (winning_team m = 1 ∧ on_team1 (p_id q) m ∨
               winning_team m = 2 ∧ on_team2 (p_id q) m)) by (intros H; by apply Hw in H).
    assert (¬ (winning_team m = 2 ∧ on_team1 (p_id q) m ∨
               winning_team m = 1 ∧ on_team2 (p_id q) m)) by (intros H'; by apply Hl in H').
    tauto.
Qed.

End Stats.

(** ** Order of the ranking *)

(** [Promise.all] fulfils exactly when no promise rejects, with the values
    in order; and a reason it rejects with is the reason of one of the
    promises. *)
Lemma mapM_rejections {A} (promises : list (Result A)) :
  match mapM (λ r, r) promises with
  | Ok _ => rejections promises = []
  | Throw _ => rejections promises ≠ []
  end.
Proof.
  induction promises as [|[a|e] promises IH]; [done| |done].
  cbn [mapM]. unfold rejections in *. cbn [omap]. simpl.
  by destruct (mapM _ promises).
Qed.

Lemma promise_all_Ok {A} first (promises : list (Result A)) values :
  promise_all first promises = Ok values ↔ mapM (λ r, r) promises = Ok values.
Proof.
  unfold promise_all. pose proof (mapM_rejections promises) as H.
  destruct (rejections promises) as [|e es]; [done|].
  by destruct (mapM _ promises).
Qed.

Lemma elem_of_rejections {A} (promises : list (Result A)) e :
  e ∈ rejections promises ↔ Throw e ∈ promises.
Proof.
  unfold rejections. rewrite list_elem_of_omap. split.
  - by intros ([a|e'] & Hin & [= ->]).
  - intros Hin. by exists (Throw e).
Qed.

Lemma promise_all_Throw {A} first (promises : list (Result A)) e :
  promise_all first promises = Throw e → Throw e ∈ promises.
Proof.
  unfold promise_all. pose proof (mapM_rejections promises) as H.
  destruct (rejections promises) as [|e0 es] eqn:Hr.
  { destruct (mapM _ promises); [done|by destruct H]. }
  intros [= <-]. apply elem_of_rejections. rewrite Hr.
  destruct ((e0 :: es) !! _) as [e|] eqn:He; simpl.
  - by apply list_elem_of_lookup_2 in He.
  - apply list_elem_of_here.
Qed.

Lemma promise_all_rejects {A} first (promises : list (Result A)) e :
  Throw e ∈ promises → ∃ e', promise_all first promises = Throw e'.
Proof.
  intros He%elem_of_rejections. unfold promise_all.
  destruct (rejections promises); [by apply not_elem_of_nil in He|by eexists].
Qed.

Lemma mapM_Result_fmap {A B} (f : A → Result B) (l : list A) :
  mapM (λ r, r) (f <$> l) = mapM f l.
Proof. induction l as [|x l IH]; [done|]. cbn [mapM fmap list_fmap]. by rewrite IH. Qed.

Lemma with_form_Ok first getForm l entries :
  with_form first getForm l = Ok entries ↔
  mapM (λ player, form ← getForm (id player); mret (attach player form)) l
    = Ok entries.
Proof. unfold with_form. by rewrite promise_all_Ok, mapM_Result_fmap. Qed.

Lemma with_form_inv first getForm l entries :
  with_form first getForm l = Ok entries →
  stat_of <$> entries = l ∧
  Forall2 (λ s e, getForm (id s) = Ok (form e)) l entries.
Proof.
  rewrite with_form_Ok. revert entries. induction l as [|s l IH]; intros entries.
  - intros [= <-]. by split; constructor.
  - cbn [mapM].
    destruct (getForm (id s)) as [f|e] eqn:Hf; [|done]. simpl.
    destruct (mapM _ l) as [es|e] eqn:Hes; [|done]. simpl.
    intros [= <-]. destruct (IH es eq_refl) as [IH1 IH2]. split.
    + simpl. f_equal; [by destruct s|done].
    + by constructor.
Qed.

Lemma with_form_total first getForm l :
  (∀ p, ∃ f, getForm p = Ok f) →
  ∃ entries, with_form first getForm l = Ok entries.
Proof.
  intros Hform.
  assert (∃ entries,
    mapM (λ player, form ← getForm (id player); mret (attach player form)) l
      = Ok entries) as [entries H].
  { induction l as [|s l [es IH]]; [by exists []|].
    destruct (Hform (id s)) as [f Hf]. exists (attach s f :: es).
    cbn [mapM]. rewrite Hf. simpl. by rewrite IH. }
  exists entries. by apply with_form_Ok.
Qed.

(** The reason [with_form] rejects with is the reason of the form query of
    a listed player. *)
Lemma with_form_Throw first getForm l e :
  with_form first getForm l = Throw e →
  ∃ s, s ∈ l ∧ getForm (id s) = Throw e.
Proof.
  intros (s & Hs & Hin)%promise_all_Throw%list_elem_of_fmap.
  exists s. split; [done|]. by destruct (getForm (id s)); simplify_eq/=.
Qed.

Lemma with_form_rejects first getForm l s e :
  s ∈ l → getForm (id s) = Throw e → ∃ e', with_form first getForm l = Throw e'.
Proof.
  intros Hs He. apply (promise_all_rejects _ _ e).
  apply list_elem_of_fmap. exists s. by rewrite He.
Qed.

Lemma StronglySorted_mono {A} (R1 R2 : relation A) l :
  (∀ a b, R1 a b → R2 a b) → StronglySorted R1 l → StronglySorted R2 l.
Proof. induction 2; constructor; eauto using Forall_impl. Qed.

Lemma StronglySorted_fmap_inv {A B} (f : A → B) (R : relation B) l :
  StronglySorted R (f <$> l) → StronglySorted (λ a b, R (f a) (f b)) l.
Proof.
  induction l as [|a l IH]; [constructor|].
  csimpl. intros [Hl Ha]%StronglySorted_inv. constructor; [auto|].
  by rewrite Forall_fmap in Ha.
Qed.

Section Order.
Context (name_le : relation string) `{!RelDecision name_le}.

Lemma rank_le_spec a b : rank_le name_le a b ↔ ranking_order name_le a b.
Proof.
  unfold rank_le, rank_leb, ranking_order.
  destruct (decide (points b < points a)); [tauto|].
  destruct (decide (points a = points b)); [|intuition (discriminate || lia)].
  destruct (win_percentage a ?= win_percentage b)%Q eqn:Hc.
  - apply Qeq_alt in Hc. rewrite bool_decide_eq_true.
    split; [tauto|]. intros [?|[_ [Hlt|[_ ?]]]]; [lia|lra|done].
  - apply Qlt_alt in Hc. split; [done|].
    intros [?|[_ [Hlt|[Heq _]]]]; [lia|lra|lra].
  - apply Qgt_alt in Hc. tauto.
Qed.

Context `{!Total name_le} `{!Transitive name_le}.

#[local] Instance ranking_order_total : Total (ranking_order name_le).
Proof.
  intros a b. unfold ranking_order.
  destruct (Z.lt_trichotomy (points a) (points b)) as [?|[?|?]]; [tauto| |tauto].
  destruct (Q_dec (win_percentage a) (win_percentage b)) as [[?|?]|Heq].
  - right. right. split; [done|]. by left.
  - left. right. split; [done|]. by left.
  - destruct (total name_le (name a) (name b)).
    + left. right. split; [done|]. right. done.
    + right. right. split; [done|]. right. split; [by symmetry|done].
Qed.

#[local] Instance ranking_order_trans : Transitive (ranking_order name_le).
Proof.
  intros a b c. unfold ranking_order.
  intros [?|[Hab [?|[? ?]]]] [?|[Hbc [?|[? ?]]]]; try (left; lia);
    right; (split; [lia|]); try (left; lra).
  right. split; [lra|]. by etrans.
Qed.

Lemma getPlayerStats_sorted sc db :
  StronglySorted (ranking_order name_le) (getPlayerStats name_le sc db).
Proof.
  assert (Total (rank_le name_le)) by (intros a b; rewrite !rank_le_spec; apply total, _).
  assert (Transitive (rank_le name_le))
    by (intros a b c; rewrite !rank_le_spec; apply transitivity).
  unfold getPlayerStats.
  eapply StronglySorted_mono; [|apply StronglySorted_order_by; done].
  intros a b. apply rank_le_spec.
Qed.

(** C1. The list returned by a statistics query, for every roster, set of
    matches and scope, is sorted by points descending, then win percentage
    descending, then name ascending; and the entries the router builds from
    it by attaching a form list carry the same statistics in the same
    order, each with the form of its own player. *)
Theorem ranking_sorted sc db :
  StronglySorted (ranking_order name_le) (getPlayerStats name_le sc db) ∧
  ∀ first getForm entries,
    with_form first getForm (getPlayerStats name_le sc db) = Ok entries →
    stat_of <$> entries = getPlayerStats name_le sc db ∧
    Forall2 (λ s e, getForm (id s) = Ok (form e))
      (getPlayerStats name_le sc db) entries ∧
    StronglySorted (λ a b, ranking_order name_le (stat_of a) (stat_of b)) entries.
Proof.
  split; [apply getPlayerStats_sorted|].
  intros first getForm entries [Hstat Hform]%with_form_inv.
  split; [done|]. split; [done|].
  apply StronglySorted_fmap_inv. rewrite Hstat. apply getPlayerStats_sorted.
Qed.
End Order.

(** ** Form queries *)

Lemma StronglySorted_mono_in {A} (R1 R2 : relation A) l :
  (∀ a b, a ∈ l → b ∈ l → R1 a b → R2 a b) →
  StronglySorted R1 l → StronglySorted R2 l.
Proof.
  intros HR Hl. induction Hl as [|a l Hl IH Ha]; constructor.
  - apply IH. intros x y Hx Hy. apply HR; by apply list_elem_of_further.
  - apply Forall_forall. intros x Hx. apply HR.
    + apply list_elem_of_here.
    + by apply list_elem_of_further.
    + rewrite Forall_forall in Ha. by apply Ha.
Qed.


#[local] Instance form_order_total : Total form_order.
Proof. intros a b. unfold form_order. lia. Qed.

#[local] Instance form_order_trans : Transitive form_order.
Proof. intros a b c. unfold form_order. lia. Qed.

#[local] Instance created_order_total : Total created_order.
Proof. intros a b. unfold created_order. lia. Qed.

#[local] Instance created_order_trans : Transitive created_order.
Proof. intros a b c. unfold created_order. lia. Qed.

Lemma elem_of_matches_of sc db p m :
  m ∈ matches_of sc db p ↔ m ∈ matches db ∧ appears p m ∧ within sc m.
Proof.
  unfold matches_of. rewrite list_elem_of_filter, involves_spec. tauto.
Qed.

Lemma form_query_ok sc (R : relation Match) `{!RelDecision R} db p n :
  0 <= n →
  form_query sc R db p n =
    Ok (form_row p <$> take (Z.to_nat n) (form_matches sc R db p)).
Proof.
  intros Hn. unfold form_query, Sql.limit. by rewrite decide_False by lia.
Qed.


(** Every form query is [form_query] at its scope, and lists its matches in
    the order of play date, then creation time, both descending. *)
Lemma run_form_sorted q db p :
  ∃ (R : relation Match) (HR : RelDecision R),
    (∀ limit, run_form q db p limit =
              form_query (form_scope q) R db p (or_default limit)) ∧
    StronglySorted form_order (form_matches (form_scope q) R db p).
Proof.
  destruct q as [|seasonId|date|date|date];
    try (exists form_order, _; split; [done|];
         unfold form_matches;
         apply StronglySorted_order_by; apply _).
  exists created_order, _. split; [done|].
  unfold form_matches.
  eapply StronglySorted_mono_in; [|apply StronglySorted_order_by; apply _].
  intros a b Ha Hb Hab. rewrite order_by_Permutation in Ha, Hb.
  apply elem_of_matches_of in Ha as (_ & _ & Ha), Hb as (_ & _ & Hb).
  unfold created_order in Hab. unfold form_order. simpl in Ha, Hb. lia.
Qed.


(** The matches a form query reads are the stored matches that list the
    player in a slot and belong to the scope. *)
Lemma matches_of_spec sc db p :
  matches_of sc db p = filter (λ m, appears p m ∧ within sc m) (matches db).
Proof.
  unfold matches_of. apply list_filter_iff. intros m. apply involves_spec.
Qed.


(** ** Outcome of a match for a player *)

Lemma form_row_result p m :
  result (form_row p m) =
    if Sql.holds (win_case p (Some m)) then win else loss.
Proof. done. Qed.

(** C2, as the code has it. For a player who is not listed on both teams
    of the match: on team 1 with winning team 1 the statistics count a win
    (and no loss) and the form says win; on team 1 with winning team 2 they
    count a loss (and no win) and the form says loss; on team 2 with
    winning team 2, a win; on team 2 with winning team 1, a loss. *)
Theorem outcome_by_team p m :
  ¬ (on_team1 p m ∧ on_team2 p m) →
  (on_team1 p m → winning_team m = 1 →
     Sql.holds (win_case p (Some m)) = true ∧
     Sql.holds (loss_case p (Some m)) = false ∧
     result (form_row p m) = win) ∧
  (on_team1 p m → winning_team m = 2 →
     Sql.holds (win_case p (Some m)) = false ∧
     Sql.holds (loss_case p (Some m)) = true ∧
     result (form_row p m) = loss) ∧
  (on_team2 p m → winning_team m = 2 →
     Sql.holds (win_case p (Some m)) = true ∧
     Sql.holds (loss_case p (Some m)) = false ∧
     result (form_row p m) = win) ∧
  (on_team2 p m → winning_team m = 1 →
     Sql.holds (win_case p (Some m)) = false ∧
     Sql.holds (loss_case p (Some m)) = true ∧
     result (form_row p m) = loss).
Proof.
  intros Hdis. rewrite form_row_result.
  pose proof (win_case_spec p m) as Hw.
  pose proof (loss_case_spec p m) as Hl.
  split; [|split; [|split]]; intros Ht Hwt.
  1, 3: assert (Sql.holds (win_case p (Some m)) = true) as ->
          by (apply Hw; tauto);
        assert (Sql.holds (loss_case p (Some m)) = false) as ->
          by (apply not_true_iff_false; rewrite Hl; intuition lia);
        done.
  all: assert (Sql.holds (win_case p (Some m)) = false) as ->
         by (apply not_true_iff_false; rewrite Hw; intuition lia);
       assert (Sql.holds (loss_case p (Some m)) = true) as ->
         by (apply Hl; tauto);
       done.
Qed.


(** ** The router *)

Section RouterFacts.
Context {C : Type} (db : DbApi) (rankingsCache : CacheApi C).

(** A request in full: the cache lookup decides between a hit and a
    recomputation followed by [set] under the route's key and TTL. *)
Lemma handle_run route c :
  handle db rankingsCache route c =
    match cache_get rankingsCache (route_key route) c with
    | (Throw e, c1) => (Throw e, c1)
    | (Ok (Some rankings), c1) => (Ok (send true (route_key route) rankings), c1)
    | (Ok None, c1) =>
        match route_fresh db route with
        | Throw e => (Throw e, c1)
        | Ok rankings =>
            after_set (route_key route) rankings
              (cache_set rankingsCache (route_key route) rankings
                 (route_ttl route) c1)
        end
    end.
Proof.
  destruct route as [|seasonId|date]; simpl;
    unfold get_lifetime, get_season, get_date, mbind, Handler_bind, await,
      mret, Handler_ret, after_set; simpl;
    (destruct (cache_get rankingsCache _ c) as [[[rankings|]|e] c1]; [done| |done]).
  - destruct (db_getPlayerStatsLifetime db) as [stats|e]; [|done]. simpl.
    destruct (with_form _ _ stats) as [rankings|e]; [|done].
    by destruct (cache_set rankingsCache _ rankings _ c1) as [[[]|e] c2].
  - destruct (db_getPlayerStatsBySeason db seasonId) as [stats|e]; [|done]. simpl.
    destruct (with_form _ _ stats) as [rankings|e]; [|done].
    by destruct (cache_set rankingsCache _ rankings _ c1) as [[[]|e] c2].
  - destruct (db_getPlayerStatsBySpecificDate db date) as [stats|e]; [|done]. simpl.
    destruct (with_form _ _ stats) as [rankings|e]; [|done].
    by destruct (cache_set rankingsCache _ rankings _ c1) as [[[]|e] c2].
Qed.
End RouterFacts.

#[local] Instance route_key_inj : Inj (=) (=) route_key.
Proof.
  intros [|s1|d1] [|s2|d2] Hk; simpl in Hk; try done.
  - by apply (inj (String.app _)), (inj pretty) in Hk as ->.
  - by apply (inj (String.app _)) in Hk as ->.
Qed.

(** C8. On a cache miss each route ends by calling [set] with its own key,
    the rankings just computed and its own time to live: rankings:lifetime
    and 10 minutes, rankings:season:<seasonId> and 3 minutes,
    rankings:date:<date> and 15 minutes; and two routes or parameters never
    share a key. *)
Theorem cache_key_and_ttl {C} (db : DbApi) (rankingsCache : CacheApi C)
    route c c1 rankings :
  cache_get rankingsCache (route_key route) c = (Ok None, c1) →
  route_fresh db route = Ok rankings →
  handle db rankingsCache route c =
    after_set (route_key route) rankings
      (cache_set rankingsCache (route_key route) rankings (route_ttl route) c1) ∧
  match route with
  | RLifetime =>
      route_key route = "rankings:lifetime" ∧ route_ttl route = 10 * 60 * 1000
  | RSeason seasonId =>
      route_key route = "rankings:season:" +:+ pretty seasonId ∧
      route_ttl route = 3 * 60 * 1000
  | RDate date =>
      route_key route = "rankings:date:" +:+ date ∧
      route_ttl route = 15 * 60 * 1000
  end ∧
  ∀ other, route_key other = route_key route → other = route.
Proof.
  intros Hget Hfresh. split; [|split].
  - by rewrite handle_run, Hget, Hfresh.
  - by destruct route.
  - intros other. apply (inj route_key).
Qed.

(** C9, as the code has it. On a cache miss the freshly computed rankings
    are returned, marked as a miss, when [set] returns; when [set] throws,
    the request ends with that exception and sends no rankings. *)
Theorem set_failure_propagates {C} (db : DbApi) (rankingsCache : CacheApi C)
    route c c1 rankings :
  cache_get rankingsCache (route_key route) c = (Ok None, c1) →
  route_fresh db route = Ok rankings →
  (∀ c2, cache_set rankingsCache (route_key route) rankings (route_ttl route) c1
           = (Ok (), c2) →
         handle db rankingsCache route c
           = (Ok (send false (route_key route) rankings), c2)) ∧
  (∀ e c2, cache_set rankingsCache (route_key route) rankings (route_ttl route) c1
             = (Throw e, c2) →
           handle db rankingsCache route c = (Throw e, c2)).
Proof.
  intros Hget Hfresh.
  split; [intros c2 Hset|intros e c2 Hset];
    by rewrite handle_run, Hget, Hfresh, Hset.
Qed.

(** Over the PostgreSQL data layer the recomputation succeeds (for a date
    route, once the date converts) and yields the statistics of the
    route's scope, each with a form of at most five outcomes. *)
Lemma postgres_fresh_ok (name_le : relation string) `{!RelDecision name_le}
    date_in data route sc :
  route_scope date_in route = Some sc →
  ∃ rankings,
    route_fresh (postgres name_le date_in data) route = Ok rankings ∧
    stat_of <$> rankings = getPlayerStats name_le sc data ∧
    Forall (λ e, Z.of_nat (length (form e)) <= 5) rankings.
Proof.
  intros Hsc.
  assert (∃ getForm,
    route_fresh (postgres name_le date_in data) route
      = with_form 0 getForm (getPlayerStats name_le sc data) ∧
    ∀ p, ∃ ms, getForm p = Ok (form_row p <$> take 5 ms)) as (getForm & -> & Hform).
  { destruct route as [|seasonId|date]; simpl in *.
    - injection Hsc as <-. eexists. split; [done|].
      intros p. eexists. by apply form_query_ok.
    - unfold getPlayerStatsBySeason.
      destruct (decide (int4 seasonId)); [|done]. injection Hsc as <-.
      eexists. split; [done|]. intros p. eexists. by apply form_query_ok.
    - destruct (date_in date) as [d|]; [|done]. injection Hsc as <-.
      eexists. split; [done|]. intros p. eexists. by apply form_query_ok. }
  destruct (with_form_total 0 getForm (getPlayerStats name_le sc data))
    as [rankings Hr]; [intros p; destruct (Hform p); eauto|].
  exists rankings. split; [done|].
  apply with_form_inv in Hr as [Hstat Hforms]. split; [done|].
  apply Forall_forall. intros e He.
  apply list_elem_of_lookup in He as [i He].
  destruct (Forall2_lookup_r _ _ _ _ _ Hforms He) as (s & _ & Hs).
  destruct (Hform (id s)) as [ms Hms]. rewrite Hms in Hs. injection Hs as <-.
  rewrite length_fmap, length_take. lia.
Qed.

(** Over the PostgreSQL data layer the form queries of one request that
    reject all carry the same reason. *)
Lemma postgres_rejections_agree (name_le : relation string)
    `{!RelDecision name_le} date_in data route p q e e' :
  route_form (postgres name_le date_in data) route p = Throw e →
  route_form (postgres name_le date_in data) route q = Throw e' →
  e = e'.
Proof.
  destruct route as [|seasonId|date]; simpl.
  - unfold getPlayerForm. by rewrite form_query_ok.
  - destruct (decide (int4 seasonId)); [|congruence].
    unfold getPlayerFormBySeason. by rewrite form_query_ok.
  - destruct (date_in date); [|congruence].
    unfold getPlayerFormBySpecificDate. by rewrite form_query_ok.
Qed.

(** With the time-boxed cache of the specification, a miss leaves the
    rankings under the route's key until [now + ttl]. *)
Lemma ttl_cache_stores db route c rankings :
  (ttl_get (route_key route) c).1 = Ok None →
  route_fresh db route = Ok rankings →
  (handle db ttl_cache route c).1 = Ok (send false (route_key route) rankings) ∧
  entries (handle db ttl_cache route c).2 !! route_key route
    = Some (rankings, now c + route_ttl route).
Proof.
  intros Hget Hfresh. rewrite handle_run. simpl.
  assert (ttl_get (route_key route) c = (Ok None, c)) as ->.
  { unfold ttl_get in *. destruct (entries c !! _) as [[v expiry]|]; [|done].
    simpl in Hget. by destruct (decide _). }
  rewrite Hfresh. simpl. split; [done|]. apply lookup_insert_eq.
Qed.

(** Past [checkAuth], the date route runs its handler exactly when the
    validator accepts the parameter, and answers 400 without touching the
    cache otherwise. *)
Lemma route_date_gate {C} isISO8601 db (rankingsCache : CacheApi C) date c :
  route_date None isISO8601 db rankingsCache date c =
    if isISO8601 date then get_date db rankingsCache date c
    else (Ok {| status := 400; headers := [];
                body := ValidationFailed ["Invalid date format. Use YYYY-MM-DD"] |},
          c).
Proof.
  unfold route_date, handleValidationErrors, validate.
  by destruct (isISO8601 date).
Qed.

(** ** The properties on the sample data *)

Example sample_ranking :
  id <$> getPlayerStatsLifetime String.le sample_db = [1; 3; 2] ∧
  getPlayerStatsLifetime String.le sample_db !! 0%nat = Some stat_A ∧
  getPlayerStatsLifetime String.le sample_db !! 1%nat = Some stat_C.
Proof. by vm_compute. Qed.

Example sample_form :
  getPlayerForm sample_db 3 None = Ok [{| result := loss; fe_play_date := 15 |}].
Proof. by vm_compute. Qed.

Example sample_miss_then_hit :
  let first := handle sample_pg ttl_cache (RDate "2024-01-15") empty_cache in
  let second := handle sample_pg ttl_cache (RDate "2024-01-15") first.2 in
  (headers <$> first.1) =
    Ok [("X-Cache", "MISS"); ("X-Cache-Key", "rankings:date:2024-01-15")] ∧
  (headers <$> second.1) =
    Ok [("X-Cache", "HIT"); ("X-Cache-Key", "rankings:date:2024-01-15")] ∧
  (body <$> first.1) = (body <$> second.1).
Proof. by vm_compute. Qed.

(** ** Witnesses and counterexamples *)

Lemma stat_A_listed : stat_A ∈ getPlayerStats String.le Lifetime sample_db.
Proof. apply (list_elem_of_lookup_2 _ 0%nat). by vm_compute. Qed.

Lemma stat_C_listed : stat_C ∈ getPlayerStats String.le Lifetime sample_db.
Proof. apply (list_elem_of_lookup_2 _ 1%nat). by vm_compute. Qed.

Lemma sample_db_well_formed m :
  m ∈ matches sample_db → decided m ∧ teams_disjoint m.
Proof.
  intros ->%list_elem_of_singleton. split; [by left|].
  intros p [[H1|H1] [H2|H2]]; simpl in *; congruence.
Qed.

Lemma ranking_sorted_witness :
  ∃ entries,
    with_form 0 (λ p, getPlayerForm sample_db p (Some 5))
      (getPlayerStats String.le Lifetime sample_db) = Ok entries ∧
    StronglySorted (ranking_order String.le)
      (getPlayerStats String.le Lifetime sample_db) ∧
    stat_of <$> entries = getPlayerStats String.le Lifetime sample_db ∧
    Forall2 (λ s e, getPlayerForm sample_db (id s) (Some 5) = Ok (form e))
      (getPlayerStats String.le Lifetime sample_db) entries ∧
    StronglySorted (λ a b, ranking_order String.le (stat_of a) (stat_of b)) entries.
Proof.
  destruct (ranking_sorted String.le Lifetime sample_db) as [Hsorted Hform].
  eexists. split; [by vm_compute|]. split; [exact Hsorted|].
  apply (Hform 0%nat (λ p, getPlayerForm sample_db p (Some 5))). by vm_compute.
Defined.

Lemma outcome_by_team_witness :
  ¬ (on_team1 3 solo_match ∧ on_team2 3 solo_match) ∧
  on_team2 3 solo_match ∧ winning_team solo_match = 1 ∧
  Sql.holds (win_case 3 (Some solo_match)) = false ∧
  Sql.holds (loss_case 3 (Some solo_match)) = true ∧
  result (form_row 3 solo_match) = loss.
Proof.
  assert (¬ (on_team1 3 solo_match ∧ on_team2 3 solo_match)) as Hdis.
  { unfold on_team1, on_team2. simpl. intros [[?|?] _]; discriminate. }
  assert (on_team2 3 solo_match) as Ht by (by left).
  split; [done|]. split; [done|]. split; [done|].
  exact (proj2 (proj2 (proj2 (outcome_by_team 3 solo_match Hdis))) Ht eq_refl).
Defined.

(** C2 as stated fails for a player listed on both teams: with team 1
    winning, the slot on team 2 does not make the form a loss, and the
    statistics count the match as a win as well. *)
Lemma outcome_by_team_counterexample :
  decided both_teams_match ∧ appears 1 both_teams_match ∧
  on_team2 1 both_teams_match ∧ winning_team both_teams_match = 1 ∧
  result (form_row 1 both_teams_match) ≠ loss ∧
  Sql.holds (win_case 1 (Some both_teams_match)) = true.
Proof.
  unfold decided, appears, on_team1, on_team2. simpl.
  repeat split; auto; discriminate.
Qed.

Lemma points_and_money_lost_witness :
  stat_C ∈ getPlayerStats String.le Lifetime sample_db ∧
  points stat_C = wins stat_C * 4 + losses stat_C * 1 ∧
  money_lost stat_C = losses stat_C * 20000.
Proof.
  split; [exact stat_C_listed|].
  exact (points_and_money_lost String.le Lifetime sample_db stat_C stat_C_listed).
Defined.

Lemma win_percentage_rounded_witness :
  stat_A ∈ getPlayerStats String.le Lifetime sample_db ∧
  win_percentage stat_A =
    round_half_up (inject_Z (wins stat_A) / inject_Z (wins stat_A + losses stat_A) * 100) 1 ∧
  (0 <= win_percentage stat_A <= 100)%Q.
Proof.
  split; [exact stat_A_listed|].
  destruct (win_percentage_rounded String.le Lifetime sample_db stat_A stat_A_listed)
    as (_ & Hround & _ & Hrange).
  split; [apply Hround; by vm_compute|exact Hrange].
Defined.

Lemma roster_player_listed_witness :
  mk_player 1 "A" ∈ players sample_db ∧
  accepted (Season 2) ∧
  no_matches (Season 2) sample_db 1 ∧
  ∃ rows, run_stats String.le (Season 2) sample_db = Ok rows ∧
    (∃ s, s ∈ rows ∧ id s = 1 ∧ name s = "A") ∧
    (∀ s, s ∈ rows → id s = 1 →
       wins s = 0 ∧ losses s = 0 ∧ total_matches s = 0 ∧
       points s = 0 ∧ win_percentage s = 0%Q ∧ money_lost s = 0).
Proof.
  assert (mk_player 1 "A" ∈ players sample_db) as Hp by apply list_elem_of_here.
  assert (accepted (Season 2)) as Hok by (simpl; lia).
  assert (no_matches (Season 2) sample_db 1) as Hnone.
  { intros m ->%list_elem_of_singleton _. simpl. discriminate. }
  split; [exact Hp|]. split; [exact Hok|]. split; [exact Hnone|].
  destruct (proj1 (roster_player_listed String.le (Season 2) sample_db _ Hp) Hok)
    as (rows & Hrows & Hlisted & Hzero).
  exists rows. split; [exact Hrows|]. split; [exact Hlisted|exact (Hzero Hnone)].
Defined.

(** C5 as stated fails for a season id beyond INTEGER, which the route
    lets through as a positive integer: the query is rejected, the
    request ends with the exception, and no ranking lists the players of
    the roster. *)
Lemma roster_player_listed_counterexample :
  0 < 2147483648 ∧
  mk_player 1 "A" ∈ players sample_db ∧
  getPlayerStatsBySeason String.le sample_db 2147483648
    = Throw "value out of range for type integer" ∧
  (∀ rows, run_stats String.le (Season 2147483648) sample_db ≠ Ok rows) ∧
  handle sample_pg ttl_cache (RSeason 2147483648) empty_cache
    = (Throw "value out of range for type integer", empty_cache).
Proof.
  split; [lia|]. split; [apply list_elem_of_here|].
  split; [by vm_compute|]. split; [done|by vm_compute].
Qed.


Lemma wins_plus_losses_total_witness :
  (∀ m, m ∈ matches sample_db → decided m ∧ teams_disjoint m) ∧
  stat_A ∈ getPlayerStats String.le Lifetime sample_db ∧
  wins stat_A + losses stat_A = total_matches stat_A.
Proof.
  split; [exact sample_db_well_formed|]. split; [exact stat_A_listed|].
  exact (wins_plus_losses_total String.le Lifetime sample_db stat_A
           sample_db_well_formed stat_A_listed).
Defined.

(** C7 as stated fails when a match lists a player on both teams: the one
    match counts as a win and as a loss of that player. *)
Lemma wins_plus_losses_counterexample :
  (∀ m, m ∈ matches both_teams_db → decided m) ∧
  ∃ s, getPlayerStatsLifetime String.le both_teams_db !! 0%nat = Some s ∧
       wins s = 1 ∧ losses s = 1 ∧ total_matches s = 1 ∧
       wins s + losses s ≠ total_matches s.
Proof.
  split; [intros m ->%list_elem_of_singleton; by left|].
  eexists. split; [by vm_compute|]. by vm_compute.
Qed.

Lemma cache_key_and_ttl_witness :
  ∃ rankings,
    cache_get ttl_cache (route_key (RSeason 1)) empty_cache = (Ok None, empty_cache) ∧
    route_fresh sample_pg (RSeason 1) = Ok rankings ∧
    handle sample_pg ttl_cache (RSeason 1) empty_cache =
      after_set (route_key (RSeason 1)) rankings
        (cache_set ttl_cache (route_key (RSeason 1)) rankings
           (route_ttl (RSeason 1)) empty_cache) ∧
    route_key (RSeason 1) = "rankings:season:1" ∧
    route_ttl (RSeason 1) = 180000.
Proof.
  eexists. split; [by vm_compute|]. split; [by vm_compute|].
  edestruct (cache_key_and_ttl sample_pg ttl_cache (RSeason 1) empty_cache)
    as (Hrun & _ & _); [by vm_compute|by vm_compute|].
  split; [exact Hrun|]. by vm_compute.
Defined.

Lemma set_failure_propagates_witness :
  ∃ rankings,
    cache_get broken_cache (route_key RLifetime) () = (Ok None, ()) ∧
    route_fresh sample_pg RLifetime = Ok rankings ∧
    cache_set broken_cache (route_key RLifetime) rankings (route_ttl RLifetime) ()
      = (Throw "cache storage failed", ()) ∧
    handle sample_pg broken_cache RLifetime () = (Throw "cache storage failed", ()).
Proof.
  eexists. split; [done|]. split; [by vm_compute|]. split; [done|].
  edestruct (set_failure_propagates sample_pg broken_cache RLifetime ())
    as [_ Hthrow]; [done|by vm_compute|].
  by apply Hthrow.
Defined.

(** C9 as stated fails: when [set] throws, the request ends with the
    exception although the rankings had been computed. *)
Lemma set_failure_counterexample :
  ∃ rankings,
    cache_get broken_cache (route_key RLifetime) () = (Ok None, ()) ∧
    route_fresh sample_pg RLifetime = Ok rankings ∧
    (cache_set broken_cache (route_key RLifetime) rankings
       (route_ttl RLifetime) ()).1 = Throw "cache storage failed" ∧
    (handle sample_pg broken_cache RLifetime ()).1 = Throw "cache storage failed" ∧
    (handle sample_pg broken_cache RLifetime ()).1
      ≠ Ok (send false (route_key RLifetime) rankings).
Proof.
  eexists. split; [done|]. split; [by vm_compute|]. split; [done|].
  split; [by vm_compute|]. by vm_compute.
Qed.

(** * Further properties of the ranking core *)

(** ** Counting over the join *)

Lemma count_case_mono {A} (c1 c2 : A → Sql.truth) rows :
  (∀ r, r ∈ rows → Sql.holds (c1 r) = true → Sql.holds (c2 r) = true) →
  Sql.count_case c1 rows <= Sql.count_case c2 rows.
Proof.
  unfold Sql.count_case. induction rows as [|r rows IH]; intros Hc; [done|].
  assert (Z.of_nat (length (filter (λ r, Sql.holds (c1 r) = true) rows)) <=
          Z.of_nat (length (filter (λ r, Sql.holds (c2 r) = true) rows))) as IH'.
  { apply IH. intros r' Hr'. apply Hc. by apply list_elem_of_further. }
  pose proof (Hc r (list_elem_of_here _ _)) as Hr.
  rewrite !filter_cons. repeat case_decide; simpl; try lia. tauto.
Qed.

Lemma joined_player_rows sc db : joined sc db = players db ≫= player_rows sc db.
Proof. done. Qed.

Lemma count_player_rows sc db p (c : Player * option Match → Sql.truth) :
  Sql.holds (c (p, None)) = false →
  Sql.count_case c (player_rows sc db p) =
    Z.of_nat (length (filter (λ m, Sql.holds (c (p, Some m)) = true)
                        (matches_of sc db (p_id p)))).
Proof.
  intros Hnone. unfold player_rows, Sql.count_case.
  destruct (matches_of sc db (p_id p)) as [|m0 ms] eqn:Hms.
  - rewrite filter_cons, decide_False by (by rewrite Hnone). done.
  - generalize (m0 :: ms). intros l. f_equal.
    induction l as [|m l IH]; [done|].
    rewrite fmap_cons, !filter_cons. simpl. case_decide; simpl; by rewrite IH.
Qed.

Lemma player_rows_key sc db p r :
  r ∈ player_rows sc db p → r.1 = p.
Proof.
  unfold player_rows. destruct (matches_of sc db (p_id p)) as [|m0 ms].
  - by intros ->%list_elem_of_singleton.
  - by intros (m & -> & _)%list_elem_of_fmap.
Qed.

Lemma filter_all {A} (P : A → Prop) `{!∀ x, Decision (P x)} (l : list A) :
  (∀ x, x ∈ l → P x) → filter P l = l.
Proof.
  induction l as [|x l IH]; intros HP; [done|].
  rewrite filter_cons, decide_True by apply HP, list_elem_of_here.
  f_equal. apply IH. intros y Hy. by apply HP, list_elem_of_further.
Qed.

Lemma filter_none {A} (P : A → Prop) `{!∀ x, Decision (P x)} (l : list A) :
  (∀ x, x ∈ l → ¬ P x) → filter P l = [].
Proof.
  induction l as [|x l IH]; intros HP; [done|].
  rewrite filter_cons, decide_False by apply HP, list_elem_of_here.
  apply IH. intros y Hy. by apply HP, list_elem_of_further.
Qed.

Lemma length_filter_mono {A} (P Q : A → Prop)
    `{!∀ x, Decision (P x)} `{!∀ x, Decision (Q x)} (l : list A) :
  (∀ x, x ∈ l → P x → Q x) →
  (length (filter P l) <= length (filter Q l))%nat.
Proof.
  induction l as [|x l IH]; intros HPQ; [done|].
  assert (length (filter P l) <= length (filter Q l))%nat as IH'.
  { apply IH. intros y Hy. by apply HPQ, list_elem_of_further. }
  pose proof (HPQ x (list_elem_of_here _ _)).
  rewrite !filter_cons. repeat case_decide; simpl; try lia. tauto.
Qed.

(** Under the primary key of [players], the group of a player holds that
    player's rows and nothing else. *)
Lemma group_of_player sc db p :
  NoDup (p_id <$> players db) → p ∈ players db →
  filter (λ r : Player * option Match, (p_id r.1, p_name r.1) = (p_id p, p_name p))
    (joined sc db) = player_rows sc db p.
Proof.
  rewrite joined_player_rows. generalize (players db). intros l.
  induction l as [|q l IH]; intros Hnd Hp; [by apply not_elem_of_nil in Hp|].
  rewrite fmap_cons in Hnd. apply NoDup_cons in Hnd as [Hq Hnd].
  rewrite bind_cons, filter_app.
  assert (∀ q' : Player, q' ∈ l → p_id q' ≠ p_id q) as Hother.
  { intros q' Hq' Heq. apply Hq. rewrite <- Heq. by apply list_elem_of_fmap_2. }
  apply elem_of_cons in Hp as [->|Hp].
  - rewrite (filter_none _ (l ≫= player_rows sc db)).
    + rewrite app_nil_r. apply filter_all.
      intros r Hr. by rewrite (player_rows_key _ _ _ _ Hr).
    + intros r Hr Hk. apply list_elem_of_bind in Hr as (q' & Hr & Hq').
      apply player_rows_key in Hr. rewrite Hr in Hk.
      apply (Hother q' Hq'). congruence.
  - rewrite (filter_none _ (player_rows sc db q)).
    + by apply IH.
    + intros r Hr Hk. rewrite (player_rows_key _ _ _ _ Hr) in Hk.
      apply (Hother p Hp). congruence.
Qed.

Section MoreStats.
Context (name_le : relation string) `{!RelDecision name_le}.

(** Every row of a statistics query is the row of a roster player. *)
Lemma stats_row_player sc db s :
  s ∈ getPlayerStats name_le sc db →
  ∃ p, p ∈ players db ∧ id s = p_id p ∧ name s = p_name p ∧
       ∃ g, s = select_stats (aggregate g) ∧ g.1 = (p_id p, p_name p) ∧
            g.2 = filter (λ r : Player * option Match,
                            (p_id r.1, p_name r.1) = (p_id p, p_name p)) (joined sc db).
Proof.
  intros (g & -> & Hg)%stats_row_inv.
  apply elem_of_group_by in Hg as [(r & Hr & Hk) Hg].
  apply joined_row_inv in Hr as Hp. destruct Hp as [Hp _].
  exists r.1. split; [done|]. simpl. rewrite <- Hk. simpl.
  split; [done|]. split; [done|]. exists g. rewrite Hk. done.
Qed.

(** Under the primary key, the counters of a row count the player's
    matches in the scope. *)
Lemma stats_row_counts sc db s :
  NoDup (p_id <$> players db) →
  s ∈ getPlayerStats name_le sc db →
  total_matches s = Z.of_nat (length (matches_of sc db (id s))) ∧
  wins s = Z.of_nat (length (filter
             (λ m, Sql.holds (win_case (id s) (Some m)) = true)
             (matches_of sc db (id s)))) ∧
  losses s = Z.of_nat (length (filter
               (λ m, Sql.holds (loss_case (id s) (Some m)) = true)
               (matches_of sc db (id s)))).
Proof.
  intros Hnd (p & Hp & Hid & _ & g & -> & Hk & Hg)%stats_row_player.
  simpl in Hid |- *. rewrite Hg, (group_of_player sc db p Hnd Hp).
  rewrite Hk. simpl.
  rewrite !count_player_rows by done. simpl.
  split; [|done]. f_equal. f_equal. apply filter_all. done.
Qed.

(** X1. In the output of every statistics query, with no assumption on the
    stored matches, neither wins nor losses exceed total_matches. *)
Theorem counters_within_total sc db s :
  s ∈ getPlayerStats name_le sc db →
  wins s <= total_matches s ∧ losses s <= total_matches s.
Proof.
  intros (g & -> & _)%stats_row_inv. simpl.
  split; apply count_case_mono; intros [q [m|]] _; simpl; done.
Qed.

(** Under the primary key, the rows of a statistics query are one per
    player of the roster. *)
Lemma stats_ids_Permutation sc db :
  NoDup (p_id <$> players db) →
  id <$> getPlayerStats name_le sc db ≡ₚ p_id <$> players db.
Proof.
  intros Hnd. unfold getPlayerStats, player_stats, Sql.group_by.
  rewrite order_by_Permutation, <- !list_fmap_compose.
  rewrite (list_fmap_ext _ fst) by done.
  assert (p_id <$> players db = fst <$> ((λ p, (p_id p, p_name p)) <$> players db))
    as Hids by (by rewrite <- list_fmap_compose).
  rewrite Hids. f_equiv. apply NoDup_Permutation.
  - apply NoDup_remove_dups.
  - apply (NoDup_fmap_1 fst). by rewrite <- Hids.
  - intros k. rewrite elem_of_remove_dups, !list_elem_of_fmap. split.
    + intros (r & -> & Hr). apply joined_row_inv in Hr as [Hp _]. by exists r.1.
    + intros (p & -> & Hp).
      destruct (left_join_covers (λ p m, involves sc (p_id p) (Some m))
                  (players db) (matches db) p Hp) as [y Hy].
      by exists (p, y).
Qed.

(** X2. When player ids are unique (the primary key), a statistics query
    that the server accepts returns exactly one row per roster player: the
    ids of its rows are a permutation of the ids of the roster.  The query
    of a scope is accepted unless the scope is a season whose id does not
    fit INTEGER; then it is rejected and returns no row. *)
Theorem one_row_per_player sc db :
  NoDup (p_id <$> players db) →
  (accepted sc →
   ∃ rows, run_stats name_le sc db = Ok rows ∧
           id <$> rows ≡ₚ p_id <$> players db) ∧
  (¬ accepted sc → ∃ e, run_stats name_le sc db = Throw e).
Proof.
  intros Hnd. split; [|apply run_stats_rejected].
  intros Hok. eexists. split; [by apply run_stats_accepted|].
  by apply stats_ids_Permutation.
Qed.


(** X4. When player ids are unique, narrowing the scope never raises a
    counter: a player's total_matches, wins and losses in a scope are at
    most those in any scope that contains it (a season or a date against
    lifetime, an earlier cut-off date against a later one). *)
Theorem narrower_scope_counts_less sc sc' db s s' :
  NoDup (p_id <$> players db) →
  narrower sc sc' →
  s ∈ getPlayerStats name_le sc db →
  s' ∈ getPlayerStats name_le sc' db →
  id s = id s' →
  total_matches s <= total_matches s' ∧ wins s <= wins s' ∧ losses s <= losses s'.
Proof.
  intros Hnd Hsc Hs Hs' Hid.
  destruct (stats_row_counts sc db s Hnd Hs) as (-> & -> & ->).
  destruct (stats_row_counts sc' db s' Hnd Hs') as (-> & -> & ->).
  rewrite <- Hid. unfold matches_of. rewrite !list_filter_filter.
  assert (∀ m, Sql.holds (involves sc (id s) (Some m)) = true →
               Sql.holds (involves sc' (id s) (Some m)) = true) as Hin.
  { intros m [Happ Hw]%involves_spec. apply involves_spec. split; [done|].
    by apply Hsc. }
  repeat split; apply Nat2Z.inj_le, length_filter_mono; intros m _ H;
    [|destruct H; split..]; auto.
Qed.
End MoreStats.

(** X5. A match whose winning team is neither 1 nor 2 is shown as a loss
    in the form of each of its players, while the statistics count it
    neither as a win nor as a loss. *)
Theorem undecided_match p m :
  winning_team m ≠ 1 → winning_team m ≠ 2 →
  result (form_row p m) = loss ∧
  Sql.holds (win_case p (Some m)) = false ∧
  Sql.holds (loss_case p (Some m)) = false.
Proof.
  intros H1 H2.
  assert (Sql.holds (win_case p (Some m)) = false) as Hw
    by (apply not_true_iff_false; rewrite win_case_spec; tauto).
  assert (Sql.holds (loss_case p (Some m)) = false) as Hl
    by (apply not_true_iff_false; rewrite loss_case_spec; tauto).
  unfold form_row. simpl. by rewrite Hw.
Qed.

(** Two sorted arrangements of the same rows agree when no two of the rows
    compare equal. *)
Lemma sorted_arrangement_unique {A} (R : relation A) (l1 l2 : list A) :
  (∀ x y, x ∈ l1 → y ∈ l1 → R x y → R y x → x = y) →
  StronglySorted R l1 → StronglySorted R l2 → l1 ≡ₚ l2 → l1 = l2.
Proof.
  revert l2. induction l1 as [|x l1 IH]; intros l2 Hanti H1 H2 Hperm.
  { by apply Permutation_nil_l in Hperm. }
  destruct l2 as [|y l2]; [by apply Permutation_nil_r in Hperm|].
  apply StronglySorted_inv in H1 as [H1 Hx], H2 as [H2 Hy].
  rewrite Forall_forall in Hx, Hy.
  assert (x = y) as <-.
  { assert (x ∈ y :: l2) as [->|Hx2]%elem_of_cons
      by (rewrite <- Hperm; apply list_elem_of_here); [done|].
    assert (y ∈ x :: l1) as [->|Hy1]%elem_of_cons
      by (rewrite Hperm; apply list_elem_of_here); [done|].
    apply Hanti; [apply list_elem_of_here|by apply list_elem_of_further|auto..]. }
  f_equal. apply IH; [|done..|by apply Permutation_cons_inv in Hperm].
  intros a b Ha Hb. apply Hanti; by apply list_elem_of_further.
Qed.

(** The matches a form query selects come out in the same order from every
    listing of the table when no two of them tie under its ORDER BY. *)
Lemma form_matches_listing sc (R : relation Match)
    `{!RelDecision R, !Total R, !Transitive R} db db' p :
  matches db' ≡ₚ matches db →
  (∀ m m', m ∈ matches db → m' ∈ matches db →
           appears p m → appears p m' → within sc m → within sc m' →
           R m m' → R m' m → m = m') →
  form_matches sc R db' p = form_matches sc R db p.
Proof.
  intros Hperm Hanti. unfold form_matches.
  apply (sorted_arrangement_unique R); try apply StronglySorted_order_by; try done.
  - intros m m'. rewrite !order_by_Permutation, !matches_of_spec.
    rewrite !list_elem_of_filter, Hperm.
    intros [[??]?] [[??]?]. by apply Hanti.
  - rewrite !order_by_Permutation, !matches_of_spec. by rewrite Hperm.
Qed.

(** X6. Raising the limit of a form query only appends, provided no two
    stored matches of the player in the scope share both play date and
    creation time (rows that tie under ORDER BY may come out in either
    order, and in a different one each time): then, for limits
    0 <= n <= n' and parameters the server accepts, both queries return
    and the form for n is a prefix of the form for n', also when the two
    executions read the rows of the table in different orders. *)
Theorem form_prefix q db db' p n n' :
  matches db' ≡ₚ matches db →
  (∀ m m', m ∈ matches db → m' ∈ matches db →
           appears p m → appears p m' →
           within (form_scope q) m → within (form_scope q) m' →
           play_date m = play_date m' → created_at m = created_at m' →
           m = m') →
  form_accepted q p n' →
  0 <= n → n <= n' →
  ∃ l l', run_form q db p (Some n) = Ok l ∧
          run_form q db' p (Some n') = Ok l' ∧
          l `prefix_of` l'.
Proof.
  intros Hperm Hdistinct _ Hn Hn'.
  assert (∃ (R : relation Match) (HR : RelDecision R),
    (∀ d limit, run_form q d p limit =
                form_query (form_scope q) R d p (or_default limit)) ∧
    form_matches (form_scope q) R db' p = form_matches (form_scope q) R db p)
    as (R & HR & Hrun & Hsame).
  { destruct q as [|seasonId|date|date|date];
      try (exists form_order, _; split; [done|];
           apply form_matches_listing; [apply _..|done|];
           intros m m' Hm Hm' Ha Ha' Hw Hw' H1 H2;
           apply Hdistinct; try done; unfold form_order in *; lia).
    exists created_order, _. split; [done|].
    apply form_matches_listing; [apply _..|done|].
    intros m m' Hm Hm' Ha Ha' Hw Hw' H1 H2.
    apply Hdistinct; try done; simpl in *; unfold created_order in *; lia. }
  do 2 eexists. rewrite !Hrun. simpl.
  split; [apply form_query_ok; lia|]. split; [apply form_query_ok; lia|].
  rewrite Hsame.
  replace (Z.to_nat n) with (Z.to_nat n `min` Z.to_nat n')%nat by lia.
  rewrite <- take_take, fmap_take. apply prefix_take.
Qed.

(** X7. A form query reports only matches of the stored table that list
    the player in a slot and belong to the scope of the query; in
    particular every play date it shows is the given date for the two
    specific-date queries and no later than the given date for the
    up-to-date query. *)
Theorem form_reports_own_matches q db p limit l e :
  run_form q db p limit = Ok l → e ∈ l →
  ∃ m, m ∈ matches db ∧ appears p m ∧ within (form_scope q) m ∧
       e = form_row p m ∧
       match form_scope q with
       | UpToDate d => fe_play_date e <= d
       | SpecificDate d => fe_play_date e = d
       | _ => True
       end.
Proof.
  destruct (run_form_sorted q db p) as (R & HR & Hrun & _).
  rewrite Hrun. unfold form_query, Sql.limit.
  case_decide; [done|]. intros [= <-] (m & -> & Hm)%list_elem_of_fmap.
  apply subseteq_take in Hm. unfold form_matches in Hm.
  rewrite order_by_Permutation in Hm.
  apply elem_of_matches_of in Hm as (Hm & Happ & Hin).
  exists m. repeat split; try done.
  destruct (form_scope q); simpl in *; done || lia.
Qed.

Section FormAndStats.
Context (name_le : relation string) `{!RelDecision name_le}.

End FormAndStats.

(** ** Further properties of the router *)

(** X9. On a cache hit the handler answers with the cached rankings, marked
    HIT under the route's key, whatever the data layer is: no query is
    run and [set] is not called. *)
Theorem hit_skips_data_layer {C} (rankingsCache : CacheApi C) route c c1 rankings :
  cache_get rankingsCache (route_key route) c = (Ok (Some rankings), c1) →
  ∀ db, handle db rankingsCache route c
          = (Ok (send true (route_key route) rankings), c1).
Proof. intros Hget db. by rewrite handle_run, Hget. Qed.

Lemma route_fresh_run db route :
  route_fresh db route =
    route_stats db route
      ≫= with_form (db_rejects_first db) (route_form db route).
Proof. by destruct route. Qed.

(** X10. A failure before the store ends the request with an exception and
    the cache as the lookup left it, [set] not being called: when [get]
    throws, with that exception; when the lookup misses and the
    statistics query rejects, with its reason; and when the lookup misses
    and form queries reject, with the reason of one of the form queries
    that reject (the one that rejects first). *)
Theorem early_failure_skips_set {C} (db : DbApi) (rankingsCache : CacheApi C)
    route c c1 :
  (∀ e, cache_get rankingsCache (route_key route) c = (Throw e, c1) →
        handle db rankingsCache route c = (Throw e, c1)) ∧
  (cache_get rankingsCache (route_key route) c = (Ok None, c1) →
   (∀ e, route_stats db route = Throw e →
         handle db rankingsCache route c = (Throw e, c1)) ∧
   (∀ rankings s e,
      route_stats db route = Ok rankings →
      s ∈ rankings → route_form db route (id s) = Throw e →
      ∃ s' e', s' ∈ rankings ∧ route_form db route (id s') = Throw e' ∧
               handle db rankingsCache route c = (Throw e', c1))).
Proof.
  split; [intros e Hget; by rewrite handle_run, Hget|].
  intros Hget. split.
  - intros e Hstats. by rewrite handle_run, Hget, route_fresh_run, Hstats.
  - intros rankings s e Hstats Hs He.
    rewrite handle_run, Hget, route_fresh_run, Hstats. simpl.
    destruct (with_form_rejects (db_rejects_first db) _ _ _ _ Hs He) as [e' He'].
    rewrite He'. apply with_form_Throw in He' as (s' & Hs' & Hform).
    by exists s', e'.
Qed.

(** X11. Whenever a handler answers, the answer is a 200 with the rankings
    and the route's key; it is marked HIT exactly when the lookup returned
    the rankings, and MISS exactly when they were recomputed from the data
    layer and [set] returned. *)
Theorem answer_inversion {C} (db : DbApi) (rankingsCache : CacheApi C)
    route c resp c' :
  handle db rankingsCache route c = (Ok resp, c') →
  ∃ cached c1 rankings,
    cache_get rankingsCache (route_key route) c = (Ok cached, c1) ∧
    resp = send (bool_decide (is_Some cached)) (route_key route) rankings ∧
    status resp = 200 ∧
    match cached with
    | Some r => rankings = r ∧ c' = c1
    | None =>
        route_fresh db route = Ok rankings ∧
        cache_set rankingsCache (route_key route) rankings (route_ttl route) c1
          = (Ok (), c')
    end.
Proof.
  rewrite handle_run.
  destruct (cache_get rankingsCache _ c) as [[[r|]|e] c1]; [| |done].
  - intros [= <- <-]. by exists (Some r), c1, r.
  - destruct (route_fresh db route) as [rankings|e]; [|done].
    unfold after_set.
    destruct (cache_set rankingsCache _ rankings _ c1) as [[[]|e] c2] eqn:Hset;
      [|done].
    intros [= <- <-]. by exists None, c1, rankings.
Qed.

(** X12. Attaching the forms succeeds exactly when the form query of every
    listed player succeeds, and then yields one entry per player. *)
Theorem with_form_all_or_nothing first getForm l :
  ((∃ entries, with_form first getForm l = Ok entries) ↔
   ∀ s, s ∈ l → ∃ f, getForm (id s) = Ok f) ∧
  ∀ entries, with_form first getForm l = Ok entries → length entries = length l.
Proof.
  split.
  - setoid_rewrite with_form_Ok. induction l as [|s l IH].
    + split; [by intros _ s ?%not_elem_of_nil|by exists []].
    + cbn [mapM]. split.
      * intros [entries Hes].
        destruct (getForm (id s)) as [f|e] eqn:Hf; [|done]. simpl in Hes.
        destruct (mapM _ l) as [es|e] eqn:Hl; [|done].
        intros s' [->|Hs']%elem_of_cons; [eauto|].
        apply IH; eauto.
      * intros Hall. destruct (Hall s) as [f ->]; [apply list_elem_of_here|].
        destruct (proj2 IH) as [es ->];
          [intros s' Hs'; apply Hall; by apply list_elem_of_further|].
        by eexists.
  - intros entries [<- _]%with_form_inv. by rewrite length_fmap.
Qed.

(** X13. The date route touches neither the cache nor the data layer when
    [checkAuth] answers the request itself or the validator rejects the
    parameter: the outcome is then the same for every data layer, the
    cache is unchanged, and a rejected parameter is answered with 400 and
    the validation message. *)
Theorem route_date_guarded {C} checkAuth isISO8601 db db'
    (rankingsCache : CacheApi C) date c :
  is_Some checkAuth ∨ isISO8601 date = false →
  route_date checkAuth isISO8601 db rankingsCache date c
    = route_date checkAuth isISO8601 db' rankingsCache date c ∧
  (route_date checkAuth isISO8601 db rankingsCache date c).2 = c ∧
  (checkAuth = None →
   (route_date checkAuth isISO8601 db rankingsCache date c).1
     = Ok {| status := 400; headers := [];
             body := ValidationFailed ["Invalid date format. Use YYYY-MM-DD"] |}).
Proof.
  unfold route_date, handleValidationErrors, validate.
  intros [[denied ->]|Hv]; [done|].
  destruct checkAuth; [done|]. by rewrite Hv.
Qed.

(** * Properties of the operations on the store *)

(** ** DELETE and UPDATE *)

Lemma elem_of_sql_delete {A} (c : A → Sql.truth) (rows : list A) r :
  r ∈ sql_delete c rows ↔ r ∈ rows ∧ Sql.holds (c r) ≠ true.
Proof. unfold sql_delete. rewrite list_elem_of_filter. tauto. Qed.

Lemma elem_of_sql_update {A} (c : A → Sql.truth) (set : A → A) (rows : list A) r :
  r ∈ sql_update c set rows ↔
  ∃ r0, r0 ∈ rows ∧ r = if Sql.holds (c r0) then set r0 else r0.
Proof.
  unfold sql_update. rewrite list_elem_of_fmap.
  split; intros (r0 & H1 & H2); exists r0; by split.
Qed.

Lemma holds_eq_id x y : Sql.holds (Sql.eq (Some x) (Some y)) = true ↔ x = y.
Proof. rewrite holds_eq. naive_solver. Qed.

(** ** Removing a player *)

Lemma removePlayer_matches playerId st m :
  m ∈ sql_delete (λ m, plays_in playerId (Some m)) (matches (st_data st)) ↔
  m ∈ matches (st_data st) ∧ ¬ appears playerId m.
Proof. by rewrite elem_of_sql_delete, plays_in_spec. Qed.

Lemma removePlayer_run playerId st :
  removePlayer playerId st =
    (Ok (),
     {| st_data :=
          {| players := filter (λ p, p_id p ≠ playerId) (players (st_data st));
             matches := filter (λ m, ¬ appears playerId m) (matches (st_data st)) |};
        st_seasons := st_seasons st;
        st_season_players :=
          filter (λ sp, sp_player_id sp ≠ playerId) (st_season_players st) |}).
Proof.
  unfold removePlayer. rewrite decide_False.
  - f_equal. f_equal. f_equal.
    + apply list_filter_iff. intros p. by rewrite holds_eq_id.
    + apply list_filter_iff. intros m. by rewrite plays_in_spec.
  - intros [_ (m & Hm & Happ)%Exists_exists].
    apply removePlayer_matches in Hm. tauto.
Qed.

(** X14. [removePlayer] never fails on the foreign keys: it removes the
    player, every match that lists the player in a slot and the player's
    season memberships, and keeps all other players, matches and
    memberships and all seasons; and if every stored match listed roster
    players only, that still holds afterwards. *)
Theorem removePlayer_cascades playerId st :
  ∃ st', removePlayer playerId st = (Ok (), st') ∧
    (∀ p, p ∈ players (st_data st') ↔
          p ∈ players (st_data st) ∧ p_id p ≠ playerId) ∧
    (∀ m, m ∈ matches (st_data st') ↔
          m ∈ matches (st_data st) ∧ ¬ appears playerId m) ∧
    (∀ sp, sp ∈ st_season_players st' ↔
           sp ∈ st_season_players st ∧ sp_player_id sp ≠ playerId) ∧
    st_seasons st' = st_seasons st ∧
    (matches_reference_players (st_data st) →
     matches_reference_players (st_data st')).
Proof.
  eexists. split; [apply removePlayer_run|]. simpl.
  split; [intros p; rewrite list_elem_of_filter; tauto|].
  split; [intros m; rewrite list_elem_of_filter; tauto|].
  split; [intros sp; rewrite list_elem_of_filter; tauto|].
  split; [done|].
  intros Href m p. simpl. rewrite list_elem_of_filter. intros [Hno Hm] Happ.
  pose proof (Href m p Hm Happ) as Hin.
  apply list_elem_of_fmap in Hin as (q & Hq & Hin).
  apply list_elem_of_fmap. exists q. split; [done|].
  apply list_elem_of_filter. split; [|done]. intros Heq. apply Hno. congruence.
Qed.

Section RemoveAndRank.
Context (name_le : relation string) `{!RelDecision name_le}.

End RemoveAndRank.

(** ** Seasons *)

Lemma expired_spec today s :
  Sql.holds (expired today s) = true ↔ is_expired today s.
Proof.
  unfold expired, is_expired, sql_is_true, Sql.is_not_null, sql_lt.
  rewrite !holds_and.
  destruct (is_active s) as [[]|], (auto_end s) as [[]|], (end_date s) as [d|];
    simpl; try case_bool_decide; intuition (discriminate || lia).
Qed.

Lemma end_by_system_not_expired now today s :
  ¬ is_expired today (end_by_system now s).
Proof. intros (Hactive & _). done. Qed.

(** X16. [checkAndEndExpiredSeasons] returns the id and name of exactly
    the seasons that are active, end automatically and have an end date
    before today; afterwards none is left in that condition, every such
    season is inactive and ended by 'system' with its name and dates
    kept, every other season is untouched, and a second run on the same
    day returns nothing and changes nothing. *)
Theorem expired_seasons_end_once now now' today st :
  let st' := (checkAndEndExpiredSeasons now today st).2 in
  (checkAndEndExpiredSeasons now today st).1
    = (λ s, (s_id s, s_name s)) <$> filter (is_expired today) (st_seasons st) ∧
  (∀ s, s ∈ st_seasons st' → ¬ is_expired today s) ∧
  (∀ s, s ∈ st_seasons st → is_expired today s →
        end_by_system now s ∈ st_seasons st') ∧
  (∀ s, s ∈ st_seasons st → ¬ is_expired today s → s ∈ st_seasons st') ∧
  s_id <$> st_seasons st' = s_id <$> st_seasons st ∧
  st_data st' = st_data st ∧
  st_season_players st' = st_season_players st ∧
  checkAndEndExpiredSeasons now' today st' = ([], st').
Proof.
  intros st'. unfold st', checkAndEndExpiredSeasons. simpl.
  assert (∀ s, s ∈ sql_update (expired today) (end_by_system now) (st_seasons st) →
               ¬ is_expired today s) as Hnone.
  { intros s (s0 & Hs0 & ->)%elem_of_sql_update.
    destruct (Sql.holds (expired today s0)) eqn:He.
    - apply end_by_system_not_expired.
    - rewrite <- expired_spec. by rewrite He. }
  split; [f_equal; apply list_filter_iff; intros s; apply expired_spec|].
  split; [exact Hnone|].
  split.
  { intros s Hs He. apply elem_of_sql_update. exists s. split; [done|].
    apply expired_spec in He. by rewrite He. }
  split.
  { intros s Hs He. apply elem_of_sql_update. exists s. split; [done|].
    destruct (Sql.holds (expired today s)) eqn:He'; [|done].
    by apply expired_spec in He'. }
  split.
  { unfold sql_update. rewrite <- list_fmap_compose. apply list_fmap_ext.
    intros i s _. simpl. by destruct (Sql.holds _). }
  split; [done|]. split; [done|].
  f_equal.
  - rewrite (filter_none _ (sql_update _ _ _)); [done|].
    intros s Hs. rewrite expired_spec. by apply Hnone.
  - destruct st as [d ss sp]. simpl. f_equal.
    unfold sql_update at 1. rewrite <- (list_fmap_id (sql_update _ _ ss)) at 2.
    apply list_fmap_ext. intros i s Hs%list_elem_of_lookup_2. simpl.
    destruct (Sql.holds (expired today s)) eqn:He; [|done].
    apply expired_spec in He. by destruct (Hnone s).
Qed.

(** X17. [reactivateSeason] keeps the end date: when a season with a past
    end date and automatic ending is reactivated, the next
    [checkAndEndExpiredSeasons] ends it again and reports it. *)
Theorem reactivated_season_ends_again now today st s d :
  s ∈ st_seasons st →
  auto_end s = Some true → end_date s = Some d → d < today →
  (s_id s, s_name s)
    ∈ (checkAndEndExpiredSeasons now today (reactivateSeason (s_id s) st)).1.
Proof.
  intros Hs Hauto Hend Hd. unfold checkAndEndExpiredSeasons, reactivateSeason.
  simpl. apply list_elem_of_fmap.
  exists {| s_id := s_id s; s_name := s_name s;
            start_date := start_date s; end_date := end_date s;
            is_active := Some true; auto_end := auto_end s;
            description := description s; s_created_at := s_created_at s;
            ended_at := None; ended_by := None |}.
  split; [done|]. apply list_elem_of_filter. split.
  - apply expired_spec. unfold is_expired. simpl. by rewrite Hauto, Hend.
  - apply elem_of_sql_update. exists s. split; [done|].
    simpl. by rewrite bool_decide_eq_true_2.
Qed.

Section ActiveSeason.
Context (text_le : relation string) `{!RelDecision text_le}.
Context `{!Total text_le, !Transitive text_le}.
Context (to_char : Z → string).

#[local] Instance latest_first_total : Total (latest_first text_le).
Proof. intros a b. unfold latest_first. apply total, _. Qed.

#[local] Instance latest_first_trans : Transitive (latest_first text_le).
Proof. intros a b c. unfold latest_first. intros H1 H2. by transitivity (si_start_date b). Qed.

(** X18. [getActiveSeason] answers null exactly when no season has
    is_active true, and otherwise returns a stored active season, with its
    dates as text, whose start date as text no other active season
    exceeds in the order of the collation: the query orders by the output
    column. *)
Theorem getActiveSeason_latest st :
  (getActiveSeason text_le to_char st = None ↔
   ∀ s, s ∈ st_seasons st → is_active s ≠ Some true) ∧
  (∀ r, getActiveSeason text_le to_char st = Some r →
     ∃ s, s ∈ st_seasons st ∧ is_active s = Some true ∧
       r = season_info to_char s ∧
       ∀ s', s' ∈ st_seasons st → is_active s' = Some true →
             text_le (to_char (start_date s')) (si_start_date r)).
Proof.
  assert (∀ r, r ∈ getActiveSeasons text_le to_char st ↔
               ∃ s, s ∈ st_seasons st ∧ is_active s = Some true ∧
                    r = season_info to_char s) as Hin.
  { intros r. unfold getActiveSeasons.
    rewrite elem_of_order_by, list_elem_of_fmap.
    split.
    - intros (s & -> & [Ha Hs]%list_elem_of_filter). exists s.
      unfold sql_is_true in Ha. destruct (is_active s) as [[]|]; done.
    - intros (s & Hs & Ha & ->). exists s. split; [done|].
      apply list_elem_of_filter. split; [|done].
      unfold sql_is_true. by rewrite Ha. }
  assert (StronglySorted (latest_first text_le)
            (getActiveSeasons text_le to_char st)) as Hsorted
    by (apply StronglySorted_order_by; apply _).
  unfold getActiveSeason.
  destruct (getActiveSeasons text_le to_char st) as [|r0 l] eqn:Hl; simpl.
  - split; [|done]. split; [|done].
    intros _ s Hs Hactive.
    assert (season_info to_char s ∈ []) as []%not_elem_of_nil.
    apply Hin. eauto.
  - split.
    + split; [done|]. intros Hnone. exfalso.
      destruct (proj1 (Hin r0) (list_elem_of_here _ _)) as (s & Hs & Ha & _).
      by apply (Hnone s).
    + intros r [= <-].
      destruct (proj1 (Hin r0) (list_elem_of_here _ _)) as (s & Hs & Ha & Hr).
      exists s. split; [done|]. split; [done|]. split; [done|].
      intros s' Hs' Ha'.
      assert (season_info to_char s' ∈ r0 :: l) as [<-|Hs'l]%elem_of_cons
        by (apply Hin; eauto).
      * simpl. destruct (total text_le (to_char (start_date s'))
                           (to_char (start_date s'))); done.
      * apply StronglySorted_inv in Hsorted as [_ Hall].
        rewrite Forall_forall in Hall.
        apply (Hall (season_info to_char s')). done.
Qed.
End ActiveSeason.

(** ** Deleting a season *)

Lemma deleteSeason_run seasonId st :
  deleteSeason seasonId st =
    (Ok (),
     {| st_data :=
          {| players := players (st_data st);
             matches := filter (λ m, season_id m ≠ seasonId) (matches (st_data st)) |};
        st_seasons := filter (λ s, s_id s ≠ seasonId) (st_seasons st);
        st_season_players :=
          filter (λ sp, sp_season_id sp ≠ seasonId) (st_season_players st) |}).
Proof.
  unfold deleteSeason. rewrite decide_False.
  - f_equal. f_equal; [f_equal|]; apply list_filter_iff; intros x;
      by rewrite holds_eq_id.
  - intros [_ (m & Hm & Hs)%Exists_exists].
    apply elem_of_sql_delete in Hm as [_ Hm]. by rewrite holds_eq_id in Hm.
Qed.

Section DeleteAndRank.
Context (name_le : relation string) `{!RelDecision name_le}.

(** A player without a match in the scope has a row of zeros. *)
Lemma no_matches_zero_row sc db s :
  s ∈ getPlayerStats name_le sc db →
  no_matches sc db (id s) →
  wins s = 0 ∧ losses s = 0 ∧ total_matches s = 0 ∧ points s = 0.
Proof.
  intros (g & -> & Hg)%stats_row_inv Hnone. simpl in Hnone.
  assert (∀ r, r ∈ g.2 → r.2 = None) as Hpad.
  { intros r Hr. destruct (group_row_inv _ _ _ _ Hg Hr) as (Hj & Hr1 & _).
    apply joined_row_inv in Hj as [_ Hm].
    destruct (r.2) as [m|]; [|done].
    destruct Hm as (Hm & Happ & Hin). rewrite Hr1 in Happ.
    by destruct (Hnone m). }
  assert (ps_wins (aggregate g) = 0) as Hw.
  { apply count_case_none. intros r Hr. by rewrite (Hpad r Hr). }
  assert (ps_losses (aggregate g) = 0) as Hl.
  { apply count_case_none. intros r Hr. by rewrite (Hpad r Hr). }
  assert (ps_total_matches (aggregate g) = 0) as Ht.
  { apply count_case_none. intros r Hr. by rewrite (Hpad r Hr). }
  unfold select_stats; cbn [wins losses total_matches points].
  rewrite Hw, Hl, Ht. done.
Qed.

(** X19. [deleteSeason] never fails on the foreign keys: it removes the
    season, its matches and its memberships and keeps the roster and
    everything of other seasons; afterwards the season ranking of the
    deleted season (its id fitting INTEGER) is still returned and has a
    row for every player of the roster, and each of its rows shows 0 wins,
    losses, matches and points. *)
Theorem deleteSeason_cascades seasonId st :
  ∃ st', deleteSeason seasonId st = (Ok (), st') ∧
    (seasonId ∉ s_id <$> st_seasons st') ∧
    (∀ s, s ∈ st_seasons st' ↔ s ∈ st_seasons st ∧ s_id s ≠ seasonId) ∧
    (∀ m, m ∈ matches (st_data st') ↔
          m ∈ matches (st_data st) ∧ season_id m ≠ seasonId) ∧
    (∀ sp, sp ∈ st_season_players st' ↔
           sp ∈ st_season_players st ∧ sp_season_id sp ≠ seasonId) ∧
    players (st_data st') = players (st_data st) ∧
    (-2147483648 <= seasonId <= 2147483647 →
     ∃ rows,
       getPlayerStatsBySeason name_le (st_data st') seasonId = Ok rows ∧
       (∀ p, p ∈ players (st_data st) →
             ∃ s, s ∈ rows ∧ id s = p_id p ∧ name s = p_name p) ∧
       (∀ s, s ∈ rows →
             wins s = 0 ∧ losses s = 0 ∧ total_matches s = 0 ∧ points s = 0)).
Proof.
  eexists. split; [apply deleteSeason_run|]. simpl.
  split.
  { intros (s & Hid & Hs)%list_elem_of_fmap.
    apply list_elem_of_filter in Hs as [Hne _]. done. }
  split; [intros s; rewrite list_elem_of_filter; tauto|].
  split; [intros m; rewrite list_elem_of_filter; tauto|].
  split; [intros sp; rewrite list_elem_of_filter; tauto|].
  split; [done|].
  intros Hrange. eexists. split.
  { unfold getPlayerStatsBySeason. by rewrite decide_True. }
  split; [intros p Hp; by apply roster_row_exists|].
  intros s Hs. apply (no_matches_zero_row (Season seasonId) _ s Hs).
  intros m Hm _ Hin. simpl in Hm, Hin.
  apply list_elem_of_filter in Hm as [Hne _]. done.
Qed.
End DeleteAndRank.

(** ** Players of a season *)

Lemma sp_member_spec rows seasonId playerId :
  sp_member rows seasonId playerId ↔
  ∃ sp, sp ∈ rows ∧ sp_season_id sp = seasonId ∧ sp_player_id sp = playerId.
Proof. unfold sp_member. by rewrite Exists_exists. Qed.

(** X20. [addPlayerToSeason] never throws.  It answers false, changing
    nothing, exactly when the pair is not yet stored and the season or the
    player does not exist; otherwise it answers true, the pair is stored
    afterwards and repeating the call changes nothing; a pair that is
    already stored is not stored again; roster and seasons are never
    touched. *)
Theorem addPlayerToSeason_idempotent now now' seasonId playerId st :
  let r := addPlayerToSeason now seasonId playerId st in
  (r.1 = false ↔
   ¬ sp_member (st_season_players st) seasonId playerId ∧
   ¬ sp_references_ok st seasonId playerId) ∧
  (r.1 = false → r.2 = st) ∧
  (r.1 = true →
   sp_member (st_season_players r.2) seasonId playerId ∧
   addPlayerToSeason now' seasonId playerId r.2 = (true, r.2)) ∧
  (sp_member (st_season_players st) seasonId playerId → r.2 = st) ∧
  st_data r.2 = st_data st ∧ st_seasons r.2 = st_seasons st.
Proof.
  intros r. unfold r, addPlayerToSeason.
  destruct (decide (sp_member _ seasonId playerId)) as [Hmem|Hmem]; simpl.
  { repeat split; try done; try tauto.
    by destruct (decide (sp_member _ _ _)). }
  destruct (decide (sp_references_ok st seasonId playerId)) as [Hok|Hok]; simpl.
  - assert (sp_member
              (st_season_players st ++
               [{| sp_season_id := seasonId; sp_player_id := playerId;
                   joined_at := Some now |}]) seasonId playerId) as Hnew.
    { apply sp_member_spec. eexists.
      split; [apply elem_of_app; right; apply list_elem_of_here|done]. }
    repeat split; try done; try tauto.
    by destruct (decide (sp_member _ _ _)).
  - repeat split; try done; tauto.
Qed.

Lemma sp_member_snoc rows seasonId p q now :
  sp_member (rows ++ [{| sp_season_id := seasonId; sp_player_id := p;
                          joined_at := Some now |}]) seasonId q ↔
  sp_member rows seasonId q ∨ q = p.
Proof.
  rewrite !sp_member_spec. split.
  - intros (sp & [Hsp| ->%list_elem_of_singleton]%elem_of_app & Hs & Hq).
    + left. by exists sp.
    + right. by simpl in Hq.
  - intros [(sp & Hsp & Hs & Hq)| ->].
    + exists sp. split; [|done]. apply elem_of_app. by left.
    + eexists. split; [apply elem_of_app; right; apply list_elem_of_here|done].
Qed.

(** The loop of [setSeasonPlayers] passes exactly when the ids are
    pairwise distinct, none is stored yet for the season and the foreign
    keys hold; it then appends one row per id, in order. *)
Lemma insert_season_players_spec now seasonId playerIds st :
  let acceptable :=
    NoDup playerIds ∧
    ∀ p, p ∈ playerIds →
      ¬ sp_member (st_season_players st) seasonId p ∧
      sp_references_ok st seasonId p in
  (acceptable →
   insert_season_players now seasonId playerIds st =
     Ok {| st_data := st_data st;
           st_seasons := st_seasons st;
           st_season_players :=
             st_season_players st ++
             ((λ p, {| sp_season_id := seasonId; sp_player_id := p;
                       joined_at := Some now |}) <$> playerIds) |}) ∧
  (¬ acceptable →
   ∃ e, insert_season_players now seasonId playerIds st = Throw e).
Proof.
  revert st. induction playerIds as [|p rest IH]; intros st acceptable.
  { split.
    - intros _. simpl. rewrite app_nil_r. by destruct st.
    - intros []. split; [constructor|]. by intros p ?%not_elem_of_nil. }
  cbn [insert_season_players].
  destruct (decide (sp_member _ seasonId p)) as [Hmem|Hmem].
  { split; [|by eexists]. intros [_ Hall].
    destruct (Hall p (list_elem_of_here _ _)) as [Hno _]. done. }
  destruct (decide (sp_references_ok st seasonId p)) as [Hok|Hok].
  2:{ split; [|by eexists]. intros [_ Hall].
      destruct (Hall p (list_elem_of_here _ _)) as [_ Hrefs]. done. }
  set (st1 := {| st_data := st_data st; st_seasons := st_seasons st;
                 st_season_players := st_season_players st ++ [_] |}).
  destruct (IH st1) as [IHok IHfail].
  assert (acceptable ↔
          NoDup rest ∧
          ∀ q, q ∈ rest →
            ¬ sp_member (st_season_players st1) seasonId q ∧
            sp_references_ok st1 seasonId q) as Hiff.
  { unfold acceptable, st1. simpl. rewrite NoDup_cons. split.
    - intros [[Hp Hnd] Hall]. split; [done|]. intros q Hq.
      destruct (Hall q) as [Hno Hrefs]; [by apply list_elem_of_further|].
      split; [|done]. rewrite sp_member_snoc. intros [?| ->]; done.
    - intros [Hnd Hall]. split; [split; [|done]|].
      + intros Hp. destruct (Hall p Hp) as [Hno _]. apply Hno.
        apply sp_member_snoc. by right.
      + intros q [->|Hq]%elem_of_cons; [done|].
        destruct (Hall q Hq) as [Hno Hrefs]. split; [|done].
        intros Hm. apply Hno, sp_member_snoc. by left. }
  split.
  - intros Hacc%Hiff. rewrite (IHok Hacc). unfold st1. simpl.
    by rewrite <- app_assoc.
  - intros Hacc. apply IHfail. by rewrite <- Hiff.
Qed.

Lemma cleared_no_member seasonId st p :
  ¬ sp_member
      (sql_delete (λ sp, Sql.eq (Some (sp_season_id sp)) (Some seasonId))
         (st_season_players st)) seasonId p.
Proof.
  intros (sp & Hsp & Hs & _)%sp_member_spec.
  apply elem_of_sql_delete in Hsp as [_ Hne]. by rewrite holds_eq_id in Hne.
Qed.

(** What [setSeasonPlayers] does, by cases. *)
Lemma setSeasonPlayers_spec now seasonId playerIds st :
  (season_players_acceptable seasonId playerIds st →
   ∃ st', setSeasonPlayers now seasonId playerIds st = (Ok (), st') ∧
     sp_player_id <$> members_of seasonId st' = playerIds ∧
     (∀ other, other ≠ seasonId → members_of other st' = members_of other st) ∧
     st_data st' = st_data st ∧ st_seasons st' = st_seasons st) ∧
  (¬ season_players_acceptable seasonId playerIds st →
   ∃ e, setSeasonPlayers now seasonId playerIds st = (Throw e, st)).
Proof.
  unfold setSeasonPlayers.
  set (cleared := {| st_data := st_data st; st_seasons := st_seasons st;
                     st_season_players := sql_delete _ _ |}).
  destruct (insert_season_players_spec now seasonId playerIds cleared)
    as [Hok Hfail].
  assert (season_players_acceptable seasonId playerIds st ↔
          NoDup playerIds ∧
          ∀ p, p ∈ playerIds →
            ¬ sp_member (st_season_players cleared) seasonId p ∧
            sp_references_ok cleared seasonId p) as Hiff.
  { unfold season_players_acceptable, sp_references_ok, cleared. simpl.
    split; intros [Hnd Hall]; (split; [done|]); intros p Hp.
    - split; [apply cleared_no_member|by apply Hall].
    - by apply Hall. }
  split.
  - intros Hacc%Hiff. rewrite (Hok Hacc). eexists. split; [done|].
    unfold members_of, cleared, sql_delete. cbn [st_season_players st_data st_seasons].
    split; [|split; [|done]].
    + rewrite filter_app, filter_none, app_nil_l.
      * rewrite filter_all by (by intros sp (p & -> & _)%list_elem_of_fmap).
        rewrite <- list_fmap_compose. apply list_fmap_id.
      * intros sp [Hne _]%list_elem_of_filter Heq.
        apply Hne. by apply holds_eq_id.
    + intros other Hother. rewrite filter_app, list_filter_filter.
      rewrite (filter_none _ (_ <$> playerIds)), app_nil_r.
      * apply list_filter_iff. intros sp. rewrite holds_eq_id. intuition congruence.
      * intros sp (p & -> & _)%list_elem_of_fmap. simpl. congruence.
  - intros Hacc. destruct Hfail as [e ->]; [by rewrite <- Hiff|]. by exists e.
Qed.

(** X21. [setSeasonPlayers] is all or nothing.  When the given ids are
    pairwise distinct and, unless the list is empty, the season and every
    listed player exist, it succeeds and the season's members become
    exactly the given ids, in order, while the members of every other
    season, the roster and the seasons stay as they were; in every other
    case it throws and the store is as before the call. *)
Theorem setSeasonPlayers_all_or_nothing now seasonId playerIds st :
  (season_players_acceptable seasonId playerIds st →
   ∃ st', setSeasonPlayers now seasonId playerIds st = (Ok (), st') ∧
     sp_player_id <$> members_of seasonId st' = playerIds ∧
     (∀ other, other ≠ seasonId → members_of other st' = members_of other st) ∧
     st_data st' = st_data st ∧ st_seasons st' = st_seasons st) ∧
  (¬ season_players_acceptable seasonId playerIds st →
   ∃ e, setSeasonPlayers now seasonId playerIds st = (Throw e, st)).
Proof. apply setSeasonPlayers_spec. Qed.

Section SeasonRoster.
Context (name_le : relation string) `{!RelDecision name_le}.

Lemma player_by_id (l : list Player) q :
  NoDup (p_id <$> l) → q ∈ p_id <$> l →
  p_id <$> filter (λ p, Sql.holds (Sql.eq (Some q) (Some (p_id p))) = true) l = [q].
Proof.
  induction l as [|p l IH]; intros Hnd Hq; [by apply not_elem_of_nil in Hq|].
  rewrite fmap_cons in Hnd, Hq. apply NoDup_cons in Hnd as [Hp Hnd].
  rewrite filter_cons. destruct (decide _) as [Hpq|Hpq].
  - apply holds_eq_id in Hpq as ->. rewrite fmap_cons. f_equal.
    rewrite filter_none; [done|].
    intros p' Hp' Heq%holds_eq_id. apply Hp. rewrite Heq.
    by apply list_elem_of_fmap_2.
  - apply IH; [done|]. apply elem_of_cons in Hq as [->|Hq]; [|done].
    destruct Hpq. by apply holds_eq_id.
Qed.

(** When player ids are unique and every member is on the roster,
    [getSeasonPlayers] lists the members of the season. *)
Lemma getSeasonPlayers_members seasonId st :
  NoDup (p_id <$> players (st_data st)) →
  (∀ sp, sp ∈ members_of seasonId st →
         sp_player_id sp ∈ p_id <$> players (st_data st)) →
  spr_id <$> getSeasonPlayers name_le seasonId st
    ≡ₚ sp_player_id <$> members_of seasonId st.
Proof.
  intros Hnd Hrefs. unfold getSeasonPlayers.
  rewrite order_by_Permutation.
  assert (filter (λ sp, Sql.holds (Sql.eq (Some (sp_season_id sp)) (Some seasonId)) = true)
            (st_season_players st) = members_of seasonId st) as ->.
  { apply list_filter_iff. intros sp. by rewrite holds_eq_id. }
  revert Hrefs. generalize (members_of seasonId st). intros l Hrefs.
  induction l as [|sp l IH]; [done|].
  rewrite bind_cons, fmap_app, fmap_cons, <- list_fmap_compose.
  rewrite (list_fmap_ext _ p_id) by done.
  rewrite player_by_id; [|done|apply Hrefs, list_elem_of_here].
  simpl. f_equiv. apply IH. intros sp' Hsp'. by apply Hrefs, list_elem_of_further.
Qed.

(** X22. When player ids are unique, after a successful
    [setSeasonPlayers] the ids that [getSeasonPlayers] lists for the season
    are exactly the given ids, up to the order by name. *)
Theorem set_then_get_season_players now seasonId playerIds st :
  NoDup (p_id <$> players (st_data st)) →
  season_players_acceptable seasonId playerIds st →
  (setSeasonPlayers now seasonId playerIds st).1 = Ok () ∧
  spr_id <$> getSeasonPlayers name_le seasonId
               (setSeasonPlayers now seasonId playerIds st).2
    ≡ₚ playerIds.
Proof.
  intros Hnd Hacc.
  destruct (setSeasonPlayers_spec now seasonId playerIds st) as [Hok _].
  destruct (Hok Hacc) as (st' & -> & Hmembers & _ & Hdata & _). simpl.
  split; [done|].
  rewrite getSeasonPlayers_members, Hmembers; [done|by rewrite Hdata|].
  intros sp Hsp. rewrite Hdata.
  assert (sp_player_id sp ∈ playerIds) as Hin
    by (rewrite <- Hmembers; by apply list_elem_of_fmap_2).
  by apply Hacc.
Qed.
End SeasonRoster.

(** ** Recording a match *)

Lemma or_null_spec x : or_null x = if decide (x = Some 0) then None else x.
Proof. by destruct x as [[| |]|]. Qed.

Lemma match_type_in_spec t :
  match_type_in t ≠ Some false ↔ t = None ∨ t = Some "solo" ∨ t = Some "duo".
Proof.
  destruct t as [s|]; simpl; [|naive_solver].
  case_bool_decide as H; split; try done.
  - intros _. right. destruct H as [-> | ->]; auto.
  - intros [?|[[= ->]|[= ->]]]; [done| |]; destruct H; auto.
Qed.

Lemma constraints_reference_players st m :
  match_constraints_ok st m →
  ∀ p, appears p m → p ∈ p_id <$> players (st_data st).
Proof.
  intros (_ & _ & H1 & H2 & H3 & H4) p [[<-|Hp]|[<-|Hp]]; try done.
  - by rewrite Hp in H2.
  - by rewrite Hp in H4.
Qed.

Lemma addMatch_run newId now seasonId playDate player1Id player2Id player3Id
    player4Id team1Score team2Score winningTeam matchType st :
  let m :=
    {| m_id := newId; season_id := seasonId; play_date := playDate;
       match_type := or_duo matchType;
       player1_id := player1Id; player2_id := or_null player2Id;
       player3_id := player3Id; player4_id := or_null player4Id;
       team1_score := team1Score; team2_score := team2Score;
       winning_team := winningTeam; created_at := now |} in
  let r := addMatch newId now seasonId playDate player1Id player2Id player3Id
             player4Id team1Score team2Score winningTeam matchType st in
  ((newId ∉ m_id <$> matches (st_data st)) ∧ match_constraints_ok st m ∧
   r = (Ok newId,
        {| st_data := {| players := players (st_data st);
                         matches := matches (st_data st) ++ [m] |};
           st_seasons := st_seasons st;
           st_season_players := st_season_players st |})) ∨
  ((newId ∈ m_id <$> matches (st_data st) ∨ ¬ match_constraints_ok st m) ∧
   ∃ e, r = (Throw e, st)).
Proof.
  intros m r. unfold r, addMatch. fold m.
  destruct (decide (newId ∈ _)) as [Hid|Hid]; [right; eauto|].
  destruct (decide (match_constraints_ok st m)) as [Hok|Hok]; [by left|].
  right; eauto.
Qed.

(** X23. [addMatch] either throws and leaves the store as it was, or
    returns the new id and appends exactly one match.  That match has the
    new id, the given season, play date, first players of the two teams,
    scores and winning team, and the current time as its creation time; a
    partner id of 0 is stored as NULL, like an absent one; its type is the
    given one, 'duo' when the argument is omitted and NULL when it is
    null, and in every case NULL, 'solo' or 'duo'.  On success the
    roster, the seasons and the memberships stay, match ids stay unique if
    they were, and if every stored match listed roster players only, that
    still holds. *)
Theorem addMatch_appends newId now seasonId playDate player1Id player2Id
    player3Id player4Id team1Score team2Score winningTeam matchType st :
  let r := addMatch newId now seasonId playDate player1Id player2Id player3Id
             player4Id team1Score team2Score winningTeam matchType st in
  (∃ e, r = (Throw e, st)) ∨
  (r.1 = Ok newId ∧
   ∃ m, matches (st_data r.2) = matches (st_data st) ++ [m] ∧
     m_id m = newId ∧ season_id m = seasonId ∧ play_date m = playDate ∧
     player1_id m = player1Id ∧ player3_id m = player3Id ∧
     player2_id m = (if decide (player2Id = Some 0) then None else player2Id) ∧
     player4_id m = (if decide (player4Id = Some 0) then None else player4Id) ∧
     team1_score m = team1Score ∧ team2_score m = team2Score ∧
     winning_team m = winningTeam ∧ created_at m = now ∧
     match_type m = match matchType with
                    | None => Some "duo"
                    | Some given => given
                    end ∧
     (match_type m = None ∨ match_type m = Some "solo" ∨
      match_type m = Some "duo") ∧
     players (st_data r.2) = players (st_data st) ∧
     st_seasons r.2 = st_seasons st ∧
     st_season_players r.2 = st_season_players st ∧
     (NoDup (m_id <$> matches (st_data st)) →
      NoDup (m_id <$> matches (st_data r.2))) ∧
     (matches_reference_players (st_data st) →
      matches_reference_players (st_data r.2))).
Proof.
  intros r.
  destruct (addMatch_run newId now seasonId playDate player1Id player2Id
              player3Id player4Id team1Score team2Score winningTeam matchType st)
    as [(Hid & Hok & Hr)|[_ He]]; [|by left].
  right. fold r in Hr. rewrite Hr. simpl. split; [done|].
  eexists. split; [done|]. simpl.
  repeat (split; [done || apply or_null_spec|]).
  split; [apply match_type_in_spec, Hok|].
  repeat (split; [done|]).
  split.
  - intros Hnd. rewrite fmap_app. apply NoDup_app. split; [done|].
    split; [|apply NoDup_singleton].
    intros i Hi ->%list_elem_of_singleton. done.
  - intros Href m p [Hm| ->%list_elem_of_singleton]%elem_of_app Happ.
    + by apply (Href m).
    + by apply (constraints_reference_players st _ Hok).
Qed.

(** X24. Deleting the match that [addMatch] has just recorded restores
    the store. *)
Theorem addMatch_deleteMatch newId now seasonId playDate player1Id player2Id
    player3Id player4Id team1Score team2Score winningTeam matchType st :
  let r := addMatch newId now seasonId playDate player1Id player2Id player3Id
             player4Id team1Score team2Score winningTeam matchType st in
  r.1 = Ok newId → deleteMatch newId r.2 = st.
Proof.
  intros r.
  destruct (addMatch_run newId now seasonId playDate player1Id player2Id
              player3Id player4Id team1Score team2Score winningTeam matchType st)
    as [(Hid & Hok & Hr)|[_ [e He]]]; [fold r in Hr|fold r in He; by rewrite He].
  rewrite Hr. intros _. unfold deleteMatch, sql_delete.
  destruct st as [[ps ms] ss sps]. cbn [snd st_data st_seasons st_season_players
    players matches] in *. do 3 f_equal.
  rewrite filter_app, filter_all, filter_none; [apply app_nil_r| |].
  - intros m ->%list_elem_of_singleton Hne. apply Hne. by apply holds_eq_id.
  - intros m Hm Heq%holds_eq_id. apply Hid. rewrite <- Heq.
    by apply list_elem_of_fmap_2.
Qed.

(** ** Rankings after a match is recorded *)

Section RecordAndRank.
Context (name_le : relation string) `{!RelDecision name_le}.

(** When player ids are unique, the rows of a ranking are the rows of the
    roster players. *)
Lemma stats_rows_row_for sc db s :
  NoDup (p_id <$> players db) →
  s ∈ getPlayerStats name_le sc db ↔ ∃ p, p ∈ players db ∧ s = row_for sc db p.
Proof.
  intros Hnd.
  assert (∀ p, p ∈ players db →
    select_stats (aggregate ((p_id p, p_name p),
      filter (λ r : Player * option Match,
                (p_id r.1, p_name r.1) = (p_id p, p_name p)) (joined sc db)))
    = row_for sc db p) as Hrow.
  { intros p Hp. rewrite (group_of_player sc db p Hnd Hp).
    unfold row_for, aggregate. cbn [fst snd].
    rewrite !count_player_rows by done. cbn [fst snd].
    do 2 f_equal. rewrite filter_all; done. }
  split.
  - intros (p & Hp & _ & _ & g & -> & Hk & Hg)%stats_row_player.
    exists p. split; [done|]. rewrite <- (Hrow p Hp). do 2 f_equal.
    destruct g as [k rows]. simpl in *. by rewrite Hk, Hg.
  - intros (p & Hp & ->). rewrite <- (Hrow p Hp).
    apply stats_row_intro, elem_of_group_by. split; [|done].
    destruct (left_join_covers (λ p m, involves sc (p_id p) (Some m))
                (players db) (matches db) p Hp) as [y Hy].
    by exists (p, y).
Qed.

Lemma matches_of_with_match sc db m q :
  matches_of sc (with_match db m) q =
    matches_of sc db q ++ (if decide (appears q m ∧ within sc m) then [m] else []).
Proof.
  unfold matches_of, with_match. simpl. rewrite filter_app. f_equal.
  rewrite filter_cons, filter_nil.
  destruct (decide (Sql.holds _ = true)) as [H|H], (decide (appears q m ∧ _)) as [H'|H'];
    try done; rewrite involves_spec in H; tauto.
Qed.

Lemma with_match_counts sc db m s' :
  NoDup (p_id <$> players db) →
  s' ∈ getPlayerStats name_le sc (with_match db m) →
  ∃ s, s ∈ getPlayerStats name_le sc db ∧
    id s' = id s ∧ name s' = name s ∧
    total_matches s' = bump (appears (id s) m ∧ within sc m) (total_matches s) ∧
    wins s' =
      bump (within sc m ∧ Sql.holds (win_case (id s) (Some m)) = true) (wins s) ∧
    losses s' =
      bump (within sc m ∧ Sql.holds (loss_case (id s) (Some m)) = true) (losses s).
Proof.
  intros Hnd Hs'.
  apply (stats_rows_row_for sc (with_match db m) s' Hnd) in Hs'
    as (p & Hp & ->).
  exists (row_for sc db p). split; [apply stats_rows_row_for; eauto|].
  unfold row_for, bump. simpl.
  rewrite !matches_of_with_match, !filter_app, !length_app.
  split; [done|]. split; [done|].
  pose proof (win_case_spec (p_id p) m) as Hw.
  pose proof (loss_case_spec (p_id p) m) as Hl.
  assert (Sql.holds (win_case (p_id p) (Some m)) = true → appears (p_id p) m)
    as Hwa by (intros ?%Hw; unfold appears; tauto).
  assert (Sql.holds (loss_case (p_id p) (Some m)) = true → appears (p_id p) m)
    as Hla by (intros ?%Hl; unfold appears; tauto).
  destruct (decide (appears (p_id p) m ∧ within sc m)) as [[Ha Hin]|Hno].
  - rewrite !filter_cons, !filter_nil.
    repeat split; repeat case_decide; simpl; try lia; tauto.
  - rewrite !filter_nil. simpl.
    repeat split; repeat case_decide; simpl; try lia; tauto.
Qed.

(** X25. When player ids are unique, a successful [addMatch] changes a
    ranking of any scope in this way only: the rows are those of the same
    players, and a player's total_matches, wins and losses each go up by
    one exactly when the recorded match belongs to the scope and,
    respectively, lists the player, meets the win condition for the
    player, meets the loss condition for the player. *)
Theorem addMatch_rankings sc newId now seasonId playDate player1Id player2Id
    player3Id player4Id team1Score team2Score winningTeam matchType st s' :
  let r := addMatch newId now seasonId playDate player1Id player2Id player3Id
             player4Id team1Score team2Score winningTeam matchType st in
  r.1 = Ok newId →
  NoDup (p_id <$> players (st_data st)) →
  s' ∈ getPlayerStats name_le sc (st_data r.2) →
  ∃ m s, last (matches (st_data r.2)) = Some m ∧
    s ∈ getPlayerStats name_le sc (st_data st) ∧
    id s' = id s ∧ name s' = name s ∧
    total_matches s' = bump (appears (id s) m ∧ within sc m) (total_matches s) ∧
    wins s' =
      bump (within sc m ∧ Sql.holds (win_case (id s) (Some m)) = true) (wins s) ∧
    losses s' =
      bump (within sc m ∧ Sql.holds (loss_case (id s) (Some m)) = true) (losses s).
Proof.
  intros r.
  destruct (addMatch_run newId now seasonId playDate player1Id player2Id
              player3Id player4Id team1Score team2Score winningTeam matchType st)
    as [(Hid & Hok & Hr)|[_ [e He]]]; [fold r in Hr|fold r in He; by rewrite He].
  rewrite Hr. cbn [fst snd st_data]. intros _ Hnd Hs'.
  eexists. 
  destruct (with_match_counts sc (st_data st) _ s' Hnd Hs') as (s & Hs).
  exists s. split; [|exact Hs].
  cbn [matches]. apply last_snoc.
Qed.
End RecordAndRank.

(** ** Correcting a match *)

Lemma updateMatch_run matchId seasonId playDate player1Id player2Id player3Id
    player4Id team1Score team2Score winningTeam matchType st :
  let set m :=
    {| m_id := m_id m; season_id := seasonId; play_date := playDate;
       match_type := or_duo matchType;
       player1_id := player1Id; player2_id := or_null player2Id;
       player3_id := player3Id; player4_id := or_null player4Id;
       team1_score := team1Score; team2_score := team2Score;
       winning_team := winningTeam; created_at := created_at m |} in
  let r := updateMatch matchId seasonId playDate player1Id player2Id player3Id
             player4Id team1Score team2Score winningTeam matchType st in
  ((∀ m, m ∈ matches (st_data st) → m_id m = matchId →
      match_constraints_ok st (set m)) ∧
   r = (Ok (),
        {| st_data :=
             {| players := players (st_data st);
                matches := (λ m, if decide (m_id m = matchId) then set m else m)
                             <$> matches (st_data st) |};
           st_seasons := st_seasons st;
           st_season_players := st_season_players st |})) ∨
  (matchId ∈ m_id <$> matches (st_data st) ∧ ∃ e, r = (Throw e, st)).
Proof.
  intros set r. unfold r, updateMatch. fold set.
  destruct (decide (Exists _ _)) as [Hex|Hex].
  - right. apply Exists_exists in Hex as (m & Hm & Hid & _).
    split; [|eauto]. rewrite <- Hid. by apply list_elem_of_fmap_2.
  - left. split.
    + intros m Hm Hid. destruct (decide (match_constraints_ok st (set m))); [done|].
      destruct Hex. apply Exists_exists. eauto.
    + do 3 f_equal. unfold sql_update. apply list_fmap_ext. intros _ m _.
      destruct (decide (m_id m = matchId)) as [Hid|Hid].
      * by rewrite (proj2 (holds_eq_id _ _) Hid).
      * destruct (Sql.holds _) eqn:Hh; [|done]. by apply holds_eq_id in Hh.
Qed.

(** X26. [updateMatch] either throws and leaves the store as it was,
    which happens only when a match has the id, or it succeeds: then the
    roster, the seasons and the memberships stay, the matches keep their
    positions, ids and creation times, every match with another id is
    untouched, and a match with the id takes the given season, play date,
    first players of the two teams, scores and winning team, a partner id
    of 0 being stored as NULL like an absent one, and the given type,
    'duo' when the argument is omitted and NULL when it is null, in every
    case NULL, 'solo' or 'duo'; if every stored match listed roster
    players only, that still holds.  With an id that no match has it
    succeeds and changes nothing. *)
Theorem updateMatch_in_place matchId seasonId playDate player1Id player2Id
    player3Id player4Id team1Score team2Score winningTeam matchType st :
  let r := updateMatch matchId seasonId playDate player1Id player2Id player3Id
             player4Id team1Score team2Score winningTeam matchType st in
  ((matchId ∉ m_id <$> matches (st_data st)) → r = (Ok (), st)) ∧
  ((matchId ∈ m_id <$> matches (st_data st) ∧ ∃ e, r = (Throw e, st)) ∨
   (r.1 = Ok () ∧
    players (st_data r.2) = players (st_data st) ∧
    st_seasons r.2 = st_seasons st ∧
    st_season_players r.2 = st_season_players st ∧
    m_id <$> matches (st_data r.2) = m_id <$> matches (st_data st) ∧
    created_at <$> matches (st_data r.2) = created_at <$> matches (st_data st) ∧
    (∀ i m', matches (st_data r.2) !! i = Some m' →
       ∃ m, matches (st_data st) !! i = Some m ∧
         if decide (m_id m = matchId)
         then m_id m' = m_id m ∧ created_at m' = created_at m ∧
              season_id m' = seasonId ∧ play_date m' = playDate ∧
              player1_id m' = player1Id ∧ player3_id m' = player3Id ∧
              player2_id m' =
                (if decide (player2Id = Some 0) then None else player2Id) ∧
              player4_id m' =
                (if decide (player4Id = Some 0) then None else player4Id) ∧
              team1_score m' = team1Score ∧ team2_score m' = team2Score ∧
              winning_team m' = winningTeam ∧
              match_type m' = match matchType with
                              | None => Some "duo"
                              | Some given => given
                              end ∧
              (match_type m' = None ∨ match_type m' = Some "solo" ∨
               match_type m' = Some "duo")
         else m' = m) ∧
    (matches_reference_players (st_data st) →
     matches_reference_players (st_data r.2)))).
Proof.
  intros r.
  destruct (updateMatch_run matchId seasonId playDate player1Id player2Id
              player3Id player4Id team1Score team2Score winningTeam matchType st)
    as [(Hok & Hr)|[Hin [e He]]]; fold r in Hr || fold r in He.
  2: { split; [intros Hno; by destruct Hno|left; eauto]. }
  rewrite Hr. split.
  - intros Hno. f_equal. destruct st as [[ps ms] ss sps]. simpl in *.
    do 2 f_equal. rewrite <- (list_fmap_id ms) at 2.
    apply list_fmap_ext. intros _ m Hm%list_elem_of_lookup_2.
    destruct (decide _) as [Hid|]; [|done].
    destruct Hno. rewrite <- Hid. by apply list_elem_of_fmap_2.
  - right. cbn [fst snd st_data st_seasons st_season_players players matches].
    repeat (split; [done|]). split; [|split; [|split]].
    + rewrite <- list_fmap_compose. apply list_fmap_ext. intros _ m _. simpl.
      by destruct (decide _).
    + rewrite <- list_fmap_compose. apply list_fmap_ext. intros _ m _. simpl.
      by destruct (decide _).
    + intros i m' Hm'. rewrite list_lookup_fmap in Hm'.
      destruct (matches (st_data st) !! i) as [m|] eqn:Hm; [|done].
      simpl in Hm'. injection Hm' as <-. exists m. split; [done|].
      destruct (decide _) as [Hid|]; [|done]. simpl.
      repeat (split; [done || apply or_null_spec|]).
      apply match_type_in_spec.
      by destruct (Hok m (list_elem_of_lookup_2 _ _ _ Hm) Hid) as [Ht _].
    + intros Href m' p (m & -> & Hm)%list_elem_of_fmap Happ.
      destruct (decide _) as [Hid|]; [|by apply (Href m)].
      by apply (constraints_reference_players st _ (Hok m Hm Hid)).
Qed.

(** ** Leaving a season and looking a season up *)

(** X27. [removePlayerFromSeason] removes the pair and nothing else, so
    that it undoes [addPlayerToSeason]: after adding and removing, the
    store is the one that removing alone gives, and it is the original
    store when the pair was not stored before. *)
Theorem removePlayerFromSeason_undoes_add now seasonId playerId st :
  let r := addPlayerToSeason now seasonId playerId st in
  (∀ sp, sp ∈ st_season_players (removePlayerFromSeason seasonId playerId st) ↔
         sp ∈ st_season_players st ∧
         ¬ (sp_season_id sp = seasonId ∧ sp_player_id sp = playerId)) ∧
  removePlayerFromSeason seasonId playerId r.2
    = removePlayerFromSeason seasonId playerId st ∧
  (¬ sp_member (st_season_players st) seasonId playerId →
   removePlayerFromSeason seasonId playerId r.2 = st).
Proof.
  intros r.
  assert (∀ sp, Sql.holds
            (Sql.and (Sql.eq (Some (sp_season_id sp)) (Some seasonId))
                     (Sql.eq (Some (sp_player_id sp)) (Some playerId))) = true
          ↔ sp_season_id sp = seasonId ∧ sp_player_id sp = playerId) as Hc.
  { intros sp. by rewrite holds_and, !holds_eq_id. }
  assert (¬ sp_member (st_season_players st) seasonId playerId →
          removePlayerFromSeason seasonId playerId st = st) as Hid.
  { intros Hno. destruct st as [d ss sps]. unfold removePlayerFromSeason.
    simpl in *. f_equal. unfold sql_delete. apply filter_all.
    intros sp Hsp Hh%Hc. apply Hno, sp_member_spec. exists sp. tauto. }
  assert (removePlayerFromSeason seasonId playerId r.2
          = removePlayerFromSeason seasonId playerId st) as Hr.
  { unfold r, addPlayerToSeason. repeat case_decide; try done.
    unfold removePlayerFromSeason. simpl. f_equal.
    unfold sql_delete. rewrite filter_app.
    rewrite (filter_none _ [_]); [apply app_nil_r|].
    intros sp ->%list_elem_of_singleton Hne. apply Hne, Hc. done. }
  split; [|split; [done|]].
  - intros sp. unfold removePlayerFromSeason. cbn [st_season_players].
    rewrite elem_of_sql_delete. cbv beta. by rewrite Hc.
  - intros Hno. rewrite Hr. by apply Hid.
Qed.

Lemma filter_by_key {A} (f : A → Z) (l : list A) x :
  NoDup (f <$> l) → x ∈ l →
  filter (λ y, Sql.holds (Sql.eq (Some (f y)) (Some (f x))) = true) l = [x].
Proof.
  induction l as [|a l IH]; intros Hnd Hx; [by apply not_elem_of_nil in Hx|].
  rewrite fmap_cons in Hnd. apply NoDup_cons in Hnd as [Ha Hnd].
  rewrite filter_cons. destruct (decide _) as [Heq|Hne].
  - apply holds_eq_id in Heq.
    apply elem_of_cons in Hx as [->|Hx].
    + f_equal. apply filter_none. intros y Hy Hh%holds_eq_id.
      apply Ha. rewrite <- Hh. by apply list_elem_of_fmap_2.
    + destruct Ha. rewrite Heq. by apply list_elem_of_fmap_2.
  - apply elem_of_cons in Hx as [->|Hx]; [|by apply IH].
    destruct Hne. by apply holds_eq_id.
Qed.

Section SeasonLookup.
Context (text_le : relation string) `{!RelDecision text_le}.
Context (to_char : Z → string).

(** X28. When season ids are unique, every season that
    [checkAndEndExpiredSeasons] reports is found by [getSeasonById]
    afterwards under the reported id and name, inactive, ended by
    'system' at the time of the call, and it is no longer among the
    active seasons. *)
Theorem ended_season_by_id now today st i n :
  NoDup (s_id <$> st_seasons st) →
  (i, n) ∈ (checkAndEndExpiredSeasons now today st).1 →
  ∃ r, getSeasonById to_char i (checkAndEndExpiredSeasons now today st).2
         = Some r ∧
    si_id r = i ∧ si_name r = n ∧
    si_is_active r = Some false ∧ si_ended_by r = Some "system" ∧
    si_ended_at r = Some now ∧
    r ∉ getActiveSeasons text_le to_char
          (checkAndEndExpiredSeasons now today st).2.
Proof.
  intros Hnd Hrep. unfold checkAndEndExpiredSeasons in Hrep. cbn [fst] in Hrep.
  apply list_elem_of_fmap in Hrep as (s & Heq & Hs).
  apply list_elem_of_filter in Hs as [He Hs].
  injection Heq as -> ->.
  exists (season_info to_char (end_by_system now s)).
  assert (end_by_system now s
            ∈ sql_update (expired today) (end_by_system now) (st_seasons st))
    as Hin.
  { apply elem_of_sql_update. exists s. by rewrite He. }
  assert (s_id <$> sql_update (expired today) (end_by_system now) (st_seasons st)
          = s_id <$> st_seasons st) as Hids.
  { unfold sql_update. rewrite <- list_fmap_compose. apply list_fmap_ext.
    intros _ x _. unfold compose. by destruct (Sql.holds (expired today x)). }
  split; [|repeat (split; [done|])].
  - unfold getSeasonById, checkAndEndExpiredSeasons. cbn [snd st_seasons].
    change (s_id s) with (s_id (end_by_system now s)).
    rewrite (filter_by_key s_id); [done| |done]. by rewrite Hids.
  - unfold getActiveSeasons. rewrite elem_of_order_by.
    intros (s' & Heq & [Hact _]%list_elem_of_filter)%list_elem_of_fmap.
    apply (f_equal si_is_active) in Heq. simpl in Heq.
    unfold sql_is_true in Hact. rewrite <- Heq in Hact. done.
Qed.
End SeasonLookup.

(** * Properties of the user router *)

Lemma NoDup_fmap_eq {A B} (f : A → B) (l : list A) x y :
  NoDup (f <$> l) → x ∈ l → y ∈ l → f x = f y → x = y.
Proof.
  induction l as [|a l IH]; intros Hnd Hx Hy Hf; [by apply not_elem_of_nil in Hx|].
  rewrite fmap_cons in Hnd. apply NoDup_cons in Hnd as [Ha Hnd].
  apply elem_of_cons in Hx as [->|Hx], Hy as [->|Hy]; [done| | |by apply IH].
  - destruct Ha. rewrite Hf. by apply list_elem_of_fmap_2.
  - destruct Ha. rewrite <- Hf. by apply list_elem_of_fmap_2.
Qed.

Lemma elem_of_getUsers users ui :
  ui ∈ getUsers users ↔ ∃ u, u ∈ users ∧ ui = user_info u.
Proof.
  unfold getUsers. rewrite list_elem_of_fmap.
  split; intros (u & H1 & H2); exists u.
  - split; [|done]. by rewrite order_by_Permutation in H2.
  - split; [done|]. by rewrite order_by_Permutation.
Qed.

Lemma find_user userId users :
  match find (λ u, bool_decide (ui_id u = userId)) (getUsers users) with
  | Some ui => ∃ u, u ∈ users ∧ ui = user_info u ∧ u_id u = userId
  | None => userId ∉ u_id <$> users
  end.
Proof.
  destruct (find _ _) as [ui|] eqn:Hf.
  - apply find_some in Hf as [Hin Hid]. apply bool_decide_eq_true in Hid.
    apply list_elem_of_In, elem_of_getUsers in Hin as (u & Hu & ->). eauto.
  - intros (u & -> & Hu)%list_elem_of_fmap.
    pose proof (find_none _ _ Hf (user_info u)) as Hn.
    rewrite bool_decide_eq_false in Hn. apply Hn; [|done].
    apply list_elem_of_In, elem_of_getUsers. eauto.
Qed.

(** X29. When user ids are unique, [DELETE /:id] never removes an
    account of the requester: every account that carries the requester's
    username is still stored afterwards, whatever id is asked for. *)
Theorem delete_keeps_requester requester userId users u :
  NoDup (u_id <$> users) →
  u ∈ users → username u = requester →
  u ∈ (delete_user_by_id requester userId users).2.
Proof.
  intros Hnd Hu Hname. unfold delete_user_by_id.
  pose proof (find_user userId users) as Hf.
  destruct (find _ _) as [ui|]; [|done].
  destruct Hf as (v & Hv & -> & Hid).
  destruct (decide _) as [|Hne]; [done|]. simpl in *.
  apply elem_of_sql_delete. split; [done|].
  intros Heq%holds_eq_id. apply Hne.
  assert (u = v) as -> by (apply (NoDup_fmap_eq u_id users); congruence).
  done.
Qed.

(** X30. When user ids are unique, the answer of [DELETE /:id] tells
    what happened: 404 exactly when no account has the id, 400 exactly
    when the account with the id carries the requester's username, and in
    both cases nothing is removed; otherwise 200, and exactly the account
    with the id is gone. *)
Theorem delete_user_outcome requester userId users :
  NoDup (u_id <$> users) →
  let r := delete_user_by_id requester userId users in
  (ur_status r.1 = 404 ∨ ur_status r.1 = 400 ∨ ur_status r.1 = 200) ∧
  (ur_status r.1 = 404 ↔ userId ∉ u_id <$> users) ∧
  (ur_status r.1 = 400 ↔
     ∃ u, u ∈ users ∧ u_id u = userId ∧ username u = requester) ∧
  (ur_status r.1 ≠ 200 → r.2 = users) ∧
  (ur_status r.1 = 200 → ∀ u, u ∈ r.2 ↔ u ∈ users ∧ u_id u ≠ userId).
Proof.
  intros Hnd r. unfold r, delete_user_by_id.
  pose proof (find_user userId users) as Hf.
  destruct (find _ _) as [ui|].
  - destruct Hf as (v & Hv & -> & Hid).
    assert (userId ∈ u_id <$> users)
      by (rewrite <- Hid; by apply list_elem_of_fmap_2).
    destruct (decide _) as [He|Hne]; simpl in *.
    + split; [auto|]. split; [split; [done|tauto]|].
      split; [split; [eauto|done]|]. split; done.
    + split; [auto|]. split; [split; [done|tauto]|].
      split; [split; [done|]|].
      * intros (u & Hu & Hu' & Hname). destruct Hne.
        assert (u = v) as -> by (apply (NoDup_fmap_eq u_id users); congruence).
        done.
      * split; [done|]. intros _ u. unfold deleteUser.
        rewrite elem_of_sql_delete, holds_eq_id. tauto.
  - simpl. split; [auto|]. split; [done|].
    split; [split; [done|]|].
    + intros (u & Hu & Hu' & _). destruct Hf. rewrite <- Hu'.
      by apply list_elem_of_fmap_2.
    + split; done.
Qed.

(** ** Witnesses of the further properties *)

Lemma sample_db_primary_key : NoDup (p_id <$> players sample_db).
Proof. by apply (bool_decide_unpack _). Qed.

Lemma stat_A_listed_season :
  stat_A ∈ getPlayerStats String.le (Season 1) sample_db.
Proof. apply (list_elem_of_lookup_2 _ 0%nat). by vm_compute. Qed.

Lemma counters_within_total_witness :
  stat_A ∈ getPlayerStats String.le Lifetime sample_db ∧
  wins stat_A <= total_matches stat_A ∧ losses stat_A <= total_matches stat_A.
Proof.
  split; [exact stat_A_listed|].
  exact (counters_within_total String.le Lifetime sample_db stat_A stat_A_listed).
Defined.

Lemma one_row_per_player_witness :
  NoDup (p_id <$> players sample_db) ∧
  accepted (Season 1) ∧
  ∃ rows, run_stats String.le (Season 1) sample_db = Ok rows ∧
          id <$> rows ≡ₚ p_id <$> players sample_db.
Proof.
  assert (accepted (Season 1)) as Hok by (simpl; lia).
  split; [exact sample_db_primary_key|]. split; [exact Hok|].
  exact (proj1 (one_row_per_player String.le (Season 1) sample_db
                  sample_db_primary_key) Hok).
Defined.


Lemma narrower_scope_counts_less_witness :
  NoDup (p_id <$> players sample_db) ∧
  narrower (Season 1) Lifetime ∧
  stat_A ∈ getPlayerStats String.le (Season 1) sample_db ∧
  stat_A ∈ getPlayerStats String.le Lifetime sample_db ∧
  total_matches stat_A <= total_matches stat_A.
Proof.
  assert (narrower (Season 1) Lifetime) as Hsc by (intros m _; exact I).
  split; [exact sample_db_primary_key|]. split; [exact Hsc|].
  split; [exact stat_A_listed_season|]. split; [exact stat_A_listed|].
  exact (proj1 (narrower_scope_counts_less String.le (Season 1) Lifetime sample_db
                  stat_A stat_A sample_db_primary_key Hsc
                  stat_A_listed_season stat_A_listed eq_refl)).
Defined.

Lemma undecided_match_witness :
  winning_team undecided_sample ≠ 1 ∧ winning_team undecided_sample ≠ 2 ∧
  result (form_row 1 undecided_sample) = loss ∧
  Sql.holds (win_case 1 (Some undecided_sample)) = false ∧
  Sql.holds (loss_case 1 (Some undecided_sample)) = false.
Proof.
  assert (winning_team undecided_sample ≠ 1) as H1 by (simpl; lia).
  assert (winning_team undecided_sample ≠ 2) as H2 by (simpl; lia).
  split; [exact H1|]. split; [exact H2|].
  exact (undecided_match 1 undecided_sample H1 H2).
Defined.

Lemma listed_db_distinct m m' :
  m ∈ matches listed_db → m' ∈ matches listed_db →
  appears 1 m → appears 1 m' →
  within (form_scope Form) m → within (form_scope Form) m' →
  play_date m = play_date m' → created_at m = created_at m' → m = m'.
Proof.
  intros Hm Hm' _ _ _ _ Hd _.
  apply elem_of_cons in Hm as [->|Hm], Hm' as [->|Hm']; try done;
    repeat match goal with
           | H : _ ∈ [_] |- _ => apply list_elem_of_singleton in H as ->
           end; done.
Qed.

Lemma form_prefix_witness :
  matches relisted_db ≡ₚ matches listed_db ∧
  form_accepted Form 1 5 ∧ 0 <= 1 ∧ 1 <= 5 ∧
  ∃ l l', run_form Form listed_db 1 (Some 1) = Ok l ∧
          run_form Form relisted_db 1 (Some 5) = Ok l' ∧
          l `prefix_of` l'.
Proof.
  assert (matches relisted_db ≡ₚ matches listed_db) as Hperm by apply perm_swap.
  assert (form_accepted Form 1 5) as Hok by (unfold form_accepted; simpl; lia).
  split; [exact Hperm|]. split; [exact Hok|]. split; [lia|]. split; [lia|].
  apply (form_prefix Form listed_db relisted_db 1 1 5 Hperm listed_db_distinct
           Hok); lia.
Defined.

Lemma form_reports_own_matches_witness :
  run_form (FormBySpecificDate 15) sample_db 3 None
    = Ok [form_row 3 solo_match] ∧
  form_row 3 solo_match ∈ [form_row 3 solo_match] ∧
  ∃ m, m ∈ matches sample_db ∧ appears 3 m ∧
       within (SpecificDate 15) m ∧ form_row 3 solo_match = form_row 3 m ∧
       fe_play_date (form_row 3 solo_match) = 15.
Proof.
  assert (run_form (FormBySpecificDate 15) sample_db 3 None
            = Ok [form_row 3 solo_match]) as Hrun by (by vm_compute).
  split; [exact Hrun|]. split; [apply list_elem_of_here|].
  exact (form_reports_own_matches (FormBySpecificDate 15) sample_db 3 None _ _
           Hrun (list_elem_of_here _ _)).
Defined.


Lemma hit_skips_data_layer_witness :
  ∃ rankings,
    cache_get ttl_cache (route_key RLifetime) warm_cache
      = (Ok (Some rankings), warm_cache) ∧
    handle sample_pg ttl_cache RLifetime warm_cache
      = (Ok (send true (route_key RLifetime) rankings), warm_cache).
Proof.
  eexists.
  assert (cache_get ttl_cache (route_key RLifetime) warm_cache
            = (Ok (Some _), warm_cache)) as Hget by (by vm_compute).
  split; [exact Hget|].
  exact (hit_skips_data_layer ttl_cache RLifetime warm_cache warm_cache _ Hget
           sample_pg).
Defined.

(** Both form queries of the request reject; the request ends with the
    reason of the one that rejects first, the second in the ranking. *)
Lemma early_failure_skips_set_witness :
  cache_get ttl_cache (route_key RLifetime) empty_cache = (Ok None, empty_cache) ∧
  route_stats racing_db RLifetime = Ok [stat_A; stat_C] ∧
  route_form racing_db RLifetime (id stat_A) = Throw "no form for 1" ∧
  route_form racing_db RLifetime (id stat_C) = Throw "no form for 3" ∧
  handle racing_db ttl_cache RLifetime empty_cache
    = (Throw "no form for 3", empty_cache) ∧
  ∃ s' e', s' ∈ [stat_A; stat_C] ∧
           route_form racing_db RLifetime (id s') = Throw e' ∧
           handle racing_db ttl_cache RLifetime empty_cache
             = (Throw e', empty_cache).
Proof.
  assert (cache_get ttl_cache (route_key RLifetime) empty_cache
            = (Ok None, empty_cache)) as Hget by (by vm_compute).
  split; [exact Hget|]. split; [reflexivity|].
  split; [by vm_compute|]. split; [by vm_compute|]. split; [by vm_compute|].
  exact (proj2 (proj2 (early_failure_skips_set racing_db ttl_cache RLifetime
                         empty_cache empty_cache) Hget)
           [stat_A; stat_C] stat_A "no form for 1" eq_refl
           (list_elem_of_here _ _) eq_refl).
Defined.

Lemma answer_inversion_witness :
  ∃ resp,
    handle sample_pg ttl_cache RLifetime empty_cache = (Ok resp, warm_cache) ∧
    status resp = 200 ∧
    cache_get ttl_cache (route_key RLifetime) empty_cache = (Ok None, empty_cache).
Proof.
  eexists.
  assert (handle sample_pg ttl_cache RLifetime empty_cache = (Ok _, warm_cache))
    as Hrun by (by vm_compute).
  split; [exact Hrun|].
  destruct (answer_inversion sample_pg ttl_cache RLifetime empty_cache _ _ Hrun)
    as (cached & c1 & rankings & Hget & _ & Hstatus & _).
  split; [exact Hstatus|]. by vm_compute.
Defined.

Lemma route_date_guarded_witness :
  (is_Some (@None Response) ∨ (λ _ : string, false) "2024-01-15" = false) ∧
  (route_date None (λ _, false) sample_pg ttl_cache "2024-01-15" empty_cache).2
    = empty_cache.
Proof.
  assert (is_Some (@None Response) ∨ (λ _ : string, false) "2024-01-15" = false)
    as Hguard by (by right).
  split; [exact Hguard|].
  exact (proj1 (proj2 (route_date_guarded None (λ _, false) sample_pg sample_pg
                         ttl_cache "2024-01-15" empty_cache Hguard))).
Defined.

(** ** Witnesses of the properties of the store and of the user router *)



Lemma reactivated_season_ends_again_witness :
  mk_season 1 "Spring" 1 (Some 10) true true ∈ st_seasons sample_store ∧
  (1, "Spring")
    ∈ (checkAndEndExpiredSeasons 500 20 (reactivateSeason 1 sample_store)).1.
Proof.
  assert (mk_season 1 "Spring" 1 (Some 10) true true ∈ st_seasons sample_store)
    as Hin by (apply list_elem_of_here).
  split; [exact Hin|].
  apply (reactivated_season_ends_again 500 20 sample_store
           (mk_season 1 "Spring" 1 (Some 10) true true) 10 Hin);
    [reflexivity|reflexivity|lia].
Defined.

Lemma getActiveSeason_latest_witness :
  getActiveSeason String.le sample_to_char sample_store = None ↔
  ∀ s, s ∈ st_seasons sample_store → is_active s ≠ Some true.
Proof.
  exact (proj1 (getActiveSeason_latest String.le sample_to_char sample_store)).
Defined.

Lemma sample_roster_acceptable :
  season_players_acceptable 2 [3; 1] sample_store.
Proof.
  split; [by apply (bool_decide_unpack _)|].
  intros p Hp. split; [by apply (bool_decide_unpack _)|].
  apply elem_of_cons in Hp as [->|Hp]; [by apply (bool_decide_unpack _)|].
  apply list_elem_of_singleton in Hp as ->. by apply (bool_decide_unpack _).
Qed.

Lemma set_then_get_season_players_witness :
  NoDup (p_id <$> players (st_data sample_store)) ∧
  season_players_acceptable 2 [3; 1] sample_store ∧
  spr_id <$> getSeasonPlayers String.le 2
               (setSeasonPlayers 500 2 [3; 1] sample_store).2
    ≡ₚ [3; 1].
Proof.
  split; [exact sample_db_primary_key|].
  split; [exact sample_roster_acceptable|].
  exact (proj2 (set_then_get_season_players String.le 500 2 [3; 1] sample_store
                  sample_db_primary_key sample_roster_acceptable)).
Defined.

Lemma addMatch_deleteMatch_witness :
  (addMatch 2 300 2 20 2 None 3 (Some 0) 11 9 1 (Some (Some "solo")) sample_store).1
    = Ok 2 ∧
  deleteMatch 2
    (addMatch 2 300 2 20 2 None 3 (Some 0) 11 9 1 (Some (Some "solo")) sample_store).2
    = sample_store.
Proof.
  assert ((addMatch 2 300 2 20 2 None 3 (Some 0) 11 9 1 (Some (Some "solo"))
             sample_store).1 = Ok 2) as Hok by (by vm_compute).
  split; [exact Hok|].
  exact (addMatch_deleteMatch 2 300 2 20 2 None 3 (Some 0) 11 9 1 (Some (Some "solo"))
           sample_store Hok).
Defined.

Lemma stat_B_listed_after_match :
  stat_B_after ∈ getPlayerStats String.le Lifetime
    (st_data (addMatch 2 300 2 20 2 None 3 (Some 0) 11 9 1 (Some (Some "solo"))
                sample_store).2).
Proof. apply (list_elem_of_lookup_2 _ 1%nat). by vm_compute. Qed.

Lemma addMatch_rankings_witness :
  (addMatch 2 300 2 20 2 None 3 (Some 0) 11 9 1 (Some (Some "solo")) sample_store).1
    = Ok 2 ∧
  NoDup (p_id <$> players (st_data sample_store)) ∧
  ∃ m s,
    last (matches (st_data (addMatch 2 300 2 20 2 None 3 (Some 0) 11 9 1
                              (Some (Some "solo")) sample_store).2)) = Some m ∧
    s ∈ getPlayerStats String.le Lifetime (st_data sample_store) ∧
    id stat_B_after = id s ∧ name stat_B_after = name s ∧
    total_matches stat_B_after
      = bump (appears (id s) m ∧ within Lifetime m) (total_matches s) ∧
    wins stat_B_after
      = bump (within Lifetime m ∧ Sql.holds (win_case (id s) (Some m)) = true)
          (wins s) ∧
    losses stat_B_after
      = bump (within Lifetime m ∧ Sql.holds (loss_case (id s) (Some m)) = true)
          (losses s).
Proof.
  assert ((addMatch 2 300 2 20 2 None 3 (Some 0) 11 9 1 (Some (Some "solo"))
             sample_store).1 = Ok 2) as Hok by (by vm_compute).
  split; [exact Hok|]. split; [exact sample_db_primary_key|].
  exact (addMatch_rankings String.le Lifetime 2 300 2 20 2 None 3 (Some 0) 11 9 1
           (Some (Some "solo")) sample_store stat_B_after Hok sample_db_primary_key
           stat_B_listed_after_match).
Defined.

Lemma sample_seasons_primary_key : NoDup (s_id <$> st_seasons sample_store).
Proof. by apply (bool_decide_unpack _). Qed.

Lemma spring_reported :
  (1, "Spring") ∈ (checkAndEndExpiredSeasons 500 20 sample_store).1.
Proof. apply (list_elem_of_lookup_2 _ 0%nat). by vm_compute. Qed.

Lemma ended_season_by_id_witness :
  NoDup (s_id <$> st_seasons sample_store) ∧
  (1, "Spring") ∈ (checkAndEndExpiredSeasons 500 20 sample_store).1 ∧
  ∃ r, getSeasonById sample_to_char 1
         (checkAndEndExpiredSeasons 500 20 sample_store).2 = Some r ∧
    si_id r = 1 ∧ si_name r = "Spring" ∧
    si_is_active r = Some false ∧ si_ended_by r = Some "system" ∧
    si_ended_at r = Some 500 ∧
    r ∉ getActiveSeasons String.le sample_to_char
          (checkAndEndExpiredSeasons 500 20 sample_store).2.
Proof.
  split; [exact sample_seasons_primary_key|]. split; [exact spring_reported|].
  exact (ended_season_by_id String.le sample_to_char 500 20 sample_store 1 "Spring"
           sample_seasons_primary_key spring_reported).
Defined.

Lemma sample_users_primary_key : NoDup (u_id <$> sample_users).
Proof. by apply (bool_decide_unpack _). Qed.

Lemma delete_keeps_requester_witness :
  NoDup (u_id <$> sample_users) ∧
  mk_user 1 "root" "admin" 0 ∈ sample_users ∧
  mk_user 1 "root" "admin" 0 ∈ (delete_user_by_id "root" 1 sample_users).2.
Proof.
  assert (mk_user 1 "root" "admin" 0 ∈ sample_users) as Hin
    by (apply list_elem_of_here).
  split; [exact sample_users_primary_key|]. split; [exact Hin|].
  exact (delete_keeps_requester "root" 1 sample_users (mk_user 1 "root" "admin" 0)
           sample_users_primary_key Hin eq_refl).
Defined.

Lemma delete_user_outcome_witness :
  NoDup (u_id <$> sample_users) ∧
  (ur_status (delete_user_by_id "root" 2 sample_users).1 = 404 ↔
     2 ∉ u_id <$> sample_users).
Proof.
  split; [exact sample_users_primary_key|].
  exact (proj1 (proj2 (delete_user_outcome "root" 2 sample_users
                         sample_users_primary_key))).
Defined.
